(** * MMM-Nextcloud: a shallow embedding of the node helper and of the
      front-end module, and the properties of the cache, the listing parser,
      the EXIF extractor and the slideshow navigation.

    Layout of the development:
    - [JS]          strings as sequences of UTF-16 code units, and the
                    functions of the language and of Node the two files
                    call on them (path.extname in its POSIX form); the
                    product of two Numbers;
    - [Handler]     the monad of the methods: state, effects, exceptions;
    - [Helper]      src/node_helper.js;
    - [Front]       src/MMM-Nextcloud.js;
    - [Sample]      a host and a configuration for the examples;
    - [HelperFacts], [FrontFacts]  the properties.

    Conventions.  A function without effects that can throw returns a
    [result].  A method returns the new fields of [this], the effects it
    performed, in program order, and its [completion]; an effect is a log
    line, a notification on the socket, a request, a timer or an operation
    on the page.  A callback registered with [on], [then], [setTimeout] or
    [onload] is a method of its own, run when the event arrives.  Parts of
    the platform that are not code of this repository (the URL parser, the
    regular-expression engine, the EXIF parser, the JSON parser, the date
    formatter, Math.random) are parameters: the fields of [Helper.Host]
    and the variables of the section of [Front].  A byte is a number below
    256. *)

From Stdlib Require Import List ZArith NArith QArith Qround Qpower Bool Lia Lqa
  String Ascii.
Import ListNotations.

Set Implicit Arguments.

(* ================================================================== *)
(** ** Strings, exceptions *)
(* ================================================================== *)

Module JS.

(** A JavaScript string: its UTF-16 code units. *)
Definition jsstring := list N.

(** A string literal of the source (ASCII). *)
Definition js (s : string) : jsstring :=
  List.map N_of_ascii (list_ascii_of_string s).

Fixpoint str_eqb (a b : jsstring) : bool :=
  match a, b with
  | [], [] => true
  | x :: a', y :: b' => (x =? y)%N && str_eqb a' b'
  | _, _ => false
  end.

(** [s.startsWith(p)]; on success, the rest of [s]. *)
Fixpoint strip_prefix (p s : jsstring) : option jsstring :=
  match p, s with
  | [], _ => Some s
  | x :: p', y :: s' => if (x =? y)%N then strip_prefix p' s' else None
  | _ :: _, [] => None
  end.

(** [s.replace(pat, '')] for a string pattern: the first occurrence of
    [pat] is removed, nothing changes when there is none. *)
Fixpoint remove_first (pat s : jsstring) : jsstring :=
  match strip_prefix pat s with
  | Some rest => rest
  | None => match s with
            | [] => []
            | c :: s' => c :: remove_first pat s'
            end
  end.

(** [s.replace(/^\/+/, '')]. *)
Fixpoint strip_leading_slashes (s : jsstring) : jsstring :=
  match s with
  | 47%N :: s' => strip_leading_slashes s'
  | _ => s
  end.

(** [s.endsWith('/')]. *)
Definition endsWith_slash (s : jsstring) : bool :=
  match rev s with
  | 47%N :: _ => true
  | _ => false
  end.

(** [String.prototype.toLowerCase] on one code unit.  Outside ASCII the
    code unit is kept: the only strings it is compared with are the ASCII
    extensions, and no code unit outside ASCII lowers to an ASCII letter
    other than k (U+212A). *)
Definition lower_unit (c : N) : N :=
  if ((65 <=? c) && (c <=? 90))%N then (c + 32)%N
  else if (c =? 8490)%N then 107%N else c.

Definition toLowerCase (s : jsstring) : jsstring := List.map lower_unit s.

(** [Array.prototype.includes] on an array of strings. *)
Definition includes (l : list jsstring) (s : jsstring) : bool :=
  existsb (str_eqb s) l.

(** *** path.extname (POSIX)

    Node scans the path from its end: the extension starts at the last dot
    of the last path component, unless that component has no dot, starts
    with its only dot, or is "..". *)
Record ExtScan := {
  startDot : Z; startPart : Z; endp : Z; matchedSlash : bool;
  preDotState : Z; stopped : bool }.

Definition ext_step (i : Z) (code : N) (st : ExtScan) : ExtScan :=
  if stopped st then st else
  if (code =? 47)%N then
    if negb (matchedSlash st)
    then {| startDot := startDot st; startPart := i + 1; endp := endp st;
            matchedSlash := matchedSlash st; preDotState := preDotState st;
            stopped := true |}
    else st
  else
    let st1 :=
      if (endp st =? -1)%Z
      then {| startDot := startDot st; startPart := startPart st; endp := i + 1;
              matchedSlash := false; preDotState := preDotState st;
              stopped := false |}
      else st in
    if (code =? 46)%N then
      if (startDot st1 =? -1)%Z
      then {| startDot := i; startPart := startPart st1; endp := endp st1;
              matchedSlash := matchedSlash st1; preDotState := preDotState st1;
              stopped := false |}
      else if negb (preDotState st1 =? 1)%Z
      then {| startDot := startDot st1; startPart := startPart st1; endp := endp st1;
              matchedSlash := matchedSlash st1; preDotState := 1;
              stopped := false |}
      else st1
    else if negb (startDot st1 =? -1)%Z
      then {| startDot := startDot st1; startPart := startPart st1; endp := endp st1;
              matchedSlash := matchedSlash st1; preDotState := -1;
              stopped := false |}
      else st1.

(** The loop [for (i = path.length - 1; i >= 0; --i)]: [rs] is the path
    reversed, [i] the index of its head. *)
Fixpoint ext_scan (rs : jsstring) (i : Z) (st : ExtScan) : ExtScan :=
  match rs with
  | [] => st
  | c :: rs' => ext_scan rs' (i - 1) (ext_step i c st)
  end.

Definition slice (s : jsstring) (from to : Z) : jsstring :=
  firstn (Z.to_nat (to - from)) (skipn (Z.to_nat from) s).

Definition extname (p : jsstring) : jsstring :=
  let st := ext_scan (rev p) (Z.of_nat (List.length p) - 1)
              {| startDot := -1; startPart := 0; endp := -1;
                 matchedSlash := true; preDotState := 0; stopped := false |} in
  if ((startDot st =? -1) || (endp st =? -1) || (preDotState st =? 0)
      || ((preDotState st =? 1) && (startDot st =? endp st - 1)
          && (startDot st =? startPart st + 1)))%Z
  then []
  else slice p (startDot st) (endp st).

(** [String.prototype.trim]: white space and line terminators. *)
Definition is_space (c : N) : bool :=
  ((c =? 9) || (c =? 10) || (c =? 11) || (c =? 12) || (c =? 13) || (c =? 32)
   || (c =? 160) || (c =? 5760) || ((8192 <=? c) && (c <=? 8202))
   || (c =? 8232) || (c =? 8233) || (c =? 8239) || (c =? 8287)
   || (c =? 12288) || (c =? 65279))%N.

Fixpoint trim_start (s : jsstring) : jsstring :=
  match s with
  | c :: s' => if is_space c then trim_start s' else s
  | [] => []
  end.

Definition trim (s : jsstring) : jsstring :=
  rev (trim_start (rev (trim_start s))).

(** Decimal rendering of a non-negative integer, as in a template
    literal. *)
Fixpoint uint_units (d : Decimal.uint) : jsstring :=
  match d with
  | Decimal.Nil => []
  | Decimal.D0 d => 48%N :: uint_units d
  | Decimal.D1 d => 49%N :: uint_units d
  | Decimal.D2 d => 50%N :: uint_units d
  | Decimal.D3 d => 51%N :: uint_units d
  | Decimal.D4 d => 52%N :: uint_units d
  | Decimal.D5 d => 53%N :: uint_units d
  | Decimal.D6 d => 54%N :: uint_units d
  | Decimal.D7 d => 55%N :: uint_units d
  | Decimal.D8 d => 56%N :: uint_units d
  | Decimal.D9 d => 57%N :: uint_units d
  end.

Definition N_to_string (n : N) : jsstring :=
  match N.to_uint n with
  | Decimal.Nil => [48%N]
  | d => uint_units d
  end.

(** *** Exceptions *)

Inductive ErrorKind := Error_ | TypeError | URIError | SyntaxError | RangeError.

Record exn := { kind : ErrorKind; message : jsstring }.

(** A call of a function without effects returns or throws. *)
Inductive result (A : Type) : Type :=
| Ok (a : A)
| Throw (e : exn).
Arguments Ok {A} a.
Arguments Throw {A} e.

Definition bind {A B} (r : result A) (k : A -> result B) : result B :=
  match r with
  | Ok a => k a
  | Throw e => Throw e
  end.

Definition fmap {A B} (f : A -> B) (r : result A) : result B :=
  bind r (fun a => Ok (f a)).

(** *** UTF-8 and the URI functions *)

Definition hex_value (c : N) : option N :=
  if ((48 <=? c) && (c <=? 57))%N then Some (c - 48)%N
  else if ((65 <=? c) && (c <=? 70))%N then Some (c - 55)%N
  else if ((97 <=? c) && (c <=? 102))%N then Some (c - 87)%N
  else None.

Definition uri_malformed : exn :=
  {| kind := URIError; message := js "URI malformed" |}.

(** The number of leading 1 bits of an octet. *)
Definition leading_ones (b : N) : nat :=
  if (b <? 128)%N then 0
  else if (b <? 192)%N then 1
  else if (b <? 224)%N then 2
  else if (b <? 240)%N then 3
  else if (b <? 248)%N then 4
  else 5.

Definition is_cont (b : N) : bool := ((128 <=? b) && (b <? 192))%N.

(** The code point of a well-formed UTF-8 sequence; the shortest form is
    required and surrogates and values above U+10FFFF are refused. *)
Definition utf8_code_point (octets : list N) : option N :=
  match octets with
  | [b0; b1] =>
      let v := (N.land b0 31 * 64 + N.land b1 63)%N in
      if is_cont b1 && (128 <=? v)%N then Some v else None
  | [b0; b1; b2] =>
      let v := (N.land b0 15 * 4096 + N.land b1 63 * 64 + N.land b2 63)%N in
      if is_cont b1 && is_cont b2 && (2048 <=? v)%N
         && negb ((55296 <=? v) && (v <=? 57343))%N
      then Some v else None
  | [b0; b1; b2; b3] =>
      let v := (N.land b0 7 * 262144 + N.land b1 63 * 4096
                + N.land b2 63 * 64 + N.land b3 63)%N in
      if is_cont b1 && is_cont b2 && is_cont b3
         && (65536 <=? v)%N && (v <=? 1114111)%N
      then Some v else None
  | _ => None
  end.

Definition utf16_encode (v : N) : jsstring :=
  if (v <? 65536)%N then [v]
  else [(55296 + N.shiftr (v - 65536) 10)%N; (56320 + N.land (v - 65536) 1023)%N].

(** The escapes of a string: [%XX] becomes an octet, any other code unit
    stands for itself. *)
Inductive UriToken := Lit (c : N) | Octet (b : N).

Fixpoint uri_tokens (s : jsstring) : result (list UriToken) :=
  match s with
  | [] => Ok []
  | c :: rest =>
      if (c =? 37)%N then
        match rest with
        | h1 :: h2 :: rest' =>
            match hex_value h1, hex_value h2 with
            | Some a, Some b =>
                fmap (cons (Octet (16 * a + b)%N)) (uri_tokens rest')
            | _, _ => Throw uri_malformed
            end
        | _ => Throw uri_malformed
        end
      else fmap (cons (Lit c)) (uri_tokens rest)
  end.

(** [pending] holds the octets of a multi-byte sequence read so far and
    the number of continuation octets still due. *)
Fixpoint decode_tokens (ts : list UriToken) (pending : option (list N * nat))
  : result jsstring :=
  match ts, pending with
  | [], None => Ok []
  | [], Some _ => Throw uri_malformed
  | Lit c :: ts', None => fmap (cons c) (decode_tokens ts' None)
  | Lit _ :: _, Some _ => Throw uri_malformed
  | Octet b :: ts', None =>
      match leading_ones b with
      | 0%nat => fmap (cons b) (decode_tokens ts' None)
      | 2%nat => decode_tokens ts' (Some ([b], 1%nat))
      | 3%nat => decode_tokens ts' (Some ([b], 2%nat))
      | 4%nat => decode_tokens ts' (Some ([b], 3%nat))
      | _ => Throw uri_malformed
      end
  | Octet b :: ts', Some (acc, S O) =>
      match utf8_code_point (acc ++ [b]) with
      | Some v => fmap (app (utf16_encode v)) (decode_tokens ts' None)
      | None => Throw uri_malformed
      end
  | Octet b :: ts', Some (acc, S k) => decode_tokens ts' (Some (acc ++ [b], k))
  | Octet _ :: _, Some (_, O) => Throw uri_malformed
  end.

(** [decodeURIComponent]: every failure is a URIError. *)
Definition decodeURIComponent (s : jsstring) : result jsstring :=
  bind (uri_tokens s) (fun ts => decode_tokens ts None).

Definition utf8_octets (v : N) : list N :=
  if (v <? 128)%N then [v]
  else if (v <? 2048)%N then [(192 + N.shiftr v 6)%N; (128 + N.land v 63)%N]
  else if (v <? 65536)%N then
    [(224 + N.shiftr v 12)%N; (128 + N.land (N.shiftr v 6) 63)%N;
     (128 + N.land v 63)%N]
  else
    [(240 + N.shiftr v 18)%N; (128 + N.land (N.shiftr v 12) 63)%N;
     (128 + N.land (N.shiftr v 6) 63)%N; (128 + N.land v 63)%N].

Definition hex_digit (n : N) : N :=
  if (n <? 10)%N then (48 + n)%N else (55 + n)%N.

Definition percent (b : N) : jsstring :=
  [37%N; hex_digit (N.shiftr b 4); hex_digit (N.land b 15)].

(** A-Z a-z 0-9 - _ . ! ~ * ' ( ) *)
Definition uri_unreserved (c : N) : bool :=
  (((65 <=? c) && (c <=? 90)) || ((97 <=? c) && (c <=? 122))
   || ((48 <=? c) && (c <=? 57)) || (c =? 45) || (c =? 95) || (c =? 46)
   || (c =? 33) || (c =? 126) || (c =? 42) || (c =? 39) || (c =? 40)
   || (c =? 41))%N.

Definition is_lead (c : N) : bool := ((55296 <=? c) && (c <=? 56319))%N.
Definition is_trail (c : N) : bool := ((56320 <=? c) && (c <=? 57343))%N.

(** [encodeURIComponent]: a lone surrogate is a URIError. *)
Fixpoint encodeURIComponent (s : jsstring) : result jsstring :=
  match s with
  | [] => Ok []
  | c :: rest =>
      if uri_unreserved c then fmap (cons c) (encodeURIComponent rest)
      else if is_trail c then Throw uri_malformed
      else if is_lead c then
        match rest with
        | c2 :: rest' =>
            if is_trail c2 then
              let v := (65536 + (c - 55296) * 1024 + (c2 - 56320))%N in
              fmap (app (flat_map percent (utf8_octets v)))
                   (encodeURIComponent rest')
            else Throw uri_malformed
        | [] => Throw uri_malformed
        end
      else fmap (app (flat_map percent (utf8_octets c)))
                (encodeURIComponent rest)
  end.

(** [Buffer.from(s)]: the UTF-8 bytes of a string, a lone surrogate
    becoming U+FFFD. *)
Fixpoint utf8_bytes (s : jsstring) : list N :=
  match s with
  | [] => []
  | c :: rest =>
      if is_lead c then
        match rest with
        | c2 :: rest' =>
            if is_trail c2
            then utf8_octets (65536 + (c - 55296) * 1024 + (c2 - 56320))%N
                 ++ utf8_bytes rest'
            else utf8_octets 65533 ++ utf8_bytes rest
        | [] => utf8_octets 65533
        end
      else if is_trail c then utf8_octets 65533 ++ utf8_bytes rest
      else utf8_octets c ++ utf8_bytes rest
  end.

(** [buffer.toString('base64')]. *)
Definition b64_char (n : N) : N :=
  if (n <? 26)%N then (65 + n)%N
  else if (n <? 52)%N then (71 + n)%N
  else if (n <? 62)%N then (n - 4)%N
  else if (n =? 62)%N then 43%N else 47%N.

Fixpoint base64 (bytes : list N) : jsstring :=
  match bytes with
  | [] => []
  | [a] =>
      [b64_char (N.shiftr a 2); b64_char (N.land a 3 * 16); 61%N; 61%N]
  | [a; b] =>
      [b64_char (N.shiftr a 2); b64_char (N.land a 3 * 16 + N.shiftr b 4);
       b64_char (N.land b 15 * 4); 61%N]
  | a :: b :: c :: rest =>
      b64_char (N.shiftr a 2) :: b64_char (N.land a 3 * 16 + N.shiftr b 4)
      :: b64_char (N.land b 15 * 4 + N.shiftr c 6) :: b64_char (N.land c 63)
      :: base64 rest
  end.

(** *** The href scanner

    [anchored_href s] is a match of /href>([^<]+)</ at the start of [s]:
    the captured group, which is the longest run of code units other than
    '<' and must be non-empty and followed by '<'. *)
Fixpoint span_not_lt (s : jsstring) : jsstring * jsstring :=
  match s with
  | [] => ([], [])
  | c :: s' =>
      if (c =? 60)%N then ([], s)
      else let (a, b) := span_not_lt s' in (c :: a, b)
  end.

Definition anchored_href (s : jsstring) : option jsstring :=
  match strip_prefix (js "href>") s with
  | None => None
  | Some r =>
      match span_not_lt r with
      | ((_ :: _) as cap, 60%N :: _) => Some cap
      | _ => None
      end
  end.

Definition whole_match (cap : jsstring) : jsstring :=
  js "href>" ++ cap ++ [60%N].

(** [body.match(/href>([^<]+)</g)]: the matched substrings from left to
    right; after a match the search resumes behind it ([skip] counts the
    code units of the match still to pass).  The empty list stands for the
    [null] the method returns without a match. *)
Fixpoint match_href_g (s : jsstring) (skip : nat) : list jsstring :=
  match s with
  | [] => []
  | _ :: s' =>
      match skip with
      | S k => match_href_g s' k
      | O =>
          match anchored_href s with
          | Some cap =>
              whole_match cap :: match_href_g s' (List.length cap + 5)
          | None => match_href_g s' 0
          end
      end
  end.

(** [m.replace(/href>([^<]+)</, '$1')]: the first match is replaced by its
    group. *)
Fixpoint replace_href_group (m : jsstring) : jsstring :=
  match anchored_href m with
  | Some cap => cap ++ skipn (List.length cap + 6) m
  | None => match m with
            | [] => []
            | c :: m' => c :: replace_href_group m'
            end
  end.

(** *** Numbers *)

(** A finite Number is an IEEE-754 double: a significand of at most 53
    bits times a power of two, the least exponent being -1074. *)
Definition double (q : Q) : Prop :=
  exists m e : Z,
    (Z.abs m < 2 ^ 53)%Z /\ (-1074 <= e <= 971)%Z /\ (q == inject_Z m * 2 ^ e)%Q.

(** The exponent e of a positive rational: 2^e <= q < 2^(e+1). *)
Definition binade (q : Q) : Z :=
  let c := (Z.log2 (Qnum q) - Z.log2 (Zpos (Qden q)))%Z in
  if Qle_bool (2 ^ c) q then c else (c - 1)%Z.

(** The nearest integer, a tie going to the even one. *)
Definition nearest_even (s : Q) : Z :=
  let f := Qfloor s in
  match Qcompare (s - inject_Z f) (1 # 2) with
  | Lt => f
  | Eq => if Z.even f then f else (f + 1)%Z
  | Gt => (f + 1)%Z
  end.

(** The double nearest to a positive rational: the multiple of the unit
    in the last place of its binade (of 2^-1074 for the subnormal ones)
    that is nearest, a tie going to the even significand. *)
Definition round_positive (q : Q) : Q :=
  let u := Z.max (binade q - 52) (-1074) in
  (inject_Z (nearest_even (q / 2 ^ u)) * 2 ^ u)%Q.

Definition round_double (q : Q) : Q :=
  match Qcompare q 0 with
  | Eq => 0
  | Gt => round_positive q
  | Lt => - round_positive (- q)
  end.

(** [x * y] on Numbers: the exact product, rounded.  (The overflow to
    Infinity, beyond 2^1024, is not followed: the products taken here
    are below an array length.) *)
Definition Number_mul (x y : Q) : Q := round_double (x * y).

End JS.

(* ================================================================== *)
(** ** Handlers: state, effects and exceptions *)
(* ================================================================== *)

Module Handler.
Import JS.

(** How the call of a method ends: it returns, it throws, or it is still
    in a loop when the number of iterations the model follows is used up
    (the re-roll loop of the front end is the only one that can be). *)
Inductive completion (A : Type) : Type :=
| Normal (a : A)
| Thrown (e : exn)
| Looping.
Arguments Normal {A} a.
Arguments Thrown {A} e.
Arguments Looping {A}.

Section Monad.
Variables St Eff : Type.

(** A method of the module object: from the fields of [this] to the
    new fields, the effects performed so far and the way the call ends.
    What was done before a throw stays done. *)
Definition M (A : Type) : Type := St -> St * list Eff * completion A.

Definition ret {A} (a : A) : M A := fun s => (s, [], Normal a).

Definition bindM {A B} (m : M A) (k : A -> M B) : M B :=
  fun s =>
    match m s with
    | (s1, e1, Normal a) =>
        match k a s1 with
        | (s2, e2, r) => (s2, e1 ++ e2, r)
        end
    | (s1, e1, Thrown e) => (s1, e1, Thrown e)
    | (s1, e1, Looping) => (s1, e1, Looping)
    end.

Definition get : M St := fun s => (s, [], Normal s).
Definition put (s : St) : M unit := fun _ => (s, [], Normal tt).
Definition emit (e : Eff) : M unit := fun s => (s, [e], Normal tt).
Definition throw {A} (e : exn) : M A := fun s => (s, [], Thrown e).
Definition loops {A} : M A := fun s => (s, [], Looping).

(** The call of a function without effects. *)
Definition lift {A} (r : result A) : M A :=
  fun s =>
    match r with
    | Ok a => (s, [], Normal a)
    | Throw e => (s, [], Thrown e)
    end.

(** [try { m } catch (error) { h error }] *)
Definition try_catch {A} (m : M A) (h : exn -> M A) : M A :=
  fun s =>
    match m s with
    | (s1, e1, Normal a) => (s1, e1, Normal a)
    | (s1, e1, Thrown e) =>
        match h e s1 with
        | (s2, e2, r) => (s2, e1 ++ e2, r)
        end
    | (s1, e1, Looping) => (s1, e1, Looping)
    end.
End Monad.

Arguments ret {St Eff A} a.
Arguments bindM {St Eff A B} m k.
Arguments get {St Eff}.
Arguments put {St Eff} s.
Arguments emit {St Eff} e.
Arguments throw {St Eff A} e.
Arguments loops {St Eff A}.
Arguments lift {St Eff A} r.
Arguments try_catch {St Eff A} m h.

Declare Scope handler_scope.
Delimit Scope handler_scope with handler.
Notation "x <- m ;; k" := (bindM m (fun x => k))
  (at level 61, m at next level, right associativity) : handler_scope.
Notation "m ;; k" := (bindM m (fun _ => k))
  (at level 61, right associativity) : handler_scope.

End Handler.

(* ================================================================== *)
(** ** src/node_helper.js *)
(* ================================================================== *)

Module Helper.
Import JS Handler.
Local Open Scope handler_scope.

(** *** Data *)

Record RepositoryConfig := {
  path : jsstring;
  username : jsstring;
  password : jsstring;
  recursive : bool;
  exclude : option (list jsstring) (* [None]: the property is missing *)
}.

(** The fields of the module configuration the helper reads. *)
Record Config := {
  repositoryConfig : option RepositoryConfig;
  showWidth : N;
  showHeight : N;
  enableGeocoding : bool
}.

(** A value of an EXIF tag.  Numbers are exact rationals, NaN apart. *)
Inductive TagValue :=
| TUndefined
| TNumber (q : Q)
| TNaN
| TString (s : jsstring).

Definition is_empty (s : jsstring) : bool :=
  match s with [] => true | _ => false end.

Definition truthy (v : TagValue) : bool :=
  match v with
  | TUndefined => false
  | TNumber q => negb (Qeq_bool q 0)
  | TNaN => false
  | TString s => negb (is_empty s)
  end.

(** [result.tags] of exif-parser; Make and Model are text tags. *)
Record Tags := {
  DateTimeOriginal : TagValue;
  GPSLatitude : TagValue;
  GPSLongitude : TagValue;
  Make : option jsstring;
  Model : option jsstring
}.

(** A parsed JSON document. *)
#[warnings="-register-all"]
Inductive json :=
| JNull
| JBool (b : bool)
| JNumber (q : Q)
| JString (s : jsstring)
| JArray (l : list json)
| JObject (members : list (jsstring * json)).

Definition json_truthy (v : json) : bool :=
  match v with
  | JNull => false
  | JBool b => b
  | JNumber q => negb (Qeq_bool q 0)
  | JString s => negb (is_empty s)
  | JArray _ | JObject _ => true
  end.

(** What the helper uses and does not define. *)
Record Host := {
  (** [new URL(s).pathname] *)
  URL_pathname : jsstring -> result jsstring;
  (** [new RegExp(pattern, 'i')], as its [test] method *)
  RegExp_i : jsstring -> result (jsstring -> bool);
  (** [exif.create(buffer).parse()]: the tags of the result, [None] when
      [result && result.tags] is falsy *)
  exif_parse : list N -> result (option Tags);
  (** [new Date(v * 1000).toISOString()] *)
  Date_toISOString : TagValue -> result jsstring;
  (** [JSON.parse] *)
  JSON_parse : jsstring -> result json;
  (** the check [https.request] makes of its URL argument before it
      returns the request object *)
  https_url_check : jsstring -> result unit;
  (** a coordinate in a template literal *)
  Number_toString : TagValue -> jsstring
}.

Record ExifData := {
  date : option jsstring;
  location : option json;
  camera : option jsstring;
  coordinates : option (TagValue * TagValue) (* latitude, longitude *)
}.

(** The promise of the reverse geocoding started for a record. *)
Inductive Promise := NoPromise | Pending | Fulfilled | Rejected.

(** An [exifData] object lives on after [extractExifData] returns: the
    cache entry points to it and the geocoding callback writes to it.  The
    objects are the cells of a store, an object reference is an index. *)
Record Cell := { exif : ExifData; promise : Promise }.

Record ImageData := {
  filename : option jsstring; (* [None]: undefined *)
  encodedData : jsstring;
  exifData : nat;             (* reference into the store *)
  mimeType : jsstring;
  size : N
}.

(** An [imageData] as it is sent: the socket serialises the object, with
    the record as it is then. *)
Record ImagePayload := {
  p_filename : option jsstring;
  p_encodedData : jsstring;
  p_exifData : ExifData;
  p_mimeType : jsstring;
  p_size : N
}.

Inductive Notification :=
| ERROR (msg : jsstring) (details : option jsstring)
| FETCH_PROGRESS (msg : jsstring)
| IMAGE_LIST_RECEIVED (imageList : list jsstring)
| IMAGE_DATA_RECEIVED (imageData : ImagePayload).

Inductive Level := info | debug | warn | error.

Inductive Effect :=
| Log (l : Level) (msg : jsstring)
| sendSocketNotification (n : Notification)
| https_request (method url : jsstring) (headers : list (jsstring * jsstring))
                (timeout : N)
| https_get (url : jsstring) (timeout : N) (target : nat).

(** *** The Map of the cache

    A Map iterates in insertion order, and [set] on a key that is present
    keeps its place: an association list, oldest entry first, without
    duplicate keys. *)
Section Map.
Variable V : Type.
Definition Map := list (jsstring * V).

Fixpoint Map_get (k : jsstring) (m : Map) : option V :=
  match m with
  | [] => None
  | (k', v) :: m' => if str_eqb k' k then Some v else Map_get k m'
  end.

Definition Map_has (k : jsstring) (m : Map) : bool :=
  match Map_get k m with Some _ => true | None => false end.

Fixpoint Map_set (k : jsstring) (v : V) (m : Map) : Map :=
  match m with
  | [] => [(k, v)]
  | (k', v') :: m' =>
      if str_eqb k' k then (k', v) :: m' else (k', v') :: Map_set k v m'
  end.

Fixpoint Map_delete (k : jsstring) (m : Map) : Map :=
  match m with
  | [] => []
  | (k', v') :: m' =>
      if str_eqb k' k then m' else (k', v') :: Map_delete k m'
  end.

Definition Map_size (m : Map) : N := N.of_nat (List.length m).

(** [m.keys().next().value] *)
Definition Map_first_key (m : Map) : option jsstring :=
  match m with
  | [] => None
  | (k, _) :: _ => Some k
  end.

Definition Map_keys (m : Map) : list jsstring := List.map fst m.
End Map.

(** The fields of the helper object. *)
Record State := {
  config : option Config;
  imageCache : Map ImageData;
  isInitialized : bool;
  store : list Cell
}.

Definition H := M State Effect.

Definition name : jsstring := js "MMM-Nextcloud".
Definition tagged (msg : jsstring) : jsstring := js "[" ++ name ++ js "] " ++ msg.
Definition log (l : Level) (msg : jsstring) : H unit := emit (Log l (tagged msg)).
Definition send (n : Notification) : H unit := emit (sendSocketNotification n).

Definition new_Error (msg : jsstring) : exn := {| kind := Error_; message := msg |}.

(** Reading property [prop] of [null] or [undefined]. *)
Definition cannot_read (what prop : string) : exn :=
  {| kind := TypeError;
     message := js "Cannot read properties of " ++ js what
                ++ js " (reading '" ++ js prop ++ js "')" |}.

(** [this.config.f] *)
Definition config_field {A} (prop : string) (f : Config -> A) : H A :=
  st <- get ;;
  match config st with
  | Some c => ret (f c)
  | None => throw (cannot_read "null" prop)
  end.

(** [this.config.repositoryConfig.f] *)
Definition repository_field {A} (prop : string) (f : RepositoryConfig -> A) : H A :=
  rc <- config_field "repositoryConfig" repositoryConfig ;;
  match rc with
  | Some r => ret (f r)
  | None => throw (cannot_read "undefined" prop)
  end.

(** *** start, stop *)

Definition initial : State :=
  {| config := None; imageCache := []; isInitialized := false; store := [] |}.

Definition start : H unit :=
  log info (js "Node helper started") ;;
  st <- get ;;
  put {| config := None; imageCache := []; isInitialized := false;
         store := store st |}.

Definition stop : H unit :=
  log info (js "Node helper stopping...") ;;
  st <- get ;;
  put {| config := None; imageCache := []; isInitialized := false;
         store := store st |}.

(** *** handleConfigInit, validateConfiguration *)

Section WithHost.
Variable host : Host.

Definition validateConfiguration : H unit :=
  rc <- config_field "repositoryConfig" repositoryConfig ;;
  match rc with
  | None => throw (new_Error (js "No repository path configured"))
  | Some r =>
      if is_empty (path r)
      then throw (new_Error (js "No repository path configured"))
      else if is_empty (username r) || is_empty (password r)
      then throw (new_Error (js "No authentication credentials provided"))
      else
        match URL_pathname host (path r) with
        | Ok _ => ret tt
        | Throw _ =>
            throw (new_Error (js "Invalid repository URL: " ++ path r))
        end
  end.

Definition handleConfigInit (c : Config) : H unit :=
  try_catch
    (st <- get ;;
     put {| config := Some c; imageCache := imageCache st;
            isInitialized := true; store := store st |} ;;
     log info (js "Configuration initialized successfully") ;;
     validateConfiguration)
    (fun e =>
       log error (js "Failed to initialize configuration: " ++ message e) ;;
       send (ERROR (js "Configuration initialization failed")
                   (Some (message e)))).

(** *** createAuthHeader *)

Definition createAuthHeader : H jsstring :=
  u <- repository_field "username" username ;;
  p <- repository_field "password" password ;;
  ret (js "Basic " ++ base64 (utf8_bytes (u ++ js ":" ++ p))).

(** *** fetchImageList *)

Definition fetchImageList : H unit :=
  st <- get ;;
  if negb (isInitialized st) then
    log error (js "Helper not initialized, cannot fetch image list")
  else
    log info (js "Fetching image list from Nextcloud...") ;;
    send (FETCH_PROGRESS (js "Connecting to Nextcloud...")) ;;
    url <- repository_field "path" path ;;
    auth <- createAuthHeader ;;
    rec <- repository_field "recursive" recursive ;;
    lift (https_url_check host url) ;;
    emit (https_request (js "PROPFIND") url
            [(js "Authorization", auth);
             (js "Depth", if rec then js "infinity" else js "1");
             (js "Content-Type", js "application/xml")]
            30000).

(** The request's "error" and "timeout" listeners. *)
Definition fetchImageList_onError (e : exn) : H unit :=
  log error (js "Network error while fetching image list: " ++ message e) ;;
  send (ERROR (js "Failed to connect to Nextcloud") (Some (message e))).

Definition fetchImageList_onTimeout : H unit :=
  log error (js "Request timeout while fetching image list") ;;
  send (ERROR (js "Request timeout - Nextcloud server not responding") None).

(** *** parseImageListFromResponse *)

Definition imageExtensions : list jsstring :=
  [js ".jpg"; js ".jpeg"; js ".png"; js ".gif"; js ".bmp"; js ".webp";
   js ".tiff"; js ".tif"].

(** [exclude.map(pattern => new RegExp(pattern, 'i'))] *)
Fixpoint compile_patterns (ps : list jsstring) : result (list (jsstring -> bool)) :=
  match ps with
  | [] => Ok []
  | p :: ps' =>
      bind (RegExp_i host p) (fun r =>
      bind (compile_patterns ps') (fun rs => Ok (r :: rs)))
  end.

(** The body of [for (let match of hrefMatches)]: [Some filename] when
    the entry is pushed, [None] on each [continue]. *)
Definition href_entry (basePath : jsstring) (excludePatterns : list (jsstring -> bool))
    (m : jsstring) : H (option jsstring) :=
  let href := replace_href_group m in
  if str_eqb href basePath || str_eqb href (basePath ++ js "/") then ret None
  else
    filename <- lift (decodeURIComponent
                        (strip_leading_slashes (remove_first basePath href))) ;;
    if is_empty filename || endsWith_slash filename then ret None
    else
      let ext := toLowerCase (extname filename) in
      if negb (includes imageExtensions ext) then ret None
      else if existsb (fun pattern => pattern filename) excludePatterns then
        log debug (js "Excluding file due to exclude pattern: " ++ filename) ;;
        ret None
      else ret (Some filename).

Fixpoint href_loop (basePath : jsstring) (excludePatterns : list (jsstring -> bool))
    (hrefMatches : list jsstring) (imageList : list jsstring) : H (list jsstring) :=
  match hrefMatches with
  | [] => ret imageList
  | m :: rest =>
      entry <- href_entry basePath excludePatterns m ;;
      match entry with
      | Some filename =>
          href_loop basePath excludePatterns rest (imageList ++ [filename])
      | None => href_loop basePath excludePatterns rest imageList
      end
  end.

(** The statements of [parseImageListFromResponse] inside [try]. *)
Definition parse_hrefs (responseBody : jsstring) : H (list jsstring) :=
  match match_href_g responseBody 0 with
  | [] =>
      log warn (js "No href entries found in response") ;;
      ret []
  | hrefMatches =>
      p <- repository_field "path" path ;;
      basePath <- lift (URL_pathname host p) ;;
      ex <- repository_field "exclude" exclude ;;
      excludePatterns <- lift (compile_patterns
                                 (match ex with Some l => l | None => [] end)) ;;
      href_loop basePath excludePatterns hrefMatches []
  end.

Definition parseImageListFromResponse (responseBody : jsstring) : H (list jsstring) :=
  try_catch
    (parse_hrefs responseBody)
    (fun e =>
       log error (js "Error parsing image list: " ++ message e) ;;
       ret []).

(** *** handleImageListResponse *)

Record ListResponse := {
  statusCode : N;
  statusMessage : jsstring;
  body : jsstring (* the chunks, concatenated *)
}.

(** The "end" listener. *)
Definition handleImageListResponse (response : ListResponse) : H unit :=
  try_catch
    ((if (400 <=? statusCode response)%N
      then throw (new_Error (js "HTTP " ++ N_to_string (statusCode response)
                             ++ js ": " ++ statusMessage response))
      else ret tt) ;;
     imageList <- parseImageListFromResponse (body response) ;;
     match imageList with
     | [] =>
         log warn (js "No images found in the specified path") ;;
         send (ERROR (js "No images found in the specified Nextcloud path") None)
     | _ =>
         log info (js "Successfully found "
                   ++ N_to_string (N.of_nat (List.length imageList))
                   ++ js " images") ;;
         send (IMAGE_LIST_RECEIVED imageList)
     end)
    (fun e =>
       log error (js "Failed to parse image list: " ++ message e) ;;
       send (ERROR (js "Failed to parse Nextcloud response") (Some (message e)))).

(** The "error" listener. *)
Definition handleImageListResponse_onError (e : exn) : H unit :=
  log error (js "Response error: " ++ message e) ;;
  send (ERROR (js "Error receiving data from Nextcloud") (Some (message e))).

(** *** extractExifData, reverseGeocode *)

Definition null_exif : ExifData :=
  {| date := None; location := None; camera := None; coordinates := None |}.

Definition deref (st : State) (r : nat) : ExifData :=
  match nth_error (store st) r with
  | Some c => exif c
  | None => null_exif
  end.

Fixpoint update_nth {A} (n : nat) (f : A -> A) (l : list A) : list A :=
  match l, n with
  | [], _ => []
  | x :: l', O => f x :: l'
  | x :: l', S n' => x :: update_nth n' f l'
  end.

Definition with_store (st : State) (s : list Cell) : State :=
  {| config := config st; imageCache := imageCache st;
     isInitialized := isInitialized st; store := s |}.

Definition with_cache (st : State) (c : Map ImageData) : State :=
  {| config := config st; imageCache := c;
     isInitialized := isInitialized st; store := store st |}.

(** A new object. *)
Definition alloc (c : Cell) : H nat :=
  st <- get ;;
  put (with_store st (store st ++ [c])) ;;
  ret (List.length (store st)).

Definition update_cell (r : nat) (f : Cell -> Cell) : H unit :=
  st <- get ;;
  put (with_store st (update_nth r f (store st))).

Definition set_exif (f : ExifData -> ExifData) (c : Cell) : Cell :=
  {| exif := f (exif c); promise := promise c |}.

Definition set_promise (p : Promise) (c : Cell) : Cell :=
  {| exif := exif c; promise := p |}.

Definition set_date (v : jsstring) (e : ExifData) : ExifData :=
  {| date := Some v; location := location e; camera := camera e;
     coordinates := coordinates e |}.

Definition set_location (v : json) (e : ExifData) : ExifData :=
  {| date := date e; location := Some v; camera := camera e;
     coordinates := coordinates e |}.

Definition set_camera (v : jsstring) (e : ExifData) : ExifData :=
  {| date := date e; location := location e; camera := Some v;
     coordinates := coordinates e |}.

Definition set_coordinates (v : TagValue * TagValue) (e : ExifData) : ExifData :=
  {| date := date e; location := location e; camera := camera e;
     coordinates := Some v |}.

(** The call [this.reverseGeocode(lat, lon).then(..).catch(..)] for the
    record [r]: the request leaves, the promise is pending.  An async
    function does not throw to its caller. *)
Definition reverseGeocode (r : nat) (latitude longitude : TagValue) : H unit :=
  emit (https_get
          (js "https://nominatim.openstreetmap.org/reverse?format=json&lat="
           ++ Number_toString host latitude ++ js "&lon="
           ++ Number_toString host longitude
           ++ js "&zoom=10&addressdetails=1")
          5000 r) ;;
  update_cell r (set_promise Pending).

Definition truthy_string (o : option jsstring) : bool :=
  match o with
  | Some s => negb (is_empty s)
  | None => false
  end.

(** [v || ""] *)
Definition or_empty (o : option jsstring) : jsstring :=
  if truthy_string o then match o with Some s => s | None => [] end else [].

(** The statements of [extractExifData] inside [try], for the record
    [r]. *)
Definition extract_tags (r : nat) (buffer : list N) : H unit :=
  tags <- lift (exif_parse host buffer) ;;
  match tags with
  | None => ret tt
  | Some tags =>
      (if truthy (DateTimeOriginal tags) then
         iso <- lift (Date_toISOString host (DateTimeOriginal tags)) ;;
         update_cell r (set_exif (set_date iso))
       else ret tt) ;;
      (if truthy (GPSLatitude tags) && truthy (GPSLongitude tags) then
         update_cell r (set_exif (set_coordinates
                                    (GPSLatitude tags, GPSLongitude tags))) ;;
         geocoding <- config_field "enableGeocoding" enableGeocoding ;;
         if geocoding
         then reverseGeocode r (GPSLatitude tags) (GPSLongitude tags)
         else log debug (js "Geocoding disabled - GPS coordinates extracted but no location lookup performed")
       else ret tt) ;;
      (if truthy_string (Make tags) || truthy_string (Model tags) then
         update_cell r (set_exif (set_camera
           (trim (or_empty (Make tags) ++ js " " ++ or_empty (Model tags)))))
       else ret tt)
  end.

Definition extractExifData (buffer : list N) : H nat :=
  r <- alloc {| exif := null_exif; promise := NoPromise |} ;;
  try_catch
    (extract_tags r buffer)
    (fun e =>
       log debug (js "EXIF extraction failed (this is normal for some images): "
                  ++ message e)) ;;
  ret r.

(** [v.prop] for a parsed JSON value that is not null: the member of an
    object (the last one when the name is repeated), undefined
    otherwise. *)
Fixpoint member (prop : jsstring) (ms : list (jsstring * json)) : option json :=
  match ms with
  | [] => None
  | (k, v) :: ms' =>
      match member prop ms' with
      | Some v' => Some v'
      | None => if str_eqb k prop then Some v else None
      end
  end.

Definition property (prop : jsstring) (v : json) : option json :=
  match v with
  | JObject ms => member prop ms
  | _ => None
  end.

Definition address_fields : list jsstring :=
  [js "city"; js "town"; js "village"; js "hamlet"; js "suburb";
   js "neighbourhood"; js "county"; js "state"; js "country"].

(** [a.city || a.town || ... || null] *)
Fixpoint first_truthy (address : json) (fields : list jsstring) : option json :=
  match fields with
  | [] => None
  | f :: fields' =>
      match property f address with
      | Some v => if json_truthy v then Some v else first_truthy address fields'
      | None => first_truthy address fields'
      end
  end.

(** The "end" listener of the geocoding response: [Ok] is [resolve],
    [Throw] is [reject]. *)
Definition reverseGeocode_onEnd (body : jsstring) : result json :=
  match
    bind (JSON_parse host body) (fun data =>
    match data with
    | JNull => Throw (cannot_read "null" "address")
    | _ =>
        let address :=
          match property (js "address") data with
          | Some a => if json_truthy a then a else JObject []
          | None => JObject []
          end in
        Ok (first_truthy address address_fields)
    end)
  with
  | Ok (Some location) => Ok location
  | Ok None => Throw (new_Error (js "No location found"))
  | Throw e =>
      Throw (new_Error (js "Failed to parse geocoding response: " ++ message e))
  end.

(** A promise settles once; then the [then] or the [catch] callback of
    [extractExifData] runs. *)
Definition settle (r : nat) (outcome : result json) : H unit :=
  st <- get ;;
  match nth_error (store st) r with
  | Some c =>
      match promise c with
      | Pending =>
          match outcome with
          | Ok location =>
              update_cell r (set_promise Fulfilled) ;;
              update_cell r (set_exif (set_location location))
          | Throw e =>
              update_cell r (set_promise Rejected) ;;
              log debug (js "Reverse geocoding failed: " ++ message e)
          end
      | _ => ret tt
      end
  | None => ret tt
  end.

Definition reverseGeocode_response (r : nat) (body : jsstring) : H unit :=
  settle r (reverseGeocode_onEnd body).

Definition reverseGeocode_error (r : nat) (e : exn) : H unit :=
  settle r (Throw e).

Definition reverseGeocode_timeout (r : nat) : H unit :=
  settle r (Throw (new_Error (js "Geocoding request timeout"))).

(** *** fetchImageData *)

Record ImageRequest := { r_filename : option jsstring; r_index : Z }.

(** A value in a template literal. *)
Definition template (f : option jsstring) : jsstring :=
  match f with
  | Some s => s
  | None => js "undefined"
  end.

Definition payload (st : State) (d : ImageData) : ImagePayload :=
  {| p_filename := filename d; p_encodedData := encodedData d;
     p_exifData := deref st (exifData d); p_mimeType := mimeType d;
     p_size := size d |}.

Definition cache_key (filename : option jsstring) (w h : N) : jsstring :=
  template filename ++ js "_" ++ N_to_string w ++ js "_" ++ N_to_string h.

Definition fetchImageData (imageRequest : ImageRequest) : H unit :=
  let filename := r_filename imageRequest in
  log debug (js "Fetching image data for: " ++ template filename) ;;
  w <- config_field "showWidth" showWidth ;;
  h <- config_field "showHeight" showHeight ;;
  let cacheKey := cache_key filename w h in
  st <- get ;;
  match Map_get cacheKey (imageCache st) with
  | Some d =>
      log debug (js "Returning cached image data for: " ++ template filename) ;;
      send (IMAGE_DATA_RECEIVED (payload st d))
  | None =>
      p <- repository_field "path" path ;;
      enc <- lift (encodeURIComponent (template filename)) ;;
      let imageUrl := p ++ js "/" ++ enc in
      auth <- createAuthHeader ;;
      lift (https_url_check host imageUrl) ;;
      emit (https_request (js "GET") imageUrl [(js "Authorization", auth)] 60000)
  end.

Definition fetchImageData_onError (filename : option jsstring) (e : exn) : H unit :=
  log error (js "Error fetching image " ++ template filename ++ js ": "
             ++ message e) ;;
  send (ERROR (js "Failed to fetch image: " ++ template filename)
              (Some (message e))).

Definition fetchImageData_onTimeout (filename : option jsstring) : H unit :=
  log error (js "Timeout fetching image: " ++ template filename) ;;
  send (ERROR (js "Timeout downloading image: " ++ template filename) None).

(** *** handleImageDataResponse *)

Record ImageResponse := {
  i_statusCode : N;
  content_type : option jsstring; (* headers["content-type"] *)
  i_body : list N                 (* Buffer.concat(chunks) *)
}.

Definition evict_if_full : H unit :=
  st <- get ;;
  if (50 <? Map_size (imageCache st))%N then
    match Map_first_key (imageCache st) with
    | Some firstKey => put (with_cache st (Map_delete firstKey (imageCache st)))
    | None => ret tt
    end
  else ret tt.

(** The status check made when the response arrives, then the "end"
    listener. *)
Definition handleImageDataResponse (response : ImageResponse)
    (filename : option jsstring) (cacheKey : jsstring) : H unit :=
  if (400 <=? i_statusCode response)%N then
    log error (js "HTTP error " ++ N_to_string (i_statusCode response)
               ++ js " for image: " ++ template filename) ;;
    send (ERROR (js "Failed to download image: " ++ template filename
                 ++ js " (HTTP " ++ N_to_string (i_statusCode response)
                 ++ js ")") None)
  else
    try_catch
      (let buffer := i_body response in
       let mimeType :=
         if truthy_string (content_type response)
         then or_empty (content_type response) else js "image/jpeg" in
       let encodedData := js "data:" ++ mimeType ++ js ";base64," ++ base64 buffer in
       exifData <- extractExifData buffer ;;
       let imageData :=
         {| filename := filename; encodedData := encodedData;
            exifData := exifData; mimeType := mimeType;
            size := N.of_nat (List.length buffer) |} in
       evict_if_full ;;
       st <- get ;;
       put (with_cache st (Map_set cacheKey imageData (imageCache st))) ;;
       log debug (js "Successfully processed image: " ++ template filename
                  ++ js " ("
                  ++ N_to_string ((N.of_nat (List.length buffer) + 512) / 1024)
                  ++ js "KB)") ;;
       st' <- get ;;
       send (IMAGE_DATA_RECEIVED (payload st' imageData)))
      (fun e =>
         log error (js "Error processing image " ++ template filename
                    ++ js ": " ++ message e) ;;
         send (ERROR (js "Failed to process image: " ++ template filename)
                     (Some (message e)))).

Definition handleImageDataResponse_onError (filename : option jsstring) (e : exn)
  : H unit :=
  log error (js "Error downloading image " ++ template filename ++ js ": "
             ++ message e) ;;
  send (ERROR (js "Download error for image: " ++ template filename)
              (Some (message e))).

(** *** socketNotificationReceived *)

Inductive Incoming :=
| INIT_CONFIG (c : Config)
| FETCH_IMAGE_LIST
| FETCH_IMAGE (imageRequest : ImageRequest)
| Other (notification : jsstring).

Definition notification_name (i : Incoming) : jsstring :=
  match i with
  | INIT_CONFIG _ => js "INIT_CONFIG"
  | FETCH_IMAGE_LIST => js "FETCH_IMAGE_LIST"
  | FETCH_IMAGE _ => js "FETCH_IMAGE"
  | Other n => n
  end.

Definition socketNotificationReceived (i : Incoming) : H unit :=
  log debug (js "Received notification: " ++ notification_name i) ;;
  match i with
  | INIT_CONFIG c => handleConfigInit c
  | FETCH_IMAGE_LIST => fetchImageList
  | FETCH_IMAGE req => fetchImageData req
  | Other n => log warn (js "Unknown notification: " ++ n)
  end.

(** *** The events the helper reacts to *)

Inductive Event :=
| Started
| Stopped
| Received (i : Incoming)
| ListEnded (response : ListResponse)
| ListResponseError (e : exn)
| ListRequestError (e : exn)
| ListRequestTimeout
| ImageResponded (response : ImageResponse) (filename : option jsstring)
                 (cacheKey : jsstring)
| ImageResponseError (filename : option jsstring) (e : exn)
| ImageRequestError (filename : option jsstring) (e : exn)
| ImageRequestTimeout (filename : option jsstring)
| GeocodingEnded (r : nat) (body : jsstring)
| GeocodingError (r : nat) (e : exn)
| GeocodingTimeout (r : nat).

Definition dispatch (ev : Event) : H unit :=
  match ev with
  | Started => start
  | Stopped => stop
  | Received i => socketNotificationReceived i
  | ListEnded response => handleImageListResponse response
  | ListResponseError e => handleImageListResponse_onError e
  | ListRequestError e => fetchImageList_onError e
  | ListRequestTimeout => fetchImageList_onTimeout
  | ImageResponded response filename cacheKey =>
      handleImageDataResponse response filename cacheKey
  | ImageResponseError filename e => handleImageDataResponse_onError filename e
  | ImageRequestError filename e => fetchImageData_onError filename e
  | ImageRequestTimeout filename => fetchImageData_onTimeout filename
  | GeocodingEnded r body => reverseGeocode_response r body
  | GeocodingError r e => reverseGeocode_error r e
  | GeocodingTimeout r => reverseGeocode_timeout r
  end.

(** The state after a sequence of events; what a handler did before it
    threw stays done. *)
Fixpoint after (evs : list Event) (st : State) : State :=
  match evs with
  | [] => st
  | ev :: evs' => after evs' (fst (fst (dispatch ev st)))
  end.

End WithHost.
End Helper.

(* ================================================================== *)
(** ** src/MMM-Nextcloud.js *)
(* ================================================================== *)

Module Front.
Import JS Handler.
Local Open Scope handler_scope.

(** The configuration fields the module's logic reads; the styling
    options only reach the DOM. *)
Record Config := {
  animationSpeed : N;
  updateInterval : N;
  listRefreshInterval : N;
  repositoryConfig : Helper.RepositoryConfig;
  showWidth : N;
  showHeight : N;
  random : bool;
  blurAmount : N;
  startHidden : bool;
  startPaused : bool;
  showStatusIcon : bool;
  statusIconPosition : jsstring;
  enableGeocoding : bool
}.

(** The payload of INIT_CONFIG as the helper reads it. *)
Definition helper_config (c : Config) : Helper.Config :=
  {| Helper.repositoryConfig := Some (repositoryConfig c);
     Helper.showWidth := showWidth c;
     Helper.showHeight := showHeight c;
     Helper.enableGeocoding := enableGeocoding c |}.

Inductive Direction := next | previous.

Inductive Level := info | debug | warn | error.

(** What a timer runs when it fires. *)
Inductive Callback :=
| cb_loadNextImage
| cb_finishTransition (imageData : Helper.ImagePayload).

(** What the module does to the page; the elements themselves are not
    modelled. *)
Inductive DomOp :=
| updateStatusIcon (navigationDirection : option Direction)
| showErrorMessage (msg : jsstring)
| hide
| preload (imageData : Helper.ImagePayload)
| fadeOut (imageData : Helper.ImagePayload)
| showImage (imageData : Helper.ImagePayload).

Inductive Effect :=
| Log (l : Level) (msg : jsstring)
| sendSocketNotification (n : Helper.Incoming)
| setTimeout (handle : nat) (cb : Callback) (ms : Q)
| clearTimeout (handle : nat)
| setInterval (handle : nat) (ms : N)
| clearInterval (handle : nat)
| Dom (op : DomOp).

Record State := {
  updateTimer : option nat;
  refreshTimer : option nat;
  imageList : list jsstring;
  currentImageIndex : Z;
  running : bool;
  currentImageUrl : option jsstring;
  animationInProgress : bool;
  config : Config;
  timers : nat;      (* timer handles handed out so far *)
  randomCalls : nat  (* calls of Math.random so far *)
}.

Definition F := M State Effect.

Definition name : jsstring := js "MMM-Nextcloud".
Definition tagged (msg : jsstring) : jsstring := js "[" ++ name ++ js "] " ++ msg.
Definition log (l : Level) (msg : jsstring) : F unit := emit (Log l (tagged msg)).
Definition send (n : Helper.Incoming) : F unit := emit (sendSocketNotification n).

Definition set_updateTimer (v : option nat) (st : State) : State :=
  {| updateTimer := v; refreshTimer := refreshTimer st; imageList := imageList st;
     currentImageIndex := currentImageIndex st; running := running st;
     currentImageUrl := currentImageUrl st;
     animationInProgress := animationInProgress st; config := config st;
     timers := timers st; randomCalls := randomCalls st |}.

Definition set_refreshTimer (v : option nat) (st : State) : State :=
  {| updateTimer := updateTimer st; refreshTimer := v; imageList := imageList st;
     currentImageIndex := currentImageIndex st; running := running st;
     currentImageUrl := currentImageUrl st;
     animationInProgress := animationInProgress st; config := config st;
     timers := timers st; randomCalls := randomCalls st |}.

Definition set_imageList (v : list jsstring) (st : State) : State :=
  {| updateTimer := updateTimer st; refreshTimer := refreshTimer st; imageList := v;
     currentImageIndex := currentImageIndex st; running := running st;
     currentImageUrl := currentImageUrl st;
     animationInProgress := animationInProgress st; config := config st;
     timers := timers st; randomCalls := randomCalls st |}.

Definition set_currentImageIndex (v : Z) (st : State) : State :=
  {| updateTimer := updateTimer st; refreshTimer := refreshTimer st;
     imageList := imageList st; currentImageIndex := v; running := running st;
     currentImageUrl := currentImageUrl st;
     animationInProgress := animationInProgress st; config := config st;
     timers := timers st; randomCalls := randomCalls st |}.

Definition set_running (v : bool) (st : State) : State :=
  {| updateTimer := updateTimer st; refreshTimer := refreshTimer st;
     imageList := imageList st; currentImageIndex := currentImageIndex st;
     running := v; currentImageUrl := currentImageUrl st;
     animationInProgress := animationInProgress st; config := config st;
     timers := timers st; randomCalls := randomCalls st |}.

Definition set_currentImageUrl (v : option jsstring) (st : State) : State :=
  {| updateTimer := updateTimer st; refreshTimer := refreshTimer st;
     imageList := imageList st; currentImageIndex := currentImageIndex st;
     running := running st; currentImageUrl := v;
     animationInProgress := animationInProgress st; config := config st;
     timers := timers st; randomCalls := randomCalls st |}.

Definition set_animationInProgress (v : bool) (st : State) : State :=
  {| updateTimer := updateTimer st; refreshTimer := refreshTimer st;
     imageList := imageList st; currentImageIndex := currentImageIndex st;
     running := running st; currentImageUrl := currentImageUrl st;
     animationInProgress := v; config := config st;
     timers := timers st; randomCalls := randomCalls st |}.

Definition set_config (v : Config) (st : State) : State :=
  {| updateTimer := updateTimer st; refreshTimer := refreshTimer st;
     imageList := imageList st; currentImageIndex := currentImageIndex st;
     running := running st; currentImageUrl := currentImageUrl st;
     animationInProgress := animationInProgress st; config := v;
     timers := timers st; randomCalls := randomCalls st |}.

Definition set_timers (v : nat) (st : State) : State :=
  {| updateTimer := updateTimer st; refreshTimer := refreshTimer st;
     imageList := imageList st; currentImageIndex := currentImageIndex st;
     running := running st; currentImageUrl := currentImageUrl st;
     animationInProgress := animationInProgress st; config := config st;
     timers := v; randomCalls := randomCalls st |}.

Definition set_randomCalls (v : nat) (st : State) : State :=
  {| updateTimer := updateTimer st; refreshTimer := refreshTimer st;
     imageList := imageList st; currentImageIndex := currentImageIndex st;
     running := running st; currentImageUrl := currentImageUrl st;
     animationInProgress := animationInProgress st; config := config st;
     timers := timers st; randomCalls := v |}.

Definition modify (f : State -> State) : F unit :=
  st <- get ;; put (f st).

(** A fresh timer handle (handles are positive, hence truthy). *)
Definition new_handle : F nat :=
  st <- get ;;
  put (set_timers (S (timers st)) st) ;;
  ret (S (timers st)).

(** [l[i]]: undefined outside the array. *)
Definition element (l : list jsstring) (i : Z) : option jsstring :=
  if (i <? 0)%Z then None else nth_error l (Z.to_nat i).

Definition is_nil {A} (l : list A) : bool :=
  match l with [] => true | _ => false end.

Section WithHost.
(** [Math.random()]: the value of the n-th call, a Number at least 0 and
    below 1. *)
Variable Math_random : nat -> Q.
(** The number of iterations the model follows the re-roll loop. *)
Variable fuel : nat.

(** [Math.floor(Math.random() * length)]: the product is the one of the
    Numbers, rounded; the length of an array, below 2^32, is a Number
    as it stands. *)
Definition draw (n : nat) (length : Z) : Z :=
  Qfloor (Number_mul (Math_random n) (inject_Z length)).

(** *** requestImageList, setupRefreshTimer *)

Definition requestImageList : F unit :=
  log info (js "Requesting image list from Nextcloud...") ;;
  send Helper.FETCH_IMAGE_LIST.

Definition setupRefreshTimer : F unit :=
  st <- get ;;
  match refreshTimer st with
  | Some h => emit (clearInterval h)
  | None => ret tt
  end ;;
  h <- new_handle ;;
  emit (setInterval h (listRefreshInterval (config st) * 1000)) ;;
  modify (set_refreshTimer (Some h)).

(** The callback of the refresh interval. *)
Definition refreshTimer_fired : F unit :=
  log info (js "Refreshing image list...") ;;
  requestImageList.

(** *** scheduleNextUpdate *)

Definition scheduleNextUpdate : F unit :=
  st <- get ;;
  if negb (running st) then ret tt
  else
    match updateTimer st with
    | Some h => emit (clearTimeout h)
    | None => ret tt
    end ;;
    h <- new_handle ;;
    emit (setTimeout h cb_loadNextImage
            (inject_Z (Z.of_N (updateInterval (config st) * 1000)))) ;;
    modify (set_updateTimer (Some h)).

(** *** getNextImageFromList *)

(** [do { targetIndex = floor(random() * length) }
     while (length > 1 && targetIndex === this.currentImageIndex)] *)
Fixpoint reroll (n : nat) (length : Z) : F Z :=
  match n with
  | O => loops
  | S n' =>
      st <- get ;;
      let targetIndex := draw (randomCalls st) length in
      put (set_randomCalls (S (randomCalls st)) st) ;;
      if (1 <? length)%Z && (targetIndex =? currentImageIndex st)%Z
      then reroll n' length
      else ret targetIndex
  end.

Definition sequential (direction : Direction) (current length : Z) : Z :=
  match direction with
  | previous =>
      let targetIndex := (current - 1)%Z in
      if (targetIndex <? 0)%Z then (length - 1)%Z else targetIndex
  | next =>
      let targetIndex := (current + 1)%Z in
      if (length <=? targetIndex)%Z then 0%Z else targetIndex
  end.

Definition getNextImageFromList (direction : Direction)
  : F (option Helper.ImageRequest) :=
  st <- get ;;
  if is_nil (imageList st) then ret None
  else
    let length := Z.of_nat (List.length (imageList st)) in
    targetIndex <-
      (if random (config st) then reroll fuel length
       else ret (sequential direction (currentImageIndex st) length)) ;;
    modify (set_currentImageIndex targetIndex) ;;
    ret (Some {| Helper.r_filename := element (imageList st) targetIndex;
                 Helper.r_index := targetIndex |}).

(** *** loadNextImage *)

Definition loadNextImage (direction : Direction) : F unit :=
  st <- get ;;
  if animationInProgress st then
    log debug (js "Animation in progress, skipping load request")
  else if is_nil (imageList st) then
    log warn (js "No images available to display") ;;
    scheduleNextUpdate
  else
    imageData <- getNextImageFromList direction ;;
    match imageData with
    | None =>
        log error (js "Failed to get image from list") ;;
        scheduleNextUpdate
    | Some d =>
        log debug (js "Loading image: " ++ Helper.template (Helper.r_filename d)) ;;
        send (Helper.FETCH_IMAGE d)
    end.

(** The callback of the update timer. *)
Definition updateTimer_fired : F unit := loadNextImage next.

(** *** pauseImageLoading, resumeImageLoading *)

Definition statusIcon (navigationDirection : option Direction) : F unit :=
  st <- get ;;
  if showStatusIcon (config st)
  then emit (Dom (updateStatusIcon navigationDirection))
  else ret tt.

Definition pauseImageLoading : F unit :=
  st <- get ;;
  match updateTimer st with
  | Some h => emit (clearTimeout h) ;; modify (set_updateTimer None)
  | None => ret tt
  end ;;
  modify (set_running false) ;;
  statusIcon None ;;
  log info (js "Image loading paused").

Definition resumeImageLoading (respectPausedState : bool) : F unit :=
  st <- get ;;
  if negb (running st) || negb respectPausedState then
    if respectPausedState && startPaused (config st) then
      modify (set_running false)
    else
      modify (set_running true) ;;
      loadNextImage next ;;
      statusIcon None ;;
      log info (js "Image loading resumed")
  else ret tt.

(** *** displayImage, performImageTransition *)

Definition displayImage (imageData : Helper.ImagePayload) : F unit :=
  st <- get ;;
  if animationInProgress st then ret tt
  else
    modify (set_animationInProgress true) ;;
    emit (Dom (preload imageData)).

(** [mainImage] tells whether the page has the main image element. *)
Definition performImageTransition (imageData : Helper.ImagePayload)
    (mainImage : bool) : F unit :=
  if negb mainImage then
    log error (js "Main image element not found") ;;
    modify (set_animationInProgress false)
  else
    emit (Dom (fadeOut imageData)) ;;
    st <- get ;;
    h <- new_handle ;;
    emit (setTimeout h (cb_finishTransition imageData)
            (inject_Z (Z.of_N (animationSpeed (config st))) / 2)).

(** The callback of the timeout set by [performImageTransition]. *)
Definition finishTransition (imageData : Helper.ImagePayload) : F unit :=
  emit (Dom (showImage imageData)) ;;
  modify (set_currentImageUrl (Some (Helper.p_encodedData imageData))) ;;
  modify (set_animationInProgress false) ;;
  scheduleNextUpdate.

(** [tempImg.onload], [tempImg.onerror]. *)
Definition tempImg_onload (imageData : Helper.ImagePayload) (mainImage : bool)
  : F unit :=
  performImageTransition imageData mainImage.

Definition tempImg_onerror : F unit :=
  log error (js "Failed to load image: [object Event]") ;;
  modify (set_animationInProgress false) ;;
  scheduleNextUpdate.

(** *** notificationReceived *)

Inductive ModuleNotification :=
| MODULE_DOM_CREATED
| NEXTCLOUD_NEXT
| NEXTCLOUD_PREVIOUS
| NEXTCLOUD_TOGGLE
| NEXTCLOUD_PAUSE
| NEXTCLOUD_RESUME
| NEXTCLOUD_REFRESH_LIST
| other_notification.

Definition clear_updateTimer : F unit :=
  st <- get ;;
  match updateTimer st with
  | Some h => emit (clearTimeout h)
  | None => ret tt
  end.

Definition notificationReceived (n : ModuleNotification) : F unit :=
  st <- get ;;
  match n with
  | MODULE_DOM_CREATED =>
      if startHidden (config st) then emit (Dom hide)
      else if negb (is_nil (imageList st)) then resumeImageLoading true
      else ret tt
  | NEXTCLOUD_NEXT =>
      clear_updateTimer ;;
      loadNextImage next ;;
      statusIcon (Some next)
  | NEXTCLOUD_PREVIOUS =>
      if negb (random (config st)) && negb (is_nil (imageList st)) then
        clear_updateTimer ;;
        loadNextImage previous ;;
        statusIcon (Some previous)
      else ret tt
  | NEXTCLOUD_TOGGLE =>
      if running st then pauseImageLoading else resumeImageLoading false
  | NEXTCLOUD_PAUSE => pauseImageLoading
  | NEXTCLOUD_RESUME => resumeImageLoading false
  | NEXTCLOUD_REFRESH_LIST => requestImageList
  | other_notification => ret tt
  end.

(** *** socketNotificationReceived *)

Definition socketNotificationReceived (n : Helper.Notification) : F unit :=
  match n with
  | Helper.IMAGE_LIST_RECEIVED payload =>
      log info (js "Received image list with "
                ++ N_to_string (N.of_nat (List.length payload)) ++ js " images") ;;
      modify (set_imageList payload) ;;
      modify (set_currentImageIndex (-1)) ;;
      st <- get ;;
      (if negb (startHidden (config st)) && negb (is_nil (imageList st))
       then resumeImageLoading true else ret tt) ;;
      setupRefreshTimer
  | Helper.IMAGE_DATA_RECEIVED payload =>
      log debug (js "Received image data") ;;
      displayImage payload
  | Helper.ERROR msg _ =>
      log error (js "Error from node helper: " ++ msg) ;;
      emit (Dom (showErrorMessage msg))
  | Helper.FETCH_PROGRESS msg =>
      log debug (js "Fetch progress: " ++ msg)
  end.

(** *** validateConfig, start, suspend, resume *)

Definition validPositions : list jsstring :=
  [js "top_right"; js "top_left"; js "bottom_right"; js "bottom_left"].

Definition with_statusIconPosition (v : jsstring) (c : Config) : Config :=
  {| animationSpeed := animationSpeed c; updateInterval := updateInterval c;
     listRefreshInterval := listRefreshInterval c;
     repositoryConfig := repositoryConfig c; showWidth := showWidth c;
     showHeight := showHeight c; random := random c; blurAmount := blurAmount c;
     startHidden := startHidden c; startPaused := startPaused c;
     showStatusIcon := showStatusIcon c; statusIconPosition := v;
     enableGeocoding := enableGeocoding c |}.

Definition with_updateInterval (v : N) (c : Config) : Config :=
  {| animationSpeed := animationSpeed c; updateInterval := v;
     listRefreshInterval := listRefreshInterval c;
     repositoryConfig := repositoryConfig c; showWidth := showWidth c;
     showHeight := showHeight c; random := random c; blurAmount := blurAmount c;
     startHidden := startHidden c; startPaused := startPaused c;
     showStatusIcon := showStatusIcon c;
     statusIconPosition := statusIconPosition c;
     enableGeocoding := enableGeocoding c |}.

Definition with_listRefreshInterval (v : N) (c : Config) : Config :=
  {| animationSpeed := animationSpeed c; updateInterval := updateInterval c;
     listRefreshInterval := v;
     repositoryConfig := repositoryConfig c; showWidth := showWidth c;
     showHeight := showHeight c; random := random c; blurAmount := blurAmount c;
     startHidden := startHidden c; startPaused := startPaused c;
     showStatusIcon := showStatusIcon c;
     statusIconPosition := statusIconPosition c;
     enableGeocoding := enableGeocoding c |}.

Definition with_blurAmount (v : N) (c : Config) : Config :=
  {| animationSpeed := animationSpeed c; updateInterval := updateInterval c;
     listRefreshInterval := listRefreshInterval c;
     repositoryConfig := repositoryConfig c; showWidth := showWidth c;
     showHeight := showHeight c; random := random c; blurAmount := v;
     startHidden := startHidden c; startPaused := startPaused c;
     showStatusIcon := showStatusIcon c;
     statusIconPosition := statusIconPosition c;
     enableGeocoding := enableGeocoding c |}.

Definition modify_config (f : Config -> Config) : F unit :=
  modify (fun st => set_config (f (config st)) st).

Definition validateConfig : F unit :=
  st <- get ;;
  let rc := repositoryConfig (config st) in
  if Helper.is_empty (Helper.path rc) then
    log error (js "No repository path configured. Please set repositoryConfig.path")
  else if Helper.is_empty (Helper.username rc) || Helper.is_empty (Helper.password rc) then
    log error (js "No credentials configured. Please set repositoryConfig.username and repositoryConfig.password")
  else
    (if negb (includes validPositions (statusIconPosition (config st))) then
       log warn (js "Invalid statusIconPosition. Using default 'top_right'") ;;
       modify_config (with_statusIconPosition (js "top_right"))
     else ret tt) ;;
    (if (updateInterval (config st) <? 10)%N then
       log warn (js "updateInterval too low. Setting to minimum of 10 seconds") ;;
       modify_config (with_updateInterval 10)
     else ret tt) ;;
    (if (listRefreshInterval (config st) <? 300)%N then
       log warn (js "listRefreshInterval too low. Setting to minimum of 300 seconds") ;;
       modify_config (with_listRefreshInterval 300)
     else ret tt).

(** The module object as [start] leaves its fields before it validates
    the configuration [c] it was registered with. *)
Definition fresh (c : Config) : State :=
  {| updateTimer := None; refreshTimer := None; imageList := [];
     currentImageIndex := -1; running := false; currentImageUrl := None;
     animationInProgress := false; config := c; timers := 0; randomCalls := 0 |}.

Definition start : F unit :=
  log info (js "Starting module...") ;;
  st0 <- get ;;
  put {| updateTimer := None; refreshTimer := None; imageList := [];
         currentImageIndex := -1; running := false; currentImageUrl := None;
         animationInProgress := false; config := config st0;
         timers := timers st0; randomCalls := randomCalls st0 |} ;;
  validateConfig ;;
  st <- get ;;
  (if (10 <? blurAmount (config st))%N
   then modify_config (with_blurAmount 10) else ret tt) ;;
  st <- get ;;
  send (Helper.INIT_CONFIG (helper_config (config st))) ;;
  requestImageList.

Definition suspend : F unit :=
  log info (js "Module suspended") ;;
  pauseImageLoading ;;
  st <- get ;;
  match refreshTimer st with
  | Some h => emit (clearInterval h) ;; modify (set_refreshTimer None)
  | None => ret tt
  end.

Definition resume : F unit :=
  log info (js "Module resumed") ;;
  setupRefreshTimer ;;
  resumeImageLoading true.

End WithHost.
End Front.

(* ================================================================== *)
(** ** A host and a configuration for the examples *)
(* ================================================================== *)

Module Sample.
Import JS Handler.

Definition repo_url : jsstring :=
  js "https://cloud.example.org/remote.php/dav/files/anna/Photos".

Definition base_path : jsstring := js "/remote.php/dav/files/anna/Photos".

Definition is_alnum (c : N) : bool :=
  (((65 <=? c) && (c <=? 90)) || ((97 <=? c) && (c <=? 122))
   || ((48 <=? c) && (c <=? 57)))%N.

(** Does [s] start with [p], up to the case of ASCII letters? *)
Fixpoint prefix_i (p s : jsstring) : bool :=
  match p, s with
  | [], _ => true
  | x :: p', y :: s' => (lower_unit x =? lower_unit y)%N && prefix_i p' s'
  | _ :: _, [] => false
  end.

Fixpoint search_i (p s : jsstring) : bool :=
  prefix_i p s || match s with
                  | [] => false
                  | _ :: s' => search_i p s'
                  end.

(** A body with one address member, as the geocoding service answers,
    and the answer it gives where it knows no place. *)
Definition quoted (s : string) : jsstring := 34%N :: js s ++ [34%N].
Definition paris_body : jsstring :=
  js "{" ++ quoted "address" ++ js ":{" ++ quoted "city" ++ js ":"
  ++ quoted "Paris" ++ js "," ++ quoted "country" ++ js ":" ++ quoted "France"
  ++ js "}}".
Definition unknown_body : jsstring :=
  js "{" ++ quoted "error" ++ js ":" ++ quoted "Unable to geocode" ++ js "}".

(** The start of a JPEG file this host finds tags in. *)
Definition tagged_jpeg : list N := [255; 216; 255; 225]%N.

Definition paris_tags : Helper.Tags :=
  {| Helper.DateTimeOriginal := Helper.TNumber 1700000000;
     Helper.GPSLatitude := Helper.TNumber (4885 # 100);
     Helper.GPSLongitude := Helper.TNumber (235 # 100);
     Helper.Make := Some (js "Canon");
     Helper.Model := Some (js "EOS 80D ") |}.

Definition eq_bytes (a b : list N) : bool := str_eqb a b.

(** The host of the examples.  It knows one repository URL, patterns
    made of letters and digits (a case-insensitive search for the text),
    one image with tags and two answers of the geocoding service; on
    everything else its functions throw. *)
Definition host : Helper.Host :=
  {| Helper.URL_pathname := fun s =>
       if str_eqb s repo_url then Ok base_path
       else Throw {| kind := TypeError; message := js "Invalid URL" |};
     Helper.RegExp_i := fun p =>
       if forallb is_alnum p then Ok (search_i p)
       else Throw {| kind := SyntaxError;
                     message := js "Invalid regular expression" |};
     Helper.exif_parse := fun buffer =>
       if eq_bytes buffer tagged_jpeg then Ok (Some paris_tags)
       else Throw (Helper.new_Error (js "Invalid JPEG section offset"));
     Helper.Date_toISOString := fun v =>
       match v with
       | Helper.TNumber q =>
           if Qeq_bool q 1700000000 then Ok (js "2023-11-14T22:13:20.000Z")
           else Throw {| kind := RangeError; message := js "Invalid time value" |}
       | _ => Throw {| kind := RangeError; message := js "Invalid time value" |}
       end;
     Helper.JSON_parse := fun body =>
       if str_eqb body paris_body then
         Ok (Helper.JObject
               [(js "address",
                 Helper.JObject [(js "city", Helper.JString (js "Paris"));
                                 (js "country", Helper.JString (js "France"))])])
       else if str_eqb body unknown_body then
         Ok (Helper.JObject [(js "error", Helper.JString (js "Unable to geocode"))])
       else Throw {| kind := SyntaxError; message := js "Unexpected token" |};
     Helper.https_url_check := fun url =>
       match strip_prefix (js "https://") url with
       | Some _ => Ok tt
       | None => Throw {| kind := TypeError; message := js "Invalid URL" |}
       end;
     Helper.Number_toString := fun v =>
       match v with
       | Helper.TNumber q =>
           if Qeq_bool q (4885 # 100) then js "48.85"
           else if Qeq_bool q (235 # 100) then js "2.35" else js "0"
       | _ => js "NaN"
       end |}.

Definition repository : Helper.RepositoryConfig :=
  {| Helper.path := repo_url; Helper.username := js "anna";
     Helper.password := js "secret"; Helper.recursive := false;
     Helper.exclude := Some [js "trash"] |}.

Definition helper_config : Helper.Config :=
  {| Helper.repositoryConfig := Some repository; Helper.showWidth := 400;
     Helper.showHeight := 400; Helper.enableGeocoding := true |}.

(** The helper after INIT_CONFIG. *)
Definition ready : Helper.State :=
  {| Helper.config := Some helper_config; Helper.imageCache := [];
     Helper.isInitialized := true; Helper.store := [] |}.

(** An image response without tags, and the helper after the images
    named by the numbers below [n] were fetched in turn. *)
Definition plain_response : Helper.ImageResponse :=
  {| Helper.i_statusCode := 200; Helper.content_type := Some (js "image/png");
     Helper.i_body := [137; 80; 78; 71]%N |}.

Definition image_name (i : nat) : option jsstring :=
  Some (N_to_string (N.of_nat i) ++ js ".png").

Definition image_key (i : nat) : jsstring :=
  Helper.cache_key (image_name i) 400 400.

Fixpoint fetched (n : nat) : Helper.State :=
  match n with
  | O => ready
  | S n' =>
      fst (fst (Helper.handleImageDataResponse host plain_response
                  (image_name n') (image_key n') (fetched n')))
  end.

Definition href (s : string) : jsstring :=
  js "<d:href>" ++ base_path ++ js "/" ++ js s ++ js "</d:href>".

Definition front_config : Front.Config :=
  {| Front.animationSpeed := 500; Front.updateInterval := 60;
     Front.listRefreshInterval := 3600; Front.repositoryConfig := repository;
     Front.showWidth := 400; Front.showHeight := 400; Front.random := false;
     Front.blurAmount := 1; Front.startHidden := false;
     Front.startPaused := false; Front.showStatusIcon := true;
     Front.statusIconPosition := js "top_right";
     Front.enableGeocoding := true |}.

End Sample.

(* ================================================================== *)
(** ** Properties of the node helper *)
(* ================================================================== *)

Module HelperFacts.
Import JS Handler Helper.
Local Open Scope handler_scope.

(** One step of a handler: the monad and the accessors unfold, the
    strings stay folded. *)
Ltac open_handlers :=
  unfold createAuthHeader, repository_field, config_field, log, send,
    try_catch, bindM, get, put, emit, ret, throw, lift.

Ltac run := cbn beta iota zeta delta [app fst snd].

(** *** Strings and the Map *)

Lemma str_eqb_refl (a : jsstring) : str_eqb a a = true.
Proof.
  induction a as [|x a IH]; cbn; [reflexivity|].
  now rewrite N.eqb_refl, IH.
Qed.

Lemma str_eqb_eq (a b : jsstring) : str_eqb a b = true <-> a = b.
Proof.
  split; [|intros ->; apply str_eqb_refl].
  revert b; induction a as [|x a IH]; intros [|y b]; cbn; try discriminate; auto.
  intros H. apply andb_true_iff in H as [Hx Hab].
  apply N.eqb_eq in Hx. apply IH in Hab. congruence.
Qed.

Lemma str_eqb_neq (a b : jsstring) : str_eqb a b = false <-> a <> b.
Proof.
  rewrite <- str_eqb_eq. destruct (str_eqb a b); split; congruence.
Qed.

(** *** The href scanner *)

Lemma span_not_lt_group (cap rest : jsstring) :
  Forall (fun c => c <> 60%N) cap ->
  span_not_lt (cap ++ 60%N :: rest) = (cap, 60%N :: rest).
Proof.
  induction 1 as [|c cap Hc _ IH]; [reflexivity|].
  cbn [app span_not_lt]. apply N.eqb_neq in Hc. now rewrite Hc, IH.
Qed.

Lemma span_not_lt_sound (s : jsstring) :
  Forall (fun c => c <> 60%N) (fst (span_not_lt s))
  /\ s = fst (span_not_lt s) ++ snd (span_not_lt s).
Proof.
  induction s as [|c s [IH1 IH2]]; [split; [constructor | reflexivity]|].
  cbn [span_not_lt]. destruct (c =? 60)%N eqn:E.
  - split; [constructor | reflexivity].
  - destruct (span_not_lt s) as [a b]. cbn [fst snd] in *. split.
    + constructor; [now apply N.eqb_neq | assumption].
    + cbn [app]. now f_equal.
Qed.

Lemma strip_prefix_sound (p s r : jsstring) :
  strip_prefix p s = Some r -> s = p ++ r.
Proof.
  revert s; induction p as [|x p IH]; intros [|y s]; cbn; try discriminate.
  - now intros [= ->].
  - now intros [= ->].
  - destruct (x =? y)%N eqn:E; [|discriminate].
    apply N.eqb_eq in E. subst y. intros H. now rewrite (IH _ H).
Qed.

Lemma strip_prefix_app (p r : jsstring) : strip_prefix p (p ++ r) = Some r.
Proof.
  induction p as [|x p IH]; cbn; [now destruct r|].
  now rewrite N.eqb_refl.
Qed.

(** A match at the start of a string: the text "href>", the group, which
    is not empty and holds no '<', and a '<'. *)
Lemma anchored_href_sound (s cap : jsstring) :
  anchored_href s = Some cap ->
  cap <> [] /\ Forall (fun c => c <> 60%N) cap
  /\ exists rest, s = whole_match cap ++ rest.
Proof.
  unfold anchored_href, whole_match.
  destruct (strip_prefix (js "href>") s) as [r|] eqn:Hp; [|discriminate].
  apply strip_prefix_sound in Hp.
  destruct (span_not_lt_sound r) as [Hcap Hr].
  destruct (span_not_lt r) as [[|c a] [|x b]]; try discriminate.
  cbn [fst snd] in *.
  destruct (N.eq_dec x 60) as [->|Hx].
  - intros [= <-]. split; [discriminate|]. split; [assumption|].
    exists b. rewrite Hp, Hr. now rewrite <- !app_assoc.
  - intros H. exfalso. revert H.
    destruct x as [|x]; [discriminate|].
    do 6 (destruct x as [x|x|]; try discriminate). congruence.
Qed.

Lemma anchored_href_group (cap rest : jsstring) :
  cap <> [] -> Forall (fun c => c <> 60%N) cap ->
  anchored_href (whole_match cap ++ rest) = Some cap.
Proof.
  intros Hne Hcap. unfold anchored_href, whole_match.
  rewrite <- !app_assoc, strip_prefix_app. cbn [app].
  rewrite span_not_lt_group by assumption.
  destruct cap; [congruence | reflexivity].
Qed.

(** Applied to a match, the second regular expression gives its group. *)
Lemma replace_href_group_of_match (cap : jsstring) :
  cap <> [] -> Forall (fun c => c <> 60%N) cap ->
  replace_href_group (whole_match cap) = cap.
Proof.
  intros Hne Hcap.
  pose proof (anchored_href_group [] Hne Hcap) as H. rewrite app_nil_r in H.
  assert (Hlen : List.length (whole_match cap) = (List.length cap + 6)%nat).
  { unfold whole_match. rewrite !length_app. cbn. lia. }
  destruct (whole_match cap) as [|c m] eqn:Hm; [cbn in Hlen; lia|].
  cbn [replace_href_group]. rewrite H.
  rewrite skipn_all2 by lia. apply app_nil_r.
Qed.

(** Every element of the result of the global match is such a match. *)
Lemma match_href_g_matches (s : jsstring) :
  forall skip m,
    In m (match_href_g s skip) ->
    exists cap, m = whole_match cap /\ cap <> []
                /\ Forall (fun c => c <> 60%N) cap.
Proof.
  induction s as [|c s IH]; intros skip m; cbn [match_href_g]; [contradiction|].
  destruct skip as [|k]; [|apply IH].
  destruct (anchored_href (c :: s)) as [cap|] eqn:Ha; [|apply IH].
  intros [<- | Hin]; [|now apply IH in Hin].
  destruct (anchored_href_sound _ Ha) as (Hne & Hcap & _). eauto.
Qed.

(** *** path.extname *)

(** A code unit that is neither the dot nor the slash. *)
Definition plain (c : N) : Prop := c <> 46%N /\ c <> 47%N.

Lemma ext_step_first i c sp :
  plain c ->
  ext_step i c {| startDot := -1; startPart := sp; endp := -1;
                  matchedSlash := true; preDotState := 0; stopped := false |}
  = {| startDot := -1; startPart := sp; endp := i + 1;
       matchedSlash := false; preDotState := 0; stopped := false |}.
Proof.
  intros [Hdot Hslash]. unfold ext_step. cbn.
  apply N.eqb_neq in Hdot, Hslash. now rewrite Hdot, Hslash.
Qed.

Lemma ext_step_name i c st :
  plain c -> stopped st = false -> endp st <> (-1)%Z -> startDot st = (-1)%Z ->
  ext_step i c st = st.
Proof.
  intros [Hdot Hslash] Hstop Hend Hstart. unfold ext_step.
  apply N.eqb_neq in Hdot, Hslash. apply Z.eqb_neq in Hend.
  now rewrite Hstop, Hslash, Hend, Hdot, Hstart.
Qed.

Lemma ext_scan_name e rest :
  Forall plain e ->
  forall i st,
    stopped st = false -> endp st <> (-1)%Z -> startDot st = (-1)%Z ->
    ext_scan (e ++ rest) i st = ext_scan rest (i - Z.of_nat (List.length e)) st.
Proof.
  induction 1 as [|c e Hc _ IH]; intros i st Hstop Hend Hstart.
  - cbn. now rewrite Z.sub_0_r.
  - cbn [app ext_scan]. rewrite ext_step_name by assumption.
    rewrite IH by assumption. f_equal. cbn [List.length]. lia.
Qed.

Lemma ext_step_dot i st :
  stopped st = false -> endp st <> (-1)%Z -> startDot st = (-1)%Z ->
  ext_step i 46%N st
  = {| startDot := i; startPart := startPart st; endp := endp st;
       matchedSlash := matchedSlash st; preDotState := preDotState st;
       stopped := false |}.
Proof.
  intros Hstop Hend Hstart. unfold ext_step.
  apply Z.eqb_neq in Hend. rewrite Hstop, Hend, Hstart. reflexivity.
Qed.

Lemma ext_step_before_dot i c st :
  c <> 47%N -> stopped st = false -> endp st <> (-1)%Z ->
  startDot st <> (-1)%Z -> preDotState st = 0%Z ->
  startDot (ext_step i c st) = startDot st
  /\ endp (ext_step i c st) = endp st
  /\ preDotState (ext_step i c st) <> 0%Z.
Proof.
  intros Hc Hstop Hend Hstart Hpre. unfold ext_step.
  apply N.eqb_neq in Hc. apply Z.eqb_neq in Hend, Hstart.
  rewrite Hstop, Hc, Hend, Hstart, Hpre.
  destruct (c =? 46)%N; cbn; repeat split; discriminate.
Qed.

(** Once the dot and the end of the name are found and a code unit of the
    name stands before the dot, the rest of the scan keeps them. *)
Lemma ext_step_settled i c st :
  startDot st <> (-1)%Z -> endp st <> (-1)%Z -> preDotState st <> 0%Z ->
  startDot (ext_step i c st) = startDot st
  /\ endp (ext_step i c st) = endp st
  /\ preDotState (ext_step i c st) <> 0%Z.
Proof.
  intros Hstart Hend Hpre. unfold ext_step.
  apply Z.eqb_neq in Hstart, Hend.
  destruct (stopped st); [auto|].
  destruct (c =? 47)%N.
  - destruct (matchedSlash st); cbn; auto.
  - rewrite Hend. destruct (c =? 46)%N.
    + rewrite Hstart. destruct (preDotState st =? 1)%Z; cbn; auto.
      repeat split; auto. discriminate.
    + rewrite Hstart. cbn. repeat split; auto. discriminate.
Qed.

Lemma ext_scan_settled rs :
  forall i st,
    startDot st <> (-1)%Z -> endp st <> (-1)%Z -> preDotState st <> 0%Z ->
    startDot (ext_scan rs i st) = startDot st
    /\ endp (ext_scan rs i st) = endp st
    /\ preDotState (ext_scan rs i st) <> 0%Z.
Proof.
  induction rs as [|c rs IH]; intros i st Hstart Hend Hpre; cbn [ext_scan]; auto.
  destruct (ext_step_settled i c st Hstart Hend Hpre) as (H1 & H2 & H3).
  destruct (IH (i - 1)%Z (ext_step i c st)) as (H4 & H5 & H6); try congruence.
  repeat split; congruence.
Qed.

(** A name that ends in a dot and an extension, with a code unit other
    than the slash before the dot: the extension, dot included. *)
Lemma extname_suffix (stem : jsstring) (c : N) (e : jsstring) :
  c <> 47%N -> e <> [] -> Forall plain e ->
  extname (stem ++ c :: 46%N :: e) = 46%N :: e.
Proof.
  intros Hc He Hplain. unfold extname.
  set (p := stem ++ c :: 46%N :: e).
  set (L := Z.of_nat (List.length p)).
  assert (HL : L = (Z.of_nat (List.length stem) + 2 + Z.of_nat (List.length e))%Z).
  { unfold L, p. rewrite length_app. cbn [List.length]. lia. }
  assert (Hlen : (0 < List.length e)%nat) by (destruct e; [congruence | cbn; lia]).
  assert (Hrev : rev p = rev e ++ 46%N :: c :: rev stem).
  { unfold p. rewrite rev_app_distr. cbn [rev]. now rewrite <- !app_assoc. }
  rewrite Hrev.
  (* the code units of the extension *)
  destruct (rev e) as [|x re] eqn:Hre.
  { apply (f_equal (@List.length N)) in Hre. rewrite length_rev in Hre. cbn in Hre. lia. }
  assert (Hpre : Forall plain (x :: re)).
  { rewrite <- Hre. apply Forall_rev. exact Hplain. }
  assert (Hrelen : Z.of_nat (List.length (x :: re)) = Z.of_nat (List.length e)).
  { rewrite <- Hre. now rewrite length_rev. }
  inversion Hpre as [|? ? Hx Hrest]; subst.
  cbn [app ext_scan]. rewrite ext_step_first by assumption.
  rewrite ext_scan_name; [|assumption|reflexivity|cbn; lia|reflexivity].
  (* the dot *)
  cbn [ext_scan].
  rewrite ext_step_dot; [|reflexivity|cbn; lia|reflexivity].
  cbn [startPart endp matchedSlash preDotState].
  (* the code unit before it, and the rest of the path *)
  cbn [List.length] in Hrelen.
  set (d := (L - 1 - 1 - Z.of_nat (List.length re))%Z).
  assert (Hd : d = (Z.of_nat (List.length stem) + 1)%Z) by (unfold d; lia).
  set (stB := {| startDot := d; startPart := 0; endp := L - 1 + 1;
                 matchedSlash := false; preDotState := 0; stopped := false |}).
  assert (HstC : startDot (ext_step (d - 1) c stB) = d
                 /\ endp (ext_step (d - 1) c stB) = (L - 1 + 1)%Z
                 /\ preDotState (ext_step (d - 1) c stB) <> 0%Z).
  { apply (@ext_step_before_dot (d - 1)%Z c stB);
      [assumption | reflexivity | cbn; lia | cbn; lia | reflexivity]. }
  destruct HstC as (HC1 & HC2 & HC3).
  destruct (ext_scan_settled (rev stem) (d - 1 - 1) (ext_step (d - 1) c stB))
    as (HF1 & HF2 & HF3); [lia | lia | assumption |].
  rewrite HF1, HF2, HC1, HC2.
  replace (d =? -1)%Z with false by (symmetry; apply Z.eqb_neq; lia).
  replace (L - 1 + 1 =? -1)%Z with false by (symmetry; apply Z.eqb_neq; lia).
  apply Z.eqb_neq in HF3. rewrite HF3.
  replace (d =? L - 1 + 1 - 1)%Z with false by (symmetry; apply Z.eqb_neq; lia).
  rewrite andb_false_r. cbn [orb andb].
  unfold slice, p.
  replace (Z.to_nat d) with (List.length stem + 1)%nat by lia.
  replace (Z.to_nat (L - 1 + 1 - d)) with (S (List.length e)) by lia.
  replace (stem ++ c :: 46%N :: e) with ((stem ++ [c]) ++ 46%N :: e)
    by now rewrite <- app_assoc.
  rewrite skipn_app, skipn_all2 by (rewrite length_app; cbn; lia).
  rewrite length_app. cbn [List.length app].
  replace (List.length stem + 1 - (List.length stem + 1))%nat with 0%nat by lia.
  cbn [skipn firstn]. now rewrite firstn_all.
Qed.

Lemma lower_unit_dot c : lower_unit c = 46%N -> c = 46%N.
Proof.
  unfold lower_unit.
  destruct ((65 <=? c) && (c <=? 90))%N eqn:E.
  - apply andb_true_iff in E as [E1 E2]. apply N.leb_le in E1. lia.
  - destruct (c =? 8490)%N; [discriminate | auto].
Qed.

Lemma lower_unit_plain c : plain (lower_unit c) -> plain c.
Proof.
  intros [H1 H2]. split; intros ->; [apply H1 | apply H2]; reflexivity.
Qed.

Section MapFacts.
Variable V : Type.
Implicit Types (m : Map V) (k : jsstring) (v : V).

Lemma Map_get_set_same k v m : Map_get k (Map_set k v m) = Some v.
Proof.
  induction m as [|[k' v'] m IH]; cbn.
  - now rewrite str_eqb_refl.
  - destruct (str_eqb k' k) eqn:E; cbn; rewrite E; auto.
Qed.

Lemma Map_get_set_other k k' v m :
  k <> k' -> Map_get k' (Map_set k v m) = Map_get k' m.
Proof.
  intros Hne. induction m as [|[k0 v0] m IH]; cbn.
  - apply not_eq_sym in Hne. apply str_eqb_neq in Hne.
    destruct (str_eqb k k') eqn:E; [|reflexivity].
    apply str_eqb_eq in E. apply str_eqb_neq in Hne. congruence.
  - destruct (str_eqb k0 k) eqn:E; cbn.
    + apply str_eqb_eq in E; subst k0.
      destruct (str_eqb k k') eqn:E'; [|reflexivity].
      apply str_eqb_eq in E'. congruence.
    + now rewrite IH.
Qed.

(** A key that is absent is added behind all the others. *)
Lemma Map_set_fresh k v m : Map_get k m = None -> Map_set k v m = m ++ [(k, v)].
Proof.
  induction m as [|[k' v'] m IH]; cbn; [reflexivity|].
  destruct (str_eqb k' k); [discriminate|].
  intros H. now rewrite IH.
Qed.

(** A key that is present keeps its place. *)
Lemma Map_set_present_keys k v m :
  Map_has k m = true -> Map_keys (Map_set k v m) = Map_keys m.
Proof.
  unfold Map_has, Map_keys.
  induction m as [|[k' v'] m IH]; cbn; [discriminate|].
  destruct (str_eqb k' k); cbn; [reflexivity|].
  intros H. now rewrite IH.
Qed.

Lemma Map_set_length k v m :
  List.length (Map_set k v m)
  = if Map_has k m then List.length m else S (List.length m).
Proof.
  unfold Map_has.
  induction m as [|[k' v'] m IH]; cbn; [reflexivity|].
  destruct (str_eqb k' k); cbn; [reflexivity|].
  rewrite IH. now destruct (Map_get k m).
Qed.

(** Deleting the first key removes the head entry. *)
Lemma Map_delete_first k v m : Map_delete k ((k, v) :: m) = m.
Proof. cbn. now rewrite str_eqb_refl. Qed.

Lemma Map_get_app_fresh k m1 m2 :
  Map_get k m1 = None -> Map_get k (m1 ++ m2) = Map_get k m2.
Proof.
  induction m1 as [|[k' v'] m1 IH]; cbn; [reflexivity|].
  destruct (str_eqb k' k); [discriminate|]. exact IH.
Qed.
End MapFacts.

(** *** Steps that only touch the EXIF records *)

Lemma update_nth_length {A} (n : nat) (f : A -> A) (l : list A) :
  List.length (update_nth n f l) = List.length l.
Proof.
  revert n; induction l as [|x l IH]; intros [|n]; cbn; auto.
Qed.

Lemma nth_error_update_nth {A} (n n' : nat) (f : A -> A) (l : list A) :
  nth_error (update_nth n f l) n'
  = if Nat.eqb n n' then option_map f (nth_error l n') else nth_error l n'.
Proof.
  revert n n'; induction l as [|x l IH]; intros [|n] [|n']; cbn; auto.
  - now destruct (Nat.eqb n n').
Qed.

(** The effects of the extraction: log lines and the geocoding request. *)
Definition local_effect (e : Effect) : Prop :=
  match e with
  | Log _ _ | https_get _ _ _ => True
  | sendSocketNotification _ | https_request _ _ _ _ => False
  end.

(** Methods that keep a relation between the state before and after and
    the effects, and that end: the relation holds of a step that does
    nothing and composes along a sequence of steps. *)
Section Keeps.
Variable R : State -> State -> list Effect -> Prop.
Hypothesis R_refl : forall st, R st st [].
Hypothesis R_trans :
  forall st1 st2 st3 e1 e2, R st1 st2 e1 -> R st2 st3 e2 -> R st1 st3 (e1 ++ e2).

Definition Keeps {A} (m : H A) : Prop :=
  forall st, exists st' effs c,
    m st = (st', effs, c) /\ R st st' effs /\ c <> Looping.

Lemma Keeps_ret {A} (a : A) : Keeps (ret a).
Proof. intros st. exists st, [], (Normal a). repeat split; auto; discriminate. Qed.

Lemma Keeps_throw {A} (e : exn) : Keeps (@throw State Effect A e).
Proof. intros st. exists st, [], (Thrown e). repeat split; auto; discriminate. Qed.

Lemma Keeps_lift {A} (r : result A) : Keeps (lift r).
Proof.
  intros st. destruct r as [a|e]; cbn.
  - exists st, [], (Normal a). repeat split; auto; discriminate.
  - exists st, [], (Thrown e). repeat split; auto; discriminate.
Qed.

Lemma Keeps_get : Keeps (@get State Effect).
Proof. intros st. exists st, [], (Normal st). repeat split; auto; discriminate. Qed.

Lemma Keeps_bind {A B} (m : H A) (k : A -> H B) :
  Keeps m -> (forall a, Keeps (k a)) -> Keeps (bindM m k).
Proof.
  intros Hm Hk st. unfold bindM.
  destruct (Hm st) as (s1 & e1 & c1 & -> & H1 & Hc1).
  destruct c1 as [a|e|]; [|now exists s1, e1, (Thrown e)|congruence].
  destruct (Hk a s1) as (s2 & e2 & c2 & -> & H2 & Hc2).
  exists s2, (e1 ++ e2), c2. eauto.
Qed.

Lemma Keeps_try {A} (m : H A) (h : exn -> H A) :
  Keeps m -> (forall e, Keeps (h e)) -> Keeps (try_catch m h).
Proof.
  intros Hm Hh st. unfold try_catch.
  destruct (Hm st) as (s1 & e1 & c1 & -> & H1 & Hc1).
  destruct c1 as [a|e|]; [now exists s1, e1, (Normal a)| |congruence].
  destruct (Hh e s1) as (s2 & e2 & c2 & -> & H2 & Hc2).
  exists s2, (e1 ++ e2), c2. eauto.
Qed.

Lemma Keeps_config_field {A} (prop : string) (f : Config -> A) :
  Keeps (config_field prop f).
Proof.
  apply Keeps_bind; [apply Keeps_get|].
  intros st. destruct (config st); [apply Keeps_ret | apply Keeps_throw].
Qed.

Lemma Keeps_repository_field {A} (prop : string) (f : RepositoryConfig -> A) :
  Keeps (repository_field prop f).
Proof.
  apply Keeps_bind; [apply Keeps_config_field|].
  intros [rc|]; [apply Keeps_ret | apply Keeps_throw].
Qed.

(** A handler that returns: the try statement returns. *)
Lemma try_catch_returns {A} (m : H A) (h : exn -> H A) st st' effs c :
  (forall e s, exists s' effs' a, h e s = (s', effs', Normal a)) ->
  try_catch m h st = (st', effs, c) ->
  c <> Looping ->
  exists a, c = Normal a.
Proof.
  intros Hh. unfold try_catch.
  destruct (m st) as [[s1 e1] [a|e|]].
  - intros [= <- <- <-] _. eauto.
  - destruct (Hh e s1) as (s' & effs' & a & ->). intros [= <- <- <-] _. eauto.
  - intros [= <- <- <-]. congruence.
Qed.
End Keeps.

(** What a step of the extraction may do: the configuration, the cache
    and the flag stay, nothing is sent over the socket, the store keeps its
    cells, and no cell's location changes. *)
Record calm (st st' : State) (effs : list Effect) : Prop := {
  calm_config : config st' = config st;
  calm_cache : imageCache st' = imageCache st;
  calm_init : isInitialized st' = isInitialized st;
  calm_size : List.length (store st') = List.length (store st);
  calm_location : forall r, location (deref st' r) = location (deref st r);
  calm_effects : Forall local_effect effs
}.

Lemma calm_refl st : calm st st [].
Proof. constructor; auto. Qed.

Lemma calm_trans st1 st2 st3 e1 e2 :
  calm st1 st2 e1 -> calm st2 st3 e2 -> calm st1 st3 (e1 ++ e2).
Proof.
  intros [] []. constructor; try congruence.
  apply Forall_app. split; assumption.
Qed.

Definition Calm {A} (m : H A) : Prop := Keeps calm m.

Lemma Calm_log l msg : Calm (log l msg).
Proof.
  intros st. exists st, [Log l (tagged msg)], (Normal tt).
  repeat split; auto; try discriminate.
  repeat constructor.
Qed.

(** What the listing parser may do: write log lines. *)
Definition is_log (e : Effect) : Prop :=
  match e with
  | Log _ _ => True
  | _ => False
  end.

Definition only_logs (st st' : State) (effs : list Effect) : Prop :=
  st' = st /\ Forall is_log effs.

Lemma only_logs_refl st : only_logs st st [].
Proof. split; auto. Qed.

Lemma only_logs_trans st1 st2 st3 e1 e2 :
  only_logs st1 st2 e1 -> only_logs st2 st3 e2 -> only_logs st1 st3 (e1 ++ e2).
Proof.
  intros [-> H1] [-> H2]. split; [reflexivity|].
  apply Forall_app. split; assumption.
Qed.

Definition Logs {A} (m : H A) : Prop := Keeps only_logs m.

Lemma Logs_log l msg : Logs (log l msg).
Proof.
  intros st. exists st, [Log l (tagged msg)], (Normal tt).
  repeat split; try discriminate. repeat constructor.
Qed.

(** Rewriting a cell in a way that keeps its location is calm. *)
Lemma Calm_update_cell r (f : Cell -> Cell) :
  (forall c, location (exif (f c)) = location (exif c)) ->
  Calm (update_cell r f).
Proof.
  intros Hf st. eexists _, _, _. split; [reflexivity|].
  split; [|discriminate]. constructor; cbn; auto.
  - apply update_nth_length.
  - intros r'. unfold deref; cbn. rewrite nth_error_update_nth.
    destruct (Nat.eqb r r'); [|reflexivity].
    destruct (nth_error (store st) r'); cbn; auto.
Qed.

Section Extraction.
Variable host : Host.

Lemma Calm_reverseGeocode r lat lon : Calm (reverseGeocode host r lat lon).
Proof.
  apply (@Keeps_bind _ calm_trans); [|intros _; now apply Calm_update_cell].
  intros st. eexists _, _, _. split; [reflexivity|].
  split; [|discriminate]. constructor; auto. repeat constructor.
Qed.

Ltac calm_step :=
  first
    [ apply (@Keeps_ret _ calm_refl)
    | apply Calm_log
    | apply (@Keeps_lift _ calm_refl)
    | apply (@Keeps_config_field _ calm_refl calm_trans)
    | apply Calm_reverseGeocode
    | apply Calm_update_cell; intros; reflexivity
    | apply (@Keeps_bind _ calm_trans); [|intros ?]
    | match goal with
      | |- Keeps _ (if ?b then _ else _) => destruct b
      | |- Keeps _ (match ?x with _ => _ end) => destruct x
      end ].

Lemma Calm_extract_tags r buffer : Calm (extract_tags host r buffer).
Proof. unfold extract_tags. repeat calm_step. Qed.

(** [extractExifData] returns, for every buffer and in every state: a
    reference to a new record whose location is null.  Nothing else in the
    helper changes and nothing is sent over the socket. *)
Lemma extractExifData_returns buffer st :
  exists st' effs,
    extractExifData host buffer st
    = (st', effs, Normal (List.length (store st)))
    /\ config st' = config st
    /\ imageCache st' = imageCache st
    /\ isInitialized st' = isInitialized st
    /\ Forall local_effect effs
    /\ location (deref st' (List.length (store st))) = None
    /\ (forall r, (r < List.length (store st))%nat ->
                  location (deref st' r) = location (deref st r)).
Proof.
  set (r := List.length (store st)).
  set (st0 := with_store st (store st ++ [{| exif := null_exif; promise := NoPromise |}])).
  set (handler := fun e : exn =>
         log debug (js "EXIF extraction failed (this is normal for some images): "
                    ++ message e)).
  assert (Htry : Calm (try_catch (extract_tags host r buffer) handler)).
  { apply (@Keeps_try _ calm_trans); [apply Calm_extract_tags | intros e; apply Calm_log]. }
  destruct (Htry st0) as (st' & effs & c & Hrun & Hcalm & Hc).
  (* the handler returns: no throw leaves the try statement *)
  assert (Hnormal : c = Normal tt).
  { revert Hrun Hc. unfold try_catch.
    destruct (extract_tags host r buffer st0) as [[s1 e1] [[]|e'|]]; cbn;
      intros [= <- <- <-]; congruence. }
  subst c. exists st', effs.
  destruct Hcalm as [Hcfg Hcache Hinit Hsize Hloc Heff].
  split.
  - unfold extractExifData, alloc.
    unfold bindM at 1. unfold bindM at 1. cbn [get]. unfold bindM at 1. cbn [put ret app].
    unfold bindM at 1. fold st0 r handler. rewrite Hrun. cbn.
    now rewrite app_nil_r.
  - repeat split; auto.
    + rewrite Hloc. unfold deref, st0, r; cbn.
      rewrite nth_error_app2, Nat.sub_diag by lia. reflexivity.
    + intros r' Hr. rewrite Hloc. unfold deref, st0; cbn.
      now rewrite nth_error_app1 by lia.
Qed.

(** *** Geocoding outcomes *)

Definition geocoding_failed_line (e : exn) : Effect :=
  Log debug (tagged (js "Reverse geocoding failed: " ++ message e)).

Definition extraction_failed_line (e : exn) : Effect :=
  Log debug (tagged (js "EXIF extraction failed (this is normal for some images): "
                     ++ message e)).

(** A rejection is logged and nothing else: no cell's record changes. *)
Lemma settle_rejected r e st :
  exists st',
    settle r (Throw e) st
    = (st', match nth_error (store st) r with
            | Some {| promise := Pending |} => [geocoding_failed_line e]
            | _ => []
            end, Normal tt)
    /\ config st' = config st
    /\ imageCache st' = imageCache st
    /\ isInitialized st' = isInitialized st
    /\ (forall r', deref st' r' = deref st r')
    /\ (forall c, nth_error (store st') r = Some c -> promise c <> Pending).
Proof.
  unfold settle. open_handlers. run.
  destruct (nth_error (store st) r) as [c|] eqn:Hc.
  - destruct c as [ex pr]. destruct pr; cbn [promise].
    1, 3, 4: exists st; repeat split; auto;
      intros c' Hc'; rewrite Hc in Hc'; injection Hc' as <-; discriminate.
    unfold update_cell. open_handlers. run.
    eexists. split; [reflexivity|]. cbn [config imageCache isInitialized with_store].
    repeat split.
    + intros r'. unfold deref. cbn [store with_store].
      rewrite nth_error_update_nth.
      destruct (Nat.eqb r r') eqn:E; [|reflexivity].
      apply Nat.eqb_eq in E; subst r'. now rewrite Hc.
    + intros c'. cbn [store with_store]. rewrite nth_error_update_nth, Nat.eqb_refl, Hc.
      cbn. intros [= <-]. discriminate.
  - exists st. repeat split; auto. intros c' Hc'. congruence.
Qed.

(** A promise that is not pending does not settle again. *)
Lemma settle_once r outcome st c :
  nth_error (store st) r = Some c ->
  promise c <> Pending ->
  settle r outcome st = (st, [], Normal tt).
Proof.
  intros Hc Hp. unfold settle. open_handlers. run. rewrite Hc.
  destruct (promise c); congruence.
Qed.

(** Without a truthy address member the promise is rejected with "No
    location found". *)
Lemma reverseGeocode_not_found body data :
  JSON_parse host body = Ok data ->
  data <> JNull ->
  first_truthy
    (match property (js "address") data with
     | Some a => if json_truthy a then a else JObject []
     | None => JObject []
     end) address_fields = None ->
  reverseGeocode_onEnd host body = Throw (new_Error (js "No location found")).
Proof.
  intros Hparse Hnull Hnone. unfold reverseGeocode_onEnd.
  rewrite Hparse. cbn [bind].
  destruct data; try congruence; now rewrite Hnone.
Qed.

(** The parser throws: the record keeps its four nulls. *)
Lemma extractExifData_parser_throws buffer e st :
  exif_parse host buffer = Throw e ->
  extractExifData host buffer st
  = (with_store st (store st ++ [{| exif := null_exif; promise := NoPromise |}]),
     [extraction_failed_line e], Normal (List.length (store st))).
Proof.
  intros Hparse. unfold extractExifData, extract_tags, alloc. open_handlers.
  run. rewrite Hparse. reflexivity.
Qed.

(** The date is not a time value: the conversion throws before any
    field is written. *)
Lemma extractExifData_date_throws buffer tags e st :
  exif_parse host buffer = Ok (Some tags) ->
  truthy (DateTimeOriginal tags) = true ->
  Date_toISOString host (DateTimeOriginal tags) = Throw e ->
  extractExifData host buffer st
  = (with_store st (store st ++ [{| exif := null_exif; promise := NoPromise |}]),
     [extraction_failed_line e], Normal (List.length (store st))).
Proof.
  intros Hparse Hdate Hiso. unfold extractExifData, extract_tags, alloc.
  open_handlers. run. rewrite Hparse. run. rewrite Hdate. run. rewrite Hiso.
  reflexivity.
Qed.

(** C8.  [extractExifData] returns a record for every buffer, whatever
    the state: it does not throw, it sends nothing over the socket, and the
    location of the record is null; when the parser throws, or the date it
    found is not a time value, all four fields are null.  A geocoding
    failure of any kind, the "No location found" rejection among them, ends
    in the [catch] callback: it returns, logs at most one line, sends
    nothing, and every record is as before, so the location stays null; and
    the promise being settled, a later answer for the same record changes
    nothing. *)
Theorem extraction_and_geocoding_failures_are_swallowed :
  forall (buffer : list N) (st : State),
    (exists st' effs,
       extractExifData host buffer st
       = (st', effs, Normal (List.length (store st)))
       /\ Forall local_effect effs
       /\ config st' = config st
       /\ imageCache st' = imageCache st
       /\ location (deref st' (List.length (store st))) = None
       /\ (forall e, exif_parse host buffer = Throw e ->
                     deref st' (List.length (store st)) = null_exif)
       /\ (forall tags e,
             exif_parse host buffer = Ok (Some tags) ->
             truthy (DateTimeOriginal tags) = true ->
             Date_toISOString host (DateTimeOriginal tags) = Throw e ->
             deref st' (List.length (store st)) = null_exif))
    /\ (forall r e,
          exists st' effs,
            settle r (Throw e) st = (st', effs, Normal tt)
            /\ Forall local_effect effs
            /\ imageCache st' = imageCache st
            /\ (forall r', deref st' r' = deref st r')
            /\ (forall c outcome,
                  nth_error (store st') r = Some c ->
                  settle r outcome st' = (st', [], Normal tt)))
    /\ (forall r body data,
          JSON_parse host body = Ok data ->
          data <> JNull ->
          first_truthy
            (match property (js "address") data with
             | Some a => if json_truthy a then a else JObject []
             | None => JObject []
             end) address_fields = None ->
          reverseGeocode_response host r body st
          = settle r (Throw (new_Error (js "No location found"))) st).
Proof.
  intros buffer st. split; [|split].
  - destruct (extractExifData_returns buffer st)
      as (st' & effs & Hrun & Hcfg & Hcache & _ & Heff & Hloc & _).
    exists st', effs. do 5 (split; [assumption|]). split.
    + intros e Hparse.
      rewrite (extractExifData_parser_throws buffer st Hparse) in Hrun.
      injection Hrun as <- _. unfold deref. cbn [store with_store].
      now rewrite nth_error_app2, Nat.sub_diag by lia.
    + intros tags e Hparse Hdate Hiso.
      rewrite (extractExifData_date_throws buffer st Hparse Hdate Hiso) in Hrun.
      injection Hrun as <- _. unfold deref. cbn [store with_store].
      now rewrite nth_error_app2, Nat.sub_diag by lia.
  - intros r e.
    destruct (settle_rejected r e st) as (st' & Hrun & _ & Hcache & _ & Hderef & Hp).
    eexists st', _. split; [exact Hrun|]. repeat split; auto.
    + destruct (nth_error (store st) r) as [[ex []]|]; repeat constructor.
    + intros c outcome Hc. apply settle_once with (c := c); auto.
  - intros r body data Hparse Hnull Hnone. unfold reverseGeocode_response.
    now rewrite (reverseGeocode_not_found body Hparse Hnull Hnone).
Qed.

End Extraction.

(** *** The cache *)

(** The cache after the eviction step of [handleImageDataResponse]. *)
Definition evicted (c : Map ImageData) : Map ImageData :=
  if (50 <? Map_size c)%N then
    match Map_first_key c with
    | Some firstKey => Map_delete firstKey c
    | None => c
    end
  else c.

Definition mime_of (response : ImageResponse) : jsstring :=
  if truthy_string (content_type response)
  then or_empty (content_type response) else js "image/jpeg".

(** The [imageData] built from a response, with the record [r]. *)
Definition entry (response : ImageResponse) (filename : option jsstring) (r : nat)
  : ImageData :=
  {| filename := filename;
     encodedData := js "data:" ++ mime_of response ++ js ";base64,"
                    ++ base64 (i_body response);
     exifData := r;
     mimeType := mime_of response;
     size := N.of_nat (List.length (i_body response)) |}.

Definition processed_line (response : ImageResponse) (filename : option jsstring)
  : Effect :=
  Log debug
    (tagged (js "Successfully processed image: " ++ template filename ++ js " ("
             ++ N_to_string ((N.of_nat (List.length (i_body response)) + 512) / 1024)
             ++ js "KB)")).

Section Cache.
Variable host : Host.

Lemma evict_if_full_run st :
  evict_if_full st = (with_cache st (evicted (imageCache st)), [], Normal tt).
Proof.
  unfold evict_if_full, evicted, bindM, get, put, ret.
  destruct st as [cfg cache init sto]; cbn.
  destruct (50 <? Map_size cache)%N; [|reflexivity].
  destruct (Map_first_key cache); reflexivity.
Qed.

(** A response with a status below 400: the record is extracted, the
    eviction step runs, the entry is set under the key and sent. *)
Lemma handleImageDataResponse_stores response filename cacheKey st :
  (i_statusCode response <? 400)%N = true ->
  exists st1 effs1,
    extractExifData host (i_body response) st
    = (st1, effs1, Normal (List.length (store st)))
    /\ config st1 = config st
    /\ isInitialized st1 = isInitialized st
    /\ Forall local_effect effs1
    /\ let d := entry response filename (List.length (store st)) in
       let st2 := with_cache st1 (Map_set cacheKey d (evicted (imageCache st))) in
       handleImageDataResponse host response filename cacheKey st
       = (st2,
          effs1 ++ [processed_line response filename;
                    sendSocketNotification (IMAGE_DATA_RECEIVED (payload st2 d))],
          Normal tt).
Proof.
  intros Hstatus.
  destruct (extractExifData_returns host (i_body response) st)
    as (st1 & effs1 & Hext & Hcfg & Hcache & Hinit & Heff & _).
  exists st1, effs1. repeat split; auto.
  cbn zeta. unfold handleImageDataResponse.
  rewrite N.leb_antisym, Hstatus. cbn [negb].
  unfold try_catch. unfold bindM at 1. rewrite Hext.
  unfold bindM at 1. rewrite evict_if_full_run.
  unfold bindM, get, put, log, send, emit. cbn.
  rewrite Hcache. reflexivity.
Qed.

Lemma Map_size_length {V} (m : Map V) : Map_size m = N.of_nat (List.length m).
Proof. reflexivity. Qed.

Lemma evicted_small (c : Map ImageData) :
  (Map_size c <=? 50)%N = true -> evicted c = c.
Proof.
  intros H. unfold evicted.
  replace (50 <? Map_size c)%N with false; [reflexivity|].
  symmetry. apply N.ltb_ge. now apply N.leb_le.
Qed.

Lemma evicted_full (c : Map ImageData) :
  (50 <? Map_size c)%N = true -> evicted c = tl c.
Proof.
  intros H. unfold evicted. rewrite H.
  destruct c as [|[k v] c]; [reflexivity|].
  cbn [Map_first_key tl]. apply Map_delete_first.
Qed.

(** The eviction step makes room for at most one entry, so the cache
    never holds more than 51. *)
Lemma cache_at_most_51 response filename cacheKey st :
  (Map_size (imageCache st) <= 51)%N ->
  (Map_size
     (imageCache (fst (fst (handleImageDataResponse host response filename
                              cacheKey st)))) <= 51)%N.
Proof.
  intros Hsize.
  destruct (i_statusCode response <? 400)%N eqn:Hstatus.
  - destruct (handleImageDataResponse_stores response filename cacheKey st Hstatus)
      as (st1 & effs1 & _ & _ & _ & _ & Hrun).
    cbn zeta in Hrun. rewrite Hrun. cbn [fst imageCache with_cache].
    rewrite Map_size_length, Map_set_length.
    assert (Hev : (List.length (evicted (imageCache st)) <= 50)%nat).
    { destruct (50 <? Map_size (imageCache st))%N eqn:Hfull.
      - rewrite evicted_full by assumption.
        rewrite Map_size_length in Hsize.
        destruct (imageCache st); cbn in *; lia.
      - rewrite evicted_small.
        + apply N.ltb_ge in Hfull. rewrite Map_size_length in Hfull. lia.
        + apply N.leb_le. now apply N.ltb_ge in Hfull. }
    destruct (Map_has cacheKey (evicted (imageCache st))); lia.
  - unfold handleImageDataResponse.
    rewrite N.leb_antisym, Hstatus. cbn. exact Hsize.
Qed.

(** With 51 entries, a new key pushes out the oldest one and no other. *)
Lemma cache_of_51_drops_oldest response filename cacheKey st :
  (i_statusCode response <? 400)%N = true ->
  Map_size (imageCache st) = 51%N ->
  Map_get cacheKey (imageCache st) = None ->
  Map_keys
    (imageCache (fst (fst (handleImageDataResponse host response filename
                             cacheKey st))))
  = tl (Map_keys (imageCache st)) ++ [cacheKey].
Proof.
  intros Hstatus Hsize Hfresh.
  destruct (handleImageDataResponse_stores response filename cacheKey st Hstatus)
    as (st1 & effs1 & _ & _ & _ & _ & Hrun).
  cbn zeta in Hrun. rewrite Hrun. cbn [fst imageCache with_cache].
  rewrite evicted_full by now rewrite Hsize.
  destruct (imageCache st) as [|[k v] c]; [discriminate|].
  cbn [tl Map_keys List.map fst]. cbn in Hfresh.
  destruct (str_eqb k cacheKey); [discriminate|].
  rewrite Map_set_fresh by assumption.
  unfold Map_keys. now rewrite List.map_app.
Qed.

(** C1 (the code against the claim).  When the cache holds 50 entries
    and an image with a key that is not among them has been fetched, the
    eviction test [size > 50] is false: nothing is evicted, the new entry
    is added behind the 50 others, and the cache holds 51 entries, the
    oldest key still the first of them. *)
Theorem cache_of_50_grows_to_51 :
  forall response filename cacheKey st,
    (i_statusCode response <? 400)%N = true ->
    Map_size (imageCache st) = 50%N ->
    Map_get cacheKey (imageCache st) = None ->
    let st' := fst (fst (handleImageDataResponse host response filename
                           cacheKey st)) in
    Map_size (imageCache st') = 51%N
    /\ Map_keys (imageCache st') = Map_keys (imageCache st) ++ [cacheKey]
    /\ Map_first_key (imageCache st') = Map_first_key (imageCache st).
Proof.
  intros response filename cacheKey st Hstatus Hsize Hfresh st'.
  destruct (handleImageDataResponse_stores response filename cacheKey st Hstatus)
    as (st1 & effs1 & _ & _ & _ & _ & Hrun).
  cbn zeta in Hrun. subst st'. rewrite Hrun. cbn [fst imageCache with_cache].
  rewrite evicted_small by now rewrite Hsize.
  rewrite Map_set_fresh by assumption.
  rewrite Map_size_length in *. split; [|split].
  - rewrite length_app. cbn. lia.
  - unfold Map_keys. now rewrite List.map_app.
  - destruct (imageCache st); [discriminate|reflexivity].
Qed.

(** *** Cache hits and misses of [fetchImageData] *)

Definition fetching_line (imageRequest : ImageRequest) : Effect :=
  Log debug (tagged (js "Fetching image data for: "
                     ++ template (r_filename imageRequest))).

Definition cached_line (imageRequest : ImageRequest) : Effect :=
  Log debug (tagged (js "Returning cached image data for: "
                     ++ template (r_filename imageRequest))).

(** The number of requests to the repository among the effects. *)
Fixpoint network_fetches (effs : list Effect) : nat :=
  match effs with
  | [] => 0
  | https_request _ _ _ _ :: effs' => S (network_fetches effs')
  | _ :: effs' => network_fetches effs'
  end.

Lemma network_fetches_app e1 e2 :
  network_fetches (e1 ++ e2) = (network_fetches e1 + network_fetches e2)%nat.
Proof.
  induction e1 as [|[] e1 IH]; cbn; auto.
Qed.

Lemma network_fetches_local effs :
  Forall local_effect effs -> network_fetches effs = 0%nat.
Proof.
  induction 1 as [|e effs He _ IH]; [reflexivity|].
  destruct e; cbn in *; tauto.
Qed.

(** A key in the cache: the stored entry is sent, no request is made and
    the state stays. *)
Lemma fetchImageData_hit imageRequest st cfg d :
  config st = Some cfg ->
  Map_get (cache_key (r_filename imageRequest) (showWidth cfg) (showHeight cfg))
          (imageCache st) = Some d ->
  fetchImageData host imageRequest st
  = (st,
     [fetching_line imageRequest; cached_line imageRequest;
      sendSocketNotification (IMAGE_DATA_RECEIVED (payload st d))],
     Normal tt).
Proof.
  intros Hcfg Hget. unfold fetchImageData. open_handlers.
  rewrite Hcfg. run. rewrite Hcfg. run. rewrite Hget. reflexivity.
Qed.

(** A key that is not in the cache: one GET request leaves. *)
Lemma fetchImageData_miss imageRequest st cfg rc enc :
  config st = Some cfg ->
  repositoryConfig cfg = Some rc ->
  Map_get (cache_key (r_filename imageRequest) (showWidth cfg) (showHeight cfg))
          (imageCache st) = None ->
  encodeURIComponent (template (r_filename imageRequest)) = Ok enc ->
  https_url_check host (path rc ++ js "/" ++ enc) = Ok tt ->
  fetchImageData host imageRequest st
  = (st,
     [fetching_line imageRequest;
      https_request (js "GET") (path rc ++ js "/" ++ enc)
        [(js "Authorization",
          js "Basic " ++ base64 (utf8_bytes (username rc ++ js ":" ++ password rc)))]
        60000],
     Normal tt).
Proof.
  intros Hcfg Hrc Hget Henc Hurl. unfold fetchImageData. open_handlers.
  rewrite Hcfg. run. rewrite Hcfg. run. rewrite Hget.
  do 3 (rewrite ?Hcfg; run; rewrite ?Hrc; run; rewrite ?Henc, ?Hurl; run).
  reflexivity.
Qed.

(** C7 (as amended).  Once the response to the first call has been
    handled with a status below 400, the entry is in the cache under the
    key of (identifier, width, height): the first call made one request to
    the repository, the second call makes none, sends the stored entry and
    leaves the state as it is.  And whenever the key is in the cache, a
    call is answered from it without a request. *)
Theorem second_call_served_from_cache :
  forall imageRequest response st cfg rc enc,
    config st = Some cfg ->
    repositoryConfig cfg = Some rc ->
    encodeURIComponent (template (r_filename imageRequest)) = Ok enc ->
    https_url_check host (path rc ++ js "/" ++ enc) = Ok tt ->
    (i_statusCode response <? 400)%N = true ->
    let cacheKey :=
      cache_key (r_filename imageRequest) (showWidth cfg) (showHeight cfg) in
    Map_get cacheKey (imageCache st) = None ->
    let '(st1, e1, c1) := fetchImageData host imageRequest st in
    let '(st2, e2, c2) :=
      handleImageDataResponse host response (r_filename imageRequest) cacheKey st1 in
    let '(st3, e3, c3) := fetchImageData host imageRequest st2 in
    c1 = Normal tt /\ c2 = Normal tt /\ c3 = Normal tt
    /\ network_fetches e1 = 1%nat
    /\ network_fetches (e1 ++ e2 ++ e3) = 1%nat
    /\ st3 = st2
    /\ (exists d,
          Map_get cacheKey (imageCache st2) = Some d
          /\ e3 = [fetching_line imageRequest; cached_line imageRequest;
                   sendSocketNotification (IMAGE_DATA_RECEIVED (payload st2 d))])
    /\ (forall st' d,
          config st' = Some cfg ->
          Map_get cacheKey (imageCache st') = Some d ->
          fetchImageData host imageRequest st'
          = (st',
             [fetching_line imageRequest; cached_line imageRequest;
              sendSocketNotification (IMAGE_DATA_RECEIVED (payload st' d))],
             Normal tt)).
Proof.
  intros imageRequest response st cfg rc enc Hcfg Hrc Henc Hurl Hstatus cacheKey Hmiss.
  rewrite (fetchImageData_miss imageRequest st Hcfg Hrc Hmiss Henc Hurl).
  destruct (handleImageDataResponse_stores response (r_filename imageRequest)
              cacheKey st Hstatus)
    as (st1 & effs1 & _ & Hcfg1 & _ & Hlocal & Hrun).
  cbn zeta in Hrun. rewrite Hrun.
  set (d := entry response (r_filename imageRequest) (List.length (store st))) in *.
  set (st2 := with_cache st1 (Map_set cacheKey d (evicted (imageCache st)))) in *.
  assert (Hcfg2 : config st2 = Some cfg) by (cbn; congruence).
  assert (Hget2 : Map_get cacheKey (imageCache st2) = Some d)
    by apply Map_get_set_same.
  rewrite (fetchImageData_hit imageRequest st2 Hcfg2 Hget2).
  do 4 (split; [reflexivity|]).
  split; [|split; [reflexivity|split]].
  - rewrite !network_fetches_app, (network_fetches_local Hlocal). reflexivity.
  - exists d. split; [exact Hget2 | reflexivity].
  - intros st' d' Hcfg' Hget'. now apply fetchImageData_hit with (cfg := cfg).
Qed.

End Cache.

(** The helper after fifty images, and the fifty-first: it is added and
    the first one stays. *)
Lemma cache_of_50_grows_to_51_witness :
  let st := Sample.fetched 50 in
  let st' := fst (fst (handleImageDataResponse Sample.host Sample.plain_response
                         (Sample.image_name 50) (Sample.image_key 50) st)) in
  Map_size (imageCache st) = 50%N
  /\ Map_get (Sample.image_key 50) (imageCache st) = None
  /\ Map_size (imageCache st') = 51%N
  /\ Map_keys (imageCache st') = Map_keys (imageCache st) ++ [Sample.image_key 50]
  /\ Map_first_key (imageCache st') = Map_first_key (imageCache st).
Proof.
  intros st st'.
  assert (H50 : Map_size (imageCache st) = 50%N) by (vm_compute; reflexivity).
  assert (Hfresh : Map_get (Sample.image_key 50) (imageCache st) = None)
    by (vm_compute; reflexivity).
  split; [exact H50|]. split; [exact Hfresh|].
  exact (cache_of_50_grows_to_51 Sample.host Sample.plain_response
           (Sample.image_name 50) (Sample.image_key 50) st eq_refl H50 Hfresh).
Defined.

(** The fifty-second image is the first to evict one: the oldest. *)
Example fifty_second_evicts_first :
  Map_size (imageCache (Sample.fetched 52)) = 51%N
  /\ Map_has (Sample.image_key 0) (imageCache (Sample.fetched 52)) = false
  /\ Map_first_key (imageCache (Sample.fetched 52)) = Some (Sample.image_key 1).
Proof. vm_compute. repeat split; reflexivity. Qed.

(** C7 (the claim as it stands fails).  Two calls for the same image
    with an empty cache, far from the bound, and two requests to the
    repository: when the server answers the first with 404, nothing is
    stored, and the second call fetches again; and when the second call
    comes before the response to the first, both miss the cache. *)
Lemma same_image_fetched_twice :
  let imageRequest := {| r_filename := Some (js "a.jpg"); r_index := 0 |} in
  let cacheKey := cache_key (Some (js "a.jpg")) 400 400 in
  let not_found := {| i_statusCode := 404; content_type := None; i_body := [] |} in
  Map_size (imageCache Sample.ready) = 0%N
  /\ (let '(st1, e1, c1) := fetchImageData Sample.host imageRequest Sample.ready in
      let '(st2, e2, c2) :=
        handleImageDataResponse Sample.host not_found (Some (js "a.jpg")) cacheKey st1 in
      let '(st3, e3, c3) := fetchImageData Sample.host imageRequest st2 in
      c1 = Normal tt /\ c2 = Normal tt /\ c3 = Normal tt
      /\ network_fetches (e1 ++ e2 ++ e3) = 2%nat)
  /\ (let '(st1, e1, c1) := fetchImageData Sample.host imageRequest Sample.ready in
      let '(st2, e2, c2) := fetchImageData Sample.host imageRequest st1 in
      c1 = Normal tt /\ c2 = Normal tt
      /\ network_fetches (e1 ++ e2) = 2%nat).
Proof. vm_compute. repeat split; reflexivity. Qed.

Lemma second_call_served_from_cache_witness :
  let imageRequest := {| r_filename := Some (js "a.jpg"); r_index := 0 |} in
  let cacheKey := cache_key (Some (js "a.jpg")) 400 400 in
  let '(st1, e1, c1) := fetchImageData Sample.host imageRequest Sample.ready in
  let '(st2, e2, c2) :=
    handleImageDataResponse Sample.host Sample.plain_response
      (Some (js "a.jpg")) cacheKey st1 in
  let '(st3, e3, c3) := fetchImageData Sample.host imageRequest st2 in
  network_fetches (e1 ++ e2 ++ e3) = 1%nat /\ st3 = st2.
Proof.
  pose proof (second_call_served_from_cache Sample.host
                {| r_filename := Some (js "a.jpg"); r_index := 0 |}
                Sample.plain_response Sample.ready
                (cfg := Sample.helper_config) (rc := Sample.repository)
                (enc := js "a.jpg")
                eq_refl eq_refl eq_refl eq_refl eq_refl eq_refl) as H.
  cbv zeta in *.
  destruct (fetchImageData Sample.host _ Sample.ready) as [[st1 e1] c1].
  destruct (handleImageDataResponse Sample.host _ _ _ st1) as [[st2 e2] c2].
  destruct (fetchImageData Sample.host _ st2) as [[st3 e3] c3].
  destruct H as (_ & _ & _ & _ & Hn & Hst & _).
  split; assumption.
Defined.

(** *** The listing *)

(** The notifications among the effects, in the order they were sent. *)
Fixpoint sent (effs : list Effect) : list Notification :=
  match effs with
  | [] => []
  | sendSocketNotification n :: effs' => n :: sent effs'
  | _ :: effs' => sent effs'
  end.

Lemma sent_app e1 e2 : sent (e1 ++ e2) = sent e1 ++ sent e2.
Proof.
  induction e1 as [|[] e1 IH]; cbn; auto. now rewrite IH.
Qed.

Lemma sent_logs effs : Forall is_log effs -> sent effs = [].
Proof.
  induction 1 as [|e effs He _ IH]; [reflexivity|].
  destruct e; cbn in *; tauto.
Qed.

Definition no_images : Notification :=
  ERROR (js "No images found in the specified Nextcloud path") None.

Definition parse_failed (details : jsstring) : Notification :=
  ERROR (js "Failed to parse Nextcloud response") (Some details).

Definition parse_error_line (e : exn) : Effect :=
  Log error (tagged (js "Error parsing image list: " ++ message e)).

Section Listing.
Variable host : Host.

Ltac logs_step :=
  first
    [ apply (@Keeps_ret _ only_logs_refl)
    | apply Logs_log
    | apply (@Keeps_lift _ only_logs_refl)
    | apply (@Keeps_repository_field _ only_logs_refl only_logs_trans)
    | apply (@Keeps_bind _ only_logs_trans); [|intros ?]
    | match goal with
      | |- Keeps _ (if ?b then _ else _) => destruct b
      | |- Keeps _ (match ?x with _ => _ end) => destruct x
      end ].

Lemma Logs_href_entry basePath excludePatterns m :
  Logs (href_entry basePath excludePatterns m).
Proof. unfold Logs, href_entry. cbv zeta. repeat logs_step. Qed.

Lemma Logs_href_loop basePath excludePatterns hrefMatches :
  forall imageList, Logs (href_loop basePath excludePatterns hrefMatches imageList).
Proof.
  induction hrefMatches as [|m rest IH]; intros imageList; cbn [href_loop].
  - apply (@Keeps_ret _ only_logs_refl).
  - apply (@Keeps_bind _ only_logs_trans); [apply Logs_href_entry|].
    intros [filename|]; apply IH.
Qed.

Lemma Logs_parse_hrefs responseBody : Logs (parse_hrefs host responseBody).
Proof.
  unfold Logs, parse_hrefs.
  destruct (match_href_g responseBody 0) as [|m ms].
  - repeat logs_step.
  - do 4 (apply (@Keeps_bind _ only_logs_trans); [now repeat logs_step|intros ?]).
    apply Logs_href_loop.
Qed.

(** [parseImageListFromResponse] returns a list for every body: what the
    statements inside [try] return, or the empty list when they throw.  It
    writes log lines and changes nothing. *)
Lemma parseImageListFromResponse_returns responseBody st :
  exists logs c,
    parse_hrefs host responseBody st = (st, logs, c)
    /\ Forall is_log logs
    /\ match c with
       | Normal imageList =>
           parseImageListFromResponse host responseBody st
           = (st, logs, Normal imageList)
       | Thrown e =>
           parseImageListFromResponse host responseBody st
           = (st, logs ++ [parse_error_line e], Normal [])
       | Looping => False
       end.
Proof.
  destruct (Logs_parse_hrefs responseBody st) as (st' & logs & c & Hrun & [-> Hlogs] & Hc).
  exists logs, c. split; [exact Hrun|]. split; [exact Hlogs|].
  unfold parseImageListFromResponse, try_catch. rewrite Hrun.
  destruct c as [l|e|]; [reflexivity|reflexivity|congruence].
Qed.

(** The "end" listener on a status below 400. *)
Lemma handleImageListResponse_run response st effs imageList :
  (statusCode response <? 400)%N = true ->
  parseImageListFromResponse host (body response) st = (st, effs, Normal imageList) ->
  handleImageListResponse host response st
  = (st,
     effs ++ match imageList with
             | [] =>
                 [Log warn (tagged (js "No images found in the specified path"));
                  sendSocketNotification no_images]
             | _ =>
                 [Log info (tagged (js "Successfully found "
                                    ++ N_to_string (N.of_nat (List.length imageList))
                                    ++ js " images"));
                  sendSocketNotification (IMAGE_LIST_RECEIVED imageList)]
             end,
     Normal tt).
Proof.
  intros Hstatus Hparse. unfold handleImageListResponse.
  rewrite N.leb_antisym, Hstatus. cbn [negb].
  unfold try_catch at 1. unfold bindM at 1. cbn [ret].
  unfold bindM at 1. rewrite Hparse.
  destruct imageList; reflexivity.
Qed.

(** The "end" listener on a status of 400 or more: the only way to the
    "Failed to parse" notification. *)
Lemma handleImageListResponse_http_error response st :
  (400 <=? statusCode response)%N = true ->
  handleImageListResponse host response st
  = (st,
     [Log error (tagged (js "Failed to parse image list: "
                         ++ (js "HTTP " ++ N_to_string (statusCode response)
                             ++ js ": " ++ statusMessage response)));
      sendSocketNotification
        (parse_failed (js "HTTP " ++ N_to_string (statusCode response)
                       ++ js ": " ++ statusMessage response))],
     Normal tt).
Proof.
  intros Hstatus. unfold handleImageListResponse. rewrite Hstatus. reflexivity.
Qed.

(** C2 (the code against the claim).  On a status below 400 the "end"
    listener never sends the "Failed to parse" notification.  When the
    statements of the parser throw (an href that is not a valid escape
    sequence, a pattern that is not a regular expression, a path that is
    not a URL), the parser logs the error and returns the empty list, and
    the listener sends the notification "No images found in the specified
    Nextcloud path" - the one it sends for a listing that was parsed and
    holds no image. *)
Theorem parse_failure_reported_as_no_images :
  forall (response : ListResponse) (st : State),
    (statusCode response <? 400)%N = true ->
    exists logs c effs,
      parse_hrefs host (body response) st = (st, logs, c)
      /\ handleImageListResponse host response st = (st, effs, Normal tt)
      /\ match c with
         | Normal [] => sent effs = [no_images]
         | Normal (f :: l) => sent effs = [IMAGE_LIST_RECEIVED (f :: l)]
         | Thrown e => sent effs = [no_images] /\ In (parse_error_line e) effs
         | Looping => False
         end.
Proof.
  intros response st Hstatus.
  destruct (parseImageListFromResponse_returns (body response) st)
    as (logs & c & Hrun & Hlogs & Hparse).
  exists logs, c. destruct c as [imageList|e|]; [| |contradiction].
  - eexists. split; [exact Hrun|].
    split; [apply (handleImageListResponse_run response Hstatus Hparse)|].
    rewrite sent_app, (sent_logs Hlogs). now destruct imageList.
  - eexists. split; [exact Hrun|].
    split; [apply (handleImageListResponse_run response Hstatus Hparse)|].
    rewrite !sent_app, (sent_logs Hlogs). split; [reflexivity|].
    apply in_or_app. left. apply in_or_app. right. now left.
Qed.

(** **** The identifiers a listing yields *)

(** The entries of a list that [f] maps to a value, in order. *)
Fixpoint choose {A B} (f : A -> option B) (l : list A) : list B :=
  match l with
  | [] => []
  | x :: l' =>
      match f x with
      | Some y => y :: choose f l'
      | None => choose f l'
      end
  end.

(** The href entries of a listing, in the order of the document. *)
Definition href_entries (responseBody : jsstring) : list jsstring :=
  List.map replace_href_group (match_href_g responseBody 0).

(** The entry is the base directory itself. *)
Definition is_base (basePath href : jsstring) : bool :=
  str_eqb href basePath || str_eqb href (basePath ++ js "/").

Definition decoded (basePath href : jsstring) : result jsstring :=
  decodeURIComponent (strip_leading_slashes (remove_first basePath href)).

(** The identifier of an entry: the base path stripped and the rest
    URL-decoded; the base directory and an entry that ends in a path
    separator have none. *)
Definition identifier (basePath href : jsstring) : option jsstring :=
  if is_base basePath href then None
  else
    match decoded basePath href with
    | Ok f => if is_empty f || endsWith_slash f then None else Some f
    | Throw _ => None
    end.

(** The extension is one of the image extensions, whatever its case. *)
Definition image_extension (f : jsstring) : bool :=
  includes imageExtensions (toLowerCase (extname f)).

(** Some exclusion pattern matches. *)
Definition excluded (excludePatterns : list (jsstring -> bool)) (f : jsstring) : bool :=
  existsb (fun pattern => pattern f) excludePatterns.

(** The M identifiers of a listing. *)
Definition qualifying (basePath : jsstring) (excludePatterns : list (jsstring -> bool))
    (responseBody : jsstring) : list jsstring :=
  filter (fun f => image_extension f && negb (excluded excludePatterns f))
         (choose (identifier basePath) (href_entries responseBody)).

(** The entry is the base directory or its escapes are well formed. *)
Definition decodes (basePath href : jsstring) : bool :=
  is_base basePath href
  || match decoded basePath href with
     | Ok _ => true
     | Throw _ => false
     end.

Definition keep (basePath : jsstring) (excludePatterns : list (jsstring -> bool))
    (href : jsstring) : option jsstring :=
  match identifier basePath href with
  | Some f =>
      if image_extension f && negb (excluded excludePatterns f) then Some f else None
  | None => None
  end.

(** The entries are the groups of the matches. *)
Lemma href_entries_groups responseBody h :
  In h (href_entries responseBody) ->
  In (whole_match h) (match_href_g responseBody 0)
  /\ h <> [] /\ Forall (fun c => c <> 60%N) h.
Proof.
  unfold href_entries. intros Hin. apply in_map_iff in Hin as (m & <- & Hm).
  destruct (match_href_g_matches _ _ _ Hm) as (cap & -> & Hne & Hcap).
  rewrite (replace_href_group_of_match Hne Hcap). auto.
Qed.

Lemma filter_choose {A B} (f : A -> option B) (p : B -> bool) (l : list A) :
  filter p (choose f l)
  = choose (fun x => match f x with
                     | Some y => if p y then Some y else None
                     | None => None
                     end) l.
Proof.
  induction l as [|x l IH]; cbn; [reflexivity|].
  destruct (f x) as [y|]; cbn; [|exact IH].
  destruct (p y); now rewrite IH.
Qed.

Lemma qualifying_keep basePath excludePatterns responseBody :
  qualifying basePath excludePatterns responseBody
  = choose (keep basePath excludePatterns) (href_entries responseBody).
Proof. unfold qualifying. now rewrite filter_choose. Qed.

Lemma imageExtensions_shape x :
  In x imageExtensions -> exists t, x = 46%N :: t /\ t <> [] /\ Forall plain t.
Proof.
  unfold imageExtensions, js. cbn. intros H.
  repeat (destruct H as [<- | H];
          [eexists; split; [reflexivity|];
           split; [discriminate | repeat constructor; discriminate] |]).
  contradiction.
Qed.

Lemma toLowerCase_plain e : Forall plain (toLowerCase e) -> Forall plain e.
Proof.
  induction e as [|c e IH]; cbn; intros H; inversion H; subst; constructor; auto.
  now apply lower_unit_plain.
Qed.

(** A name that ends in one of the extensions, whatever its case, after a
    code unit other than the slash, has an image extension.  (A name that
    is the extension alone, as ".jpg" or "album/.jpg", has none: see
    [dot_names_have_no_extension].) *)
Lemma image_extension_of_suffix (stem : jsstring) (c : N) (ext : jsstring) :
  c <> 47%N ->
  includes imageExtensions (toLowerCase ext) = true ->
  image_extension (stem ++ c :: ext) = true.
Proof.
  intros Hc Hin. unfold includes in Hin.
  apply existsb_exists in Hin as (x & Hx & Heq).
  apply str_eqb_eq in Heq.
  destruct (imageExtensions_shape Hx) as (t & -> & Ht & Hplain).
  destruct ext as [|c0 e]; [discriminate|].
  cbn [toLowerCase List.map] in Heq. injection Heq as Hc0 He.
  apply lower_unit_dot in Hc0. subst c0.
  assert (Hlen : e <> []) by (intros ->; cbn in He; congruence).
  assert (Hpe : Forall plain e).
  { apply toLowerCase_plain. unfold toLowerCase. now rewrite He. }
  unfold image_extension. rewrite (extname_suffix stem Hc Hlen Hpe).
  unfold includes. apply existsb_exists. exists (46%N :: t).
  split; [exact Hx|]. apply str_eqb_eq. cbn [toLowerCase List.map].
  now rewrite He.
Qed.

(** One turn of the loop on an entry that decodes. *)
Lemma href_entry_run basePath excludePatterns m st :
  decodes basePath (replace_href_group m) = true ->
  exists logs,
    href_entry basePath excludePatterns m st
    = (st, logs, Normal (keep basePath excludePatterns (replace_href_group m)))
    /\ Forall is_log logs.
Proof.
  unfold decodes, keep, identifier, href_entry, is_base, decoded. cbv zeta.
  set (href := replace_href_group m).
  destruct (str_eqb href basePath || str_eqb href (basePath ++ js "/")).
  - intros _. exists []. split; [reflexivity | constructor].
  - cbn [orb].
    destruct (decodeURIComponent (strip_leading_slashes (remove_first basePath href)))
      as [f|e]; [intros _|discriminate].
    open_handlers. run.
    destruct (is_empty f || endsWith_slash f).
    { exists []. split; [reflexivity | constructor]. }
    fold (image_extension f). fold (excluded excludePatterns f).
    destruct (image_extension f); cbn [negb andb].
    2: { exists []. split; [reflexivity | constructor]. }
    destruct (excluded excludePatterns f); cbn [negb].
    + eexists. split; [reflexivity | repeat constructor].
    + exists []. split; [reflexivity | constructor].
Qed.

Lemma href_loop_run basePath excludePatterns st hrefMatches :
  forallb (decodes basePath) (List.map replace_href_group hrefMatches) = true ->
  forall imageList,
  exists logs,
    href_loop basePath excludePatterns hrefMatches imageList st
    = (st, logs,
       Normal (imageList
               ++ choose (keep basePath excludePatterns)
                         (List.map replace_href_group hrefMatches)))
    /\ Forall is_log logs.
Proof.
  induction hrefMatches as [|m rest IH]; cbn [List.map forallb href_loop choose].
  - intros _ imageList. exists []. rewrite app_nil_r. split; [reflexivity | constructor].
  - intros H imageList. apply andb_true_iff in H as [Hm Hrest].
    destruct (href_entry_run basePath excludePatterns m st Hm) as (l1 & Hrun & Hl1).
    unfold bindM at 1. rewrite Hrun.
    destruct (keep basePath excludePatterns (replace_href_group m)) as [f|].
    + destruct (IH Hrest (imageList ++ [f])) as (l2 & -> & Hl2).
      exists (l1 ++ l2). rewrite <- app_assoc. split; [reflexivity|].
      apply Forall_app; split; assumption.
    + destruct (IH Hrest imageList) as (l2 & -> & Hl2).
      exists (l1 ++ l2). split; [reflexivity|].
      apply Forall_app; split; assumption.
Qed.

(** C3 (as amended).  When the repository path parses as a URL, every
    exclusion pattern compiles to a regular expression and every href
    entry other than the base directory is a well-formed escape sequence,
    [parseImageListFromResponse] returns, in the order of the listing,
    exactly the identifiers of the entries (base path stripped,
    URL-decoded, the base directory and the entries that end in a path
    separator left out) whose extension, lower-cased, is one of .jpg .jpeg
    .png .gif .bmp .webp .tiff .tif and which no exclusion pattern
    matches. *)
Theorem listing_yields_the_qualifying_identifiers :
  forall responseBody st cfg rc basePath excludePatterns,
    config st = Some cfg ->
    repositoryConfig cfg = Some rc ->
    URL_pathname host (path rc) = Ok basePath ->
    compile_patterns host (match exclude rc with Some l => l | None => [] end)
    = Ok excludePatterns ->
    forallb (decodes basePath) (href_entries responseBody) = true ->
    exists logs,
      parseImageListFromResponse host responseBody st
      = (st, logs, Normal (qualifying basePath excludePatterns responseBody))
      /\ Forall is_log logs.
Proof.
  intros responseBody st cfg rc basePath excludePatterns Hcfg Hrc Hurl Hpats Hdec.
  rewrite qualifying_keep. unfold href_entries in *.
  unfold parseImageListFromResponse, try_catch, parse_hrefs.
  destruct (match_href_g responseBody 0) as [|m ms] eqn:Hm.
  - eexists. split; [reflexivity | repeat constructor].
  - destruct (href_loop_run basePath excludePatterns st (m :: ms) Hdec [])
      as (logs & Hloop & Hlogs).
    exists logs. split; [|exact Hlogs].
    open_handlers. rewrite Hcfg. run. rewrite Hrc. run. rewrite Hurl. run.
    rewrite Hcfg. run. rewrite Hrc. run. rewrite Hpats. run.
    rewrite Hloop. reflexivity.
Qed.

End Listing.

(** *** The bound over all events *)

Section Bound.
Variable host : Host.

Definition cache_kept (st st' : State) (effs : list Effect) : Prop :=
  imageCache st' = imageCache st.

Lemma cache_kept_refl st : cache_kept st st [].
Proof. reflexivity. Qed.

Lemma cache_kept_trans st1 st2 st3 e1 e2 :
  cache_kept st1 st2 e1 -> cache_kept st2 st3 e2 -> cache_kept st1 st3 (e1 ++ e2).
Proof. unfold cache_kept. congruence. Qed.

Lemma Keeps_cache_emit e : Keeps cache_kept (emit e).
Proof.
  intros st. exists st, [e], (Normal tt). repeat split; discriminate.
Qed.

Ltac cache_step :=
  first
    [ apply (@Keeps_ret _ cache_kept_refl)
    | apply (@Keeps_throw _ cache_kept_refl)
    | apply Keeps_cache_emit
    | apply (@Keeps_lift _ cache_kept_refl)
    | apply (@Keeps_get _ cache_kept_refl)
    | apply (@Keeps_config_field _ cache_kept_refl cache_kept_trans)
    | apply (@Keeps_repository_field _ cache_kept_refl cache_kept_trans)
    | apply (@Keeps_bind _ cache_kept_trans); [|intros ?]
    | apply (@Keeps_try _ cache_kept_trans); [|intros ?]
    | match goal with
      | |- Keeps _ (if ?b then _ else _) => destruct b
      | |- Keeps _ (match ?x with _ => _ end) => destruct x
      end ].

Lemma Keeps_cache_listing responseBody :
  Keeps cache_kept (parseImageListFromResponse host responseBody).
Proof.
  intros st.
  destruct (parseImageListFromResponse_returns host responseBody st)
    as (logs & c & _ & _ & Hc).
  destruct c as [l|e|]; [| |contradiction];
    rewrite Hc; eexists _, _, _; repeat split; discriminate.
Qed.

Lemma Keeps_cache_settle r outcome : Keeps cache_kept (settle r outcome).
Proof.
  unfold settle, update_cell, log.
  apply (@Keeps_bind _ cache_kept_trans); [apply (@Keeps_get _ cache_kept_refl)|].
  intros st0. destruct (nth_error (store st0) r) as [[ex pr]|];
    [destruct pr|]; cbn [promise]; try apply (@Keeps_ret _ cache_kept_refl).
  destruct outcome;
    intros st; eexists _, _, _; (split; [reflexivity|]);
      (split; [reflexivity | discriminate]).
Qed.

Lemma Keeps_cache_init c : Keeps cache_kept (handleConfigInit host c).
Proof.
  intros st. unfold handleConfigInit.
  set (st' := {| config := Some c; imageCache := imageCache st;
                 isInitialized := true; store := store st |}).
  assert (Hv : Keeps cache_kept
                 (log info (js "Configuration initialized successfully") ;;
                  validateConfiguration host)).
  { unfold validateConfiguration, log. repeat cache_step. }
  destruct (Hv st') as (s2 & e2 & c2 & Hrun & Hcache & Hc).
  unfold try_catch. unfold bindM at 1. cbn [get]. unfold bindM at 1. cbn [put].
  fold st'. rewrite Hrun. unfold cache_kept in Hcache. cbn in Hcache.
  destruct c2 as [[]|e|]; [| |congruence];
    eexists _, _, _; (split; [reflexivity|]);
      (split; [exact Hcache | discriminate]).
Qed.

(** Only the handling of an image response and the start and the stop of
    the helper change the cache. *)
Lemma dispatch_keeps_cache ev st :
  match ev with
  | ImageResponded _ _ _ => True
  | Started | Stopped => imageCache (fst (fst (dispatch host ev st))) = []
  | _ => imageCache (fst (fst (dispatch host ev st))) = imageCache st
  end.
Proof.
  assert (Hk : forall m : H unit,
             Keeps cache_kept m -> imageCache (fst (fst (m st))) = imageCache st).
  { intros m Hm. destruct (Hm st) as (st' & effs & c & -> & Hcache & _). exact Hcache. }
  destruct ev; cbn [dispatch]; try exact I; try reflexivity; apply Hk.
  - (* socketNotificationReceived *)
    unfold socketNotificationReceived, log.
    apply (@Keeps_bind _ cache_kept_trans); [apply Keeps_cache_emit|]. intros _.
    destruct i.
    + apply Keeps_cache_init.
    + unfold fetchImageList, createAuthHeader, log, send. repeat cache_step.
    + unfold fetchImageData, createAuthHeader, log, send. repeat cache_step.
    + apply Keeps_cache_emit.
  - unfold handleImageListResponse, log, send.
    apply (@Keeps_try _ cache_kept_trans); [|intros e; repeat cache_step].
    apply (@Keeps_bind _ cache_kept_trans); [repeat cache_step|]. intros _.
    apply (@Keeps_bind _ cache_kept_trans); [apply Keeps_cache_listing|].
    intros l. repeat cache_step.
  - apply Keeps_cache_settle.
  - apply Keeps_cache_settle.
  - apply Keeps_cache_settle.
Qed.

(** Whatever happens after the start of the helper, the cache holds at
    most 51 entries. *)
Lemma cache_bound_invariant evs :
  forall st,
    (Map_size (imageCache st) <= 51)%N ->
    (Map_size (imageCache (after host evs st)) <= 51)%N.
Proof.
  induction evs as [|ev evs IH]; intros st Hst; cbn [after]; [exact Hst|].
  apply IH.
  pose proof (dispatch_keeps_cache ev st) as Hev.
  destruct ev; try (rewrite Hev; first [exact Hst | cbn; lia]).
  apply cache_at_most_51. exact Hst.
Qed.

End Bound.


(** A file that is no JPEG: the parser throws and the record is empty;
    and a rejection when the service knows no place. *)
Lemma extraction_and_geocoding_failures_are_swallowed_witness :
  (exists st' effs,
     extractExifData Sample.host (i_body Sample.plain_response) Sample.ready
     = (st', effs, Normal 0%nat)
     /\ deref st' 0 = null_exif)
  /\ reverseGeocode_response Sample.host 0 Sample.unknown_body Sample.ready
     = settle 0 (Throw (new_Error (js "No location found"))) Sample.ready.
Proof.
  destruct (extraction_and_geocoding_failures_are_swallowed Sample.host
              (i_body Sample.plain_response) Sample.ready)
    as ((st' & effs & Hrun & _ & _ & _ & _ & Hnull & _) & _ & Hnone).
  split.
  - exists st', effs. split; [exact Hrun|].
    apply (Hnull (new_Error (js "Invalid JPEG section offset"))). reflexivity.
  - apply (Hnone 0%nat Sample.unknown_body
             (JObject [(js "error", JString (js "Unable to geocode"))]));
      [reflexivity | discriminate | reflexivity].
Defined.

(** **** The listing on the example host *)

Definition multi_status (responseBody : jsstring) : ListResponse :=
  {| statusCode := 207; statusMessage := js "Multi-Status"; body := responseBody |}.

(** A listing with the directory itself, two images, an image in a
    folder named Trash, a folder and a text file. *)
Definition album : jsstring :=
  Sample.href "" ++ Sample.href "a.JPG" ++ Sample.href "Trash/photo.jpg"
  ++ Sample.href "sub/" ++ Sample.href "b%20c.png" ++ Sample.href "notes.txt".

(** A listing with an image and a name the server escaped in Latin-1. *)
Definition latin1 : jsstring := Sample.href "a.jpg" ++ Sample.href "caf%E9.jpg".

(** A listing that holds no image. *)
Definition no_image : jsstring := Sample.href "" ++ Sample.href "sub/".

Lemma listing_yields_the_qualifying_identifiers_witness :
  qualifying Sample.base_path [Sample.search_i (js "trash")] album
  = [js "a.JPG"; js "b c.png"]
  /\ excluded [Sample.search_i (js "trash")] (js "Trash/photo.jpg") = true
  /\ exists logs,
       parseImageListFromResponse Sample.host album Sample.ready
       = (Sample.ready, logs,
          Normal (qualifying Sample.base_path [Sample.search_i (js "trash")] album))
       /\ Forall is_log logs.
Proof.
  split; [vm_compute; reflexivity|]. split; [vm_compute; reflexivity|].
  apply (listing_yields_the_qualifying_identifiers Sample.host album Sample.ready
           (cfg := Sample.helper_config) (rc := Sample.repository)
           (basePath := Sample.base_path)
           (excludePatterns := [Sample.search_i (js "trash")])
           eq_refl eq_refl eq_refl eq_refl).
  vm_compute; reflexivity.
Defined.

(** C3 (the claim as it stands fails).  Of the two entries of the
    listing, a.jpg qualifies; the escape of the other is not UTF-8, so
    decoding it throws, and the parser returns the empty list. *)
Lemma one_bad_escape_empties_the_listing :
  qualifying Sample.base_path [Sample.search_i (js "trash")] latin1 = [js "a.jpg"]
  /\ parseImageListFromResponse Sample.host latin1 Sample.ready
     = (Sample.ready, [parse_error_line uri_malformed], Normal []).
Proof. vm_compute. split; reflexivity. Qed.

(** A name that consists of the extension has no extension. *)
Example dot_names_have_no_extension :
  extname (js ".jpg") = [] /\ extname (js "album/.jpg") = []
  /\ extname (js "a.tar.GZ") = js ".GZ"
  /\ image_extension (js "album/.jpg") = false
  /\ image_extension (js "album/x.JPEG") = true.
Proof. vm_compute. repeat split; reflexivity. Qed.

Lemma parse_failure_reported_as_no_images_witness :
  parse_hrefs Sample.host latin1 Sample.ready
  = (Sample.ready, [], Thrown uri_malformed)
  /\ parse_hrefs Sample.host no_image Sample.ready = (Sample.ready, [], Normal [])
  /\ sent (snd (fst (handleImageListResponse Sample.host (multi_status latin1)
                       Sample.ready))) = [no_images]
  /\ sent (snd (fst (handleImageListResponse Sample.host (multi_status no_image)
                       Sample.ready))) = [no_images].
Proof.
  assert (Hbad : parse_hrefs Sample.host latin1 Sample.ready
                 = (Sample.ready, [], Thrown uri_malformed))
    by (vm_compute; reflexivity).
  assert (Hnone : parse_hrefs Sample.host no_image Sample.ready
                  = (Sample.ready, [], Normal []))
    by (vm_compute; reflexivity).
  split; [exact Hbad|]. split; [exact Hnone|]. split.
  - destruct (parse_failure_reported_as_no_images Sample.host
                (multi_status latin1) Sample.ready eq_refl)
      as (logs & c & effs & Hrun & Hhandle & Hc).
    cbn [body multi_status] in Hrun. rewrite Hbad in Hrun.
    injection Hrun as <- <-. rewrite Hhandle. exact (proj1 Hc).
  - destruct (parse_failure_reported_as_no_images Sample.host
                (multi_status no_image) Sample.ready eq_refl)
      as (logs & c & effs & Hrun & Hhandle & Hc).
    cbn [body multi_status] in Hrun. rewrite Hnone in Hrun.
    injection Hrun as <- <-. rewrite Hhandle. exact Hc.
Defined.

(** The whole trace of the listener on the listing with the bad escape. *)
Example bad_escape_trace :
  handleImageListResponse Sample.host (multi_status latin1) Sample.ready
  = (Sample.ready,
     [parse_error_line uri_malformed;
      Log warn (tagged (js "No images found in the specified path"));
      sendSocketNotification no_images],
     Normal tt).
Proof. vm_compute. reflexivity. Qed.

(** A pattern written as a file glob is no regular expression: the
    listing is lost in the same way. *)
Example glob_pattern_empties_the_listing :
  let st := {| config := Some {| repositoryConfig :=
                                    Some {| path := Sample.repo_url;
                                            username := js "anna";
                                            password := js "secret";
                                            recursive := false;
                                            exclude := Some [js "*.tmp"] |};
                                  showWidth := 400; showHeight := 400;
                                  enableGeocoding := true |};
               imageCache := []; isInitialized := true; store := [] |} in
  sent (snd (fst (handleImageListResponse Sample.host (multi_status album) st)))
  = [no_images].
Proof. vm_compute. reflexivity. Qed.

(** The geocoding service knows no place: the promise is rejected, the
    location stays null and nothing is sent. *)
Example no_location_found :
  let '(st1, e1, c1) :=
    handleImageDataResponse Sample.host
      {| i_statusCode := 200; content_type := Some (js "image/jpeg");
         i_body := Sample.tagged_jpeg |}
      (Some (js "a.jpg")) (cache_key (Some (js "a.jpg")) 400 400) Sample.ready in
  let '(st2, e2, c2) := reverseGeocode_response Sample.host 0 Sample.unknown_body st1 in
  let '(st3, e3, c3) := reverseGeocode_response Sample.host 0 Sample.paris_body st2 in
  option_map promise (nth_error (store st1) 0) = Some Pending
  /\ e2 = [geocoding_failed_line (new_Error (js "No location found"))]
  /\ c2 = Normal tt
  /\ location (deref st2 0) = None
  /\ option_map promise (nth_error (store st2) 0) = Some Rejected
  /\ (st3, e3, c3) = (st2, [], Normal tt).
Proof. vm_compute. repeat split; reflexivity. Qed.

Section Initialization.
Variable host : Host.

(** C10.  Before the configuration is initialized ([start] leaves
    [config] null and [isInitialized] false), [fetchImageList] sees the
    flag, logs that the helper is not initialized and returns, with no
    request and no change of state; [fetchImageData] has no such guard: it
    reads [showWidth] of the null configuration and throws a TypeError,
    with no error notification sent. *)
Theorem uninitialized_list_guarded_image_throws :
  forall (st : State) (imageRequest : ImageRequest),
    isInitialized st = false ->
    config st = None ->
    fetchImageList host st
    = (st,
       [Log error (tagged (js "Helper not initialized, cannot fetch image list"))],
       Normal tt)
    /\ fetchImageData host imageRequest st
       = (st,
          [Log debug (tagged (js "Fetching image data for: "
                              ++ template (r_filename imageRequest)))],
          Thrown (cannot_read "null" "showWidth"))
    /\ socketNotificationReceived host (FETCH_IMAGE imageRequest) st
       = (st,
          [Log debug (tagged (js "Received notification: " ++ js "FETCH_IMAGE"));
           Log debug (tagged (js "Fetching image data for: "
                              ++ template (r_filename imageRequest)))],
          Thrown (cannot_read "null" "showWidth")).
Proof.
  intros st imageRequest Hinit Hconfig.
  unfold socketNotificationReceived, fetchImageList, fetchImageData,
    config_field, log, bindM, get, emit, throw, ret.
  rewrite Hinit, Hconfig. cbn [negb notification_name app].
  repeat split; reflexivity.
Qed.

End Initialization.

(** The state [start] leaves is such a state. *)
Lemma uninitialized_list_guarded_image_throws_witness :
  isInitialized initial = false
  /\ config initial = None
  /\ fst (fst (start initial)) = initial
  /\ fetchImageList Sample.host initial
     = (initial,
        [Log error (tagged (js "Helper not initialized, cannot fetch image list"))],
        Normal tt)
  /\ fetchImageData Sample.host
       {| r_filename := Some (js "a.jpg"); r_index := 0 |} initial
     = (initial,
        [Log debug (tagged (js "Fetching image data for: " ++ js "a.jpg"))],
        Thrown (cannot_read "null" "showWidth")).
Proof.
  split; [reflexivity|]. split; [reflexivity|]. split; [reflexivity|].
  destruct (uninitialized_list_guarded_image_throws Sample.host initial
              {| r_filename := Some (js "a.jpg"); r_index := 0 |}
              eq_refl eq_refl) as (Hl & Hi & _).
  split; [exact Hl | exact Hi].
Defined.

End HelperFacts.

(* ================================================================== *)
(** ** Properties of the front-end module *)
(* ================================================================== *)

Module FrontFacts.
Import JS Handler Front.
Local Open Scope handler_scope.

Ltac open_handlers :=
  unfold statusIcon, clear_updateTimer, new_handle, modify, log, send,
    try_catch, bindM, get, put, emit, ret, throw, lift, loops.

Ltac run := cbn beta iota zeta delta [app fst snd].

(** The requests for an image among the effects. *)
Fixpoint requested (effs : list Effect) : list Helper.ImageRequest :=
  match effs with
  | [] => []
  | sendSocketNotification (Helper.FETCH_IMAGE r) :: effs' => r :: requested effs'
  | _ :: effs' => requested effs'
  end.

(** Everything sent to the helper. *)
Fixpoint sent (effs : list Effect) : list Helper.Incoming :=
  match effs with
  | [] => []
  | sendSocketNotification n :: effs' => n :: sent effs'
  | _ :: effs' => sent effs'
  end.

Definition request (l : list jsstring) (i : Z) : Helper.ImageRequest :=
  {| Helper.r_filename := element l i; Helper.r_index := i |}.

(** The effects of an advance that picked [r]. *)
Definition loading (r : Helper.ImageRequest) : list Effect :=
  [Log debug (tagged (js "Loading image: " ++ Helper.template (Helper.r_filename r)));
   sendSocketNotification (Helper.FETCH_IMAGE r)].

Definition skipped : Effect :=
  Log debug (tagged (js "Animation in progress, skipping load request")).

Definition size (st : State) : Z := Z.of_nat (List.length (imageList st)).

(** *** The product of Numbers *)

Section Numbers.
Local Open Scope Q_scope.

Lemma pow2_pos (e : Z) : 0 < 2 ^ e.
Proof. apply Qpower_0_lt. reflexivity. Qed.

Lemma pow2_Z (k : Z) : (0 <= k)%Z -> 2 ^ k == inject_Z (2 ^ k).
Proof. intros Hk. symmetry. apply (Zpower_Qpower 2 k Hk). Qed.

Lemma pow2_le (a b : Z) : (a <= b)%Z -> 2 ^ a <= 2 ^ b.
Proof. intros H. apply Qpower_le_compat_l; [exact H | discriminate]. Qed.

Lemma pow2_lt (a b : Z) : (a < b)%Z -> 2 ^ a < 2 ^ b.
Proof. intros H. apply Qpower_lt_compat_l; [exact H | reflexivity]. Qed.

Lemma pow2_plus (a b : Z) : 2 ^ (a + b) == 2 ^ a * 2 ^ b.
Proof. apply Qpower_plus. discriminate. Qed.

(** The binade of a positive rational starts at or below it and ends
    above it. *)
Lemma binade_le (q : Q) : 0 < q -> 2 ^ binade q <= q.
Proof.
  intros Hq. unfold binade.
  set (c := (Z.log2 (Qnum q) - Z.log2 (Z.pos (Qden q)))%Z).
  destruct (Qle_bool (2 ^ c) q) eqn:Hc.
  - now apply Qle_bool_iff.
  - destruct q as [a b]. cbn [Qnum Qden].
    assert (Ha : (0 < a)%Z) by (unfold Qlt in Hq; cbn in Hq; lia).
    pose proof (Z.log2_spec a Ha) as [Hla _].
    pose proof (Z.log2_spec (Z.pos b) eq_refl) as [_ Hlb].
    pose proof (Z.log2_nonneg a) as Hna.
    pose proof (Z.log2_nonneg (Z.pos b)) as Hnb.
    cbn [Qnum Qden] in c. replace (c - 1)%Z with (Z.log2 a + - Z.succ (Z.log2 (Z.pos b)))%Z by (subst c; lia).
    rewrite pow2_plus, Qpower_opp, !pow2_Z by lia.
    set (x := (2 ^ Z.log2 a)%Z) in *. set (y := (2 ^ Z.succ (Z.log2 (Z.pos b)))%Z) in *.
    apply Qle_shift_div_r with (b := inject_Z y) (a := inject_Z x) (c := a # b).
    + unfold Qlt; cbn; lia.
    + unfold Qle; cbn. nia.
Qed.

Lemma binade_lt (q : Q) : 0 < q -> q < 2 ^ (binade q + 1).
Proof.
  intros Hq. unfold binade.
  set (c := (Z.log2 (Qnum q) - Z.log2 (Z.pos (Qden q)))%Z).
  destruct (Qle_bool (2 ^ c) q) eqn:Hc.
  - destruct q as [a b]. cbn [Qnum Qden] in c.
    assert (Ha : (0 < a)%Z) by (unfold Qlt in Hq; cbn in Hq; lia).
    pose proof (Z.log2_spec a Ha) as [_ Hla].
    pose proof (Z.log2_spec (Z.pos b) eq_refl) as [Hlb _].
    pose proof (Z.log2_nonneg a) as Hna.
    pose proof (Z.log2_nonneg (Z.pos b)) as Hnb.
    replace (c + 1)%Z with (Z.succ (Z.log2 a) + - Z.log2 (Z.pos b))%Z
      by (subst c; lia).
    rewrite pow2_plus, Qpower_opp, !pow2_Z by lia.
    set (x := (2 ^ Z.succ (Z.log2 a))%Z) in *. set (y := (2 ^ Z.log2 (Z.pos b))%Z) in *.
    assert (Hy : (0 < y)%Z) by lia.
    apply Qlt_shift_div_l with (c := inject_Z y) (b := inject_Z x) (a := a # b).
    + unfold Qlt; cbn; lia.
    + unfold Qlt; cbn. nia.
  - replace (c - 1 + 1)%Z with c by lia. apply Qnot_le_lt. intros H.
    apply Qle_bool_iff in H. congruence.
Qed.

(** Rounding to an integer adds at most a half. *)
Lemma nearest_even_le (s : Q) : inject_Z (nearest_even s) <= s + (1 # 2).
Proof.
  unfold nearest_even. pose proof (Qfloor_le s) as Hf.
  destruct (Qcompare (s - inject_Z (Qfloor s)) (1 # 2)) eqn:Hc.
  - apply Qeq_alt in Hc.
    destruct (Z.even (Qfloor s)); [lra|].
    rewrite inject_Z_plus. change (inject_Z 1) with 1. lra.
  - lra.
  - apply Qgt_alt in Hc. rewrite inject_Z_plus. change (inject_Z 1) with 1. lra.
Qed.

Lemma nearest_even_nonneg (s : Q) : 0 <= s -> (0 <= nearest_even s)%Z.
Proof.
  intros Hs. assert (Hf : (0 <= Qfloor s)%Z).
  { change 0%Z with (Qfloor 0). now apply Qfloor_resp_le. }
  unfold nearest_even.
  destruct (Qcompare (s - inject_Z (Qfloor s)) (1 # 2)); [destruct (Z.even (Qfloor s))|..]; lia.
Qed.

Lemma round_positive_nonneg (q : Q) : 0 < q -> 0 <= round_positive q.
Proof.
  intros Hq. unfold round_positive.
  set (u := Z.max (binade q - 52) (-1074)).
  apply Qmult_le_0_compat; [|apply Qlt_le_weak, pow2_pos].
  change 0 with (inject_Z 0). rewrite <- Zle_Qle.
  apply nearest_even_nonneg. apply Qlt_le_weak, Qlt_shift_div_l; [apply pow2_pos|lra].
Qed.

(** Rounding to a double adds at most half a unit in the last place. *)
Lemma round_positive_le (q : Q) :
  0 < q -> round_positive q <= q + 2 ^ Z.max (binade q - 52) (-1074) * (1 # 2).
Proof.
  intros Hq. unfold round_positive.
  set (u := Z.max (binade q - 52) (-1074)).
  pose proof (pow2_pos u) as Hu.
  pose proof (nearest_even_le (q / 2 ^ u)) as Hn.
  apply Qmult_le_compat_r with (z := 2 ^ u) in Hn; [|lra].
  assert (Hd : (q / 2 ^ u + (1 # 2)) * 2 ^ u == q + 2 ^ u * (1 # 2)).
  { field. lra. }
  lra.
Qed.

(** The doubles below 1 end at 1 - 2^-53. *)
Lemma double_below_1 (x : Q) : double x -> 0 <= x -> x < 1 -> x <= 1 - 2 ^ (-53).
Proof.
  intros (m & e & Hm & He & Hx) H0 H1.
  pose proof (pow2_pos e) as Hpe.
  destruct (Z_lt_le_dec m 0) as [Hneg|Hpos].
  { exfalso. assert (inject_Z m * 2 ^ e < 0); [|lra].
    assert (Hm' : inject_Z m < 0) by (change 0 with (inject_Z 0); rewrite <- Zlt_Qlt; exact Hneg).
    setoid_replace 0 with (0 * 2 ^ e) by ring.
    apply Qmult_lt_compat_r; assumption. }
  destruct (Z_lt_le_dec e (-53)) as [Hsmall|Hbig].
  - assert (Hhalf : x <= 1 # 2).
    { rewrite Hx.
      apply Qle_trans with (inject_Z (2 ^ 53) * 2 ^ (-54)); [|rewrite <- pow2_Z by lia; rewrite <- pow2_plus; apply Qle_refl].
      apply Qle_trans with (inject_Z m * 2 ^ (-54)).
      - rewrite !(Qmult_comm (inject_Z m)). apply Qmult_le_compat_r; [apply pow2_le; lia|].
        change 0 with (inject_Z 0). rewrite <- Zle_Qle. exact Hpos.
      - apply Qmult_le_compat_r; [|apply Qlt_le_weak, pow2_pos].
        rewrite <- Zle_Qle. lia. }
    assert (2 ^ (-53) <= 1 # 2) by (change (1 # 2) with (2 ^ (-1)); apply pow2_le; lia).
    lra.
  - assert (Hint : x * 2 ^ 53 == inject_Z (m * 2 ^ (e + 53))).
    { rewrite Hx, inject_Z_mult, <- pow2_Z by lia. rewrite pow2_plus. ring. }
    assert (Hlt : (m * 2 ^ (e + 53) < 2 ^ 53)%Z).
    { rewrite Zlt_Qlt, <- Hint. rewrite <- pow2_Z by lia.
      setoid_replace (2 ^ 53) with (1 * 2 ^ 53) at 2 by ring.
      apply Qmult_lt_compat_r; [apply pow2_pos | exact H1]. }
    assert (Hle : x * 2 ^ 53 <= 2 ^ 53 - 1).
    { rewrite Hint. rewrite (pow2_Z (k := 53)) by lia.
      change 1 with (inject_Z 1). unfold Qminus. rewrite <- inject_Z_opp, <- inject_Z_plus, <- Zle_Qle. lia. }
    assert (H53 : 2 ^ 53 * 2 ^ (-53) == 1) by (rewrite <- pow2_plus; reflexivity).
    apply Qmult_le_compat_r with (z := 2 ^ (-53)) in Hle; [|apply Qlt_le_weak, pow2_pos].
    assert (Hl : x * 2 ^ 53 * 2 ^ (-53) == x) by (rewrite <- Qmult_assoc, H53; ring).
    assert (Hr : (2 ^ 53 - 1) * 2 ^ (-53) == 1 - 2 ^ (-53)).
    { unfold Qminus. rewrite Qmult_plus_distr_l, H53. ring. }
    rewrite Hl, Hr in Hle. exact Hle.
Qed.

(** A Number of [0, 1) times a positive integer: the rounded product is
    still below the integer (it may reach the next integer below it from
    underneath, which the exact product does not). *)
Lemma Number_mul_below (x : Q) (n : Z) :
  double x -> 0 <= x -> x < 1 -> (0 < n)%Z ->
  0 <= Number_mul x (inject_Z n) /\ Number_mul x (inject_Z n) < inject_Z n.
Proof.
  intros Hd H0 H1 Hn.
  pose proof (double_below_1 Hd H0 H1) as Hx.
  assert (Hn1 : 1 <= inject_Z n) by (change 1 with (inject_Z 1); rewrite <- Zle_Qle; lia).
  set (p := 2 ^ (-53)) in *.
  assert (Hp : 0 < p) by apply pow2_pos.
  unfold Number_mul, round_double.
  set (q := x * inject_Z n).
  assert (Hq : q <= inject_Z n - inject_Z n * p).
  { setoid_replace (inject_Z n - inject_Z n * p) with ((1 - p) * inject_Z n) by ring.
    apply Qmult_le_compat_r; lra. }
  destruct (Qcompare q 0) eqn:Hc.
  - lra.
  - apply Qlt_alt in Hc. exfalso.
    assert (0 <= q) by (apply Qmult_le_0_compat; lra). lra.
  - apply Qgt_alt in Hc. split; [now apply round_positive_nonneg|].
    pose proof (round_positive_le Hc) as Hr.
    pose proof (binade_le Hc) as Hb.
    destruct (Z.max_spec (binade q - 52) (-1074)) as [[_ Hu]|[_ Hu]]; rewrite Hu in Hr.
    + assert (2 ^ (-1074) < p) by (apply pow2_lt; lia).
      fold q in Hr.
      assert (inject_Z n * p >= p).
      { setoid_replace p with (1 * p) at 1 by ring. apply Qmult_le_compat_r; lra. }
      lra.
    + fold q in Hr.
      assert (He : 2 ^ (binade q - 52) * (1 # 2) == 2 ^ binade q * p).
      { unfold p. change (1 # 2) with (2 ^ (-1)). rewrite <- !pow2_plus.
        replace (binade q - 52 + -1)%Z with (binade q + -53)%Z by lia. reflexivity. }
      rewrite He in Hr.
      assert (Hbp : 2 ^ binade q * p <= q * p) by (apply Qmult_le_compat_r; lra).
      assert (Hqp : q * p <= (inject_Z n - inject_Z n * p) * p) by (apply Qmult_le_compat_r; lra).
      assert (Hpp : 0 < inject_Z n * p * p).
      { apply Qmult_lt_0_compat; [apply Qmult_lt_0_compat|]; lra. }
      assert (Hexp : (inject_Z n - inject_Z n * p) * p == inject_Z n * p - inject_Z n * p * p) by ring.
      lra.
Qed.

End Numbers.

Section Navigation.
Variable Math_random : nat -> Q.
Variable fuel : nat.

Lemma is_nil_false {A} (l : list A) : l <> [] -> is_nil l = false.
Proof. destruct l; [congruence | reflexivity]. Qed.

(** *** While an animation is in progress *)

(** C6.  While an animation is in progress, [loadNextImage] logs that
    it skips the request and returns: every field of the module, the
    current index among them, is as before, and nothing is sent to the
    helper, set on a timer or kept for later.  The same holds of the
    advances that reach it through the NEXTCLOUD_NEXT and
    NEXTCLOUD_PREVIOUS notifications and through the update timer. *)
Theorem advance_during_animation_is_dropped :
  forall (st : State) (direction : Direction),
    animationInProgress st = true ->
    loadNextImage Math_random fuel direction st = (st, [skipped], Normal tt)
    /\ updateTimer_fired Math_random fuel st = (st, [skipped], Normal tt)
    /\ (forall n,
          n = NEXTCLOUD_NEXT \/ n = NEXTCLOUD_PREVIOUS ->
          exists effs,
            notificationReceived Math_random fuel n st = (st, effs, Normal tt)
            /\ sent effs = []).
Proof.
  intros st direction Hanim.
  assert (Hload : forall d, loadNextImage Math_random fuel d st
                            = (st, [skipped], Normal tt)).
  { intros d. unfold loadNextImage. open_handlers. run. now rewrite Hanim. }
  split; [apply Hload|]. split; [apply Hload|].
  intros n [-> | ->]; unfold notificationReceived.
  - unfold bindM at 1. cbn [get]. unfold bindM at 1.
    unfold clear_updateTimer at 1. open_handlers. run.
    destruct (updateTimer st); run; rewrite Hload; run;
      destruct (showStatusIcon (config st)); eexists; split; reflexivity.
  - unfold bindM at 1. cbn [get].
    destruct (negb (random (config st)) && negb (is_nil (imageList st))).
    + unfold bindM at 1.
      unfold clear_updateTimer at 1. open_handlers. run.
      destruct (updateTimer st); run; rewrite Hload; run;
        destruct (showStatusIcon (config st)); eexists; split; reflexivity.
    + eexists; split; reflexivity.
Qed.

(** *** Sequential mode *)

Lemma getNextImageFromList_sequential st direction :
  random (config st) = false ->
  imageList st <> [] ->
  let t := sequential direction (currentImageIndex st) (size st) in
  getNextImageFromList Math_random fuel direction st
  = (set_currentImageIndex t st, [], Normal (Some (request (imageList st) t))).
Proof.
  intros Hseq Hlist t. unfold getNextImageFromList. open_handlers. run.
  rewrite (is_nil_false Hlist), Hseq. reflexivity.
Qed.

Lemma loadNextImage_sequential st direction :
  animationInProgress st = false ->
  random (config st) = false ->
  imageList st <> [] ->
  let t := sequential direction (currentImageIndex st) (size st) in
  loadNextImage Math_random fuel direction st
  = (set_currentImageIndex t st, loading (request (imageList st) t), Normal tt).
Proof.
  intros Hanim Hseq Hlist t. unfold loadNextImage.
  unfold bindM at 1. cbn [get]. rewrite Hanim, (is_nil_false Hlist).
  unfold bindM at 1. rewrite (getNextImageFromList_sequential st direction Hseq Hlist).
  reflexivity.
Qed.

(** C4.  In sequential mode, on a list that is not empty: the advance
    to the next image from the last index goes to index 0, the advance to
    the previous image from index 0 goes to the last index; and on the
    list a.jpg, b.jpg, c.jpg, from no current image (index -1), the first
    advance to the next image requests a.jpg, the second b.jpg, and the
    advance to the previous image from b.jpg requests a.jpg. *)
Theorem sequential_advance_wraps_around :
  forall (st : State),
    animationInProgress st = false ->
    random (config st) = false ->
    imageList st <> [] ->
    (currentImageIndex st = (size st - 1)%Z ->
     loadNextImage Math_random fuel next st
     = (set_currentImageIndex 0 st, loading (request (imageList st) 0), Normal tt))
    /\ (currentImageIndex st = 0%Z ->
        loadNextImage Math_random fuel previous st
        = (set_currentImageIndex (size st - 1) st,
           loading (request (imageList st) (size st - 1)), Normal tt))
    /\ (imageList st = [js "a.jpg"; js "b.jpg"; js "c.jpg"] ->
        currentImageIndex st = (-1)%Z ->
        let first := {| Helper.r_filename := Some (js "a.jpg"); Helper.r_index := 0 |} in
        let second := {| Helper.r_filename := Some (js "b.jpg"); Helper.r_index := 1 |} in
        let st1 := set_currentImageIndex 0 st in
        let st2 := set_currentImageIndex 1 st1 in
        let st3 := set_currentImageIndex 0 st2 in
        loadNextImage Math_random fuel next st = (st1, loading first, Normal tt)
        /\ loadNextImage Math_random fuel next st1 = (st2, loading second, Normal tt)
        /\ loadNextImage Math_random fuel previous st2
           = (st3, loading first, Normal tt)).
Proof.
  intros st Hanim Hseq Hlist. split; [|split].
  - intros Hlast.
    rewrite (loadNextImage_sequential st next Hanim Hseq Hlist). cbn zeta.
    replace (sequential next (currentImageIndex st) (size st)) with 0%Z;
      [reflexivity|].
    unfold sequential. rewrite Hlast.
    replace (size st <=? size st - 1 + 1)%Z with true; [reflexivity|].
    symmetry. apply Z.leb_le. lia.
  - intros Hfirst.
    rewrite (loadNextImage_sequential st previous Hanim Hseq Hlist). cbn zeta.
    unfold sequential. rewrite Hfirst. reflexivity.
  - intros Habc Hnone first second st1 st2 st3.
    assert (H1 : loadNextImage Math_random fuel next st = (st1, loading first, Normal tt)).
    { rewrite (loadNextImage_sequential st next Hanim Hseq Hlist). cbn zeta.
      unfold size. rewrite Habc, Hnone. reflexivity. }
    assert (H2 : loadNextImage Math_random fuel next st1 = (st2, loading second, Normal tt)).
    { rewrite loadNextImage_sequential; [|assumption|assumption|assumption].
      cbn zeta. unfold size. cbn [imageList currentImageIndex st1 set_currentImageIndex].
      rewrite Habc. reflexivity. }
    assert (H3 : loadNextImage Math_random fuel previous st2
                 = (st3, loading first, Normal tt)).
    { rewrite loadNextImage_sequential; [|assumption|assumption|assumption].
      cbn zeta. unfold size.
      cbn [imageList currentImageIndex st1 st2 set_currentImageIndex].
      rewrite Habc. reflexivity. }
    auto.
Qed.

(** *** After a failed fetch *)

Definition error_effects (msg : jsstring) : list Effect :=
  [Log error (tagged (js "Error from node helper: " ++ msg));
   Dom (showErrorMessage msg)].

(** An error from the helper is logged and shown; no field changes. *)
Lemma error_keeps_the_state st msg details :
  socketNotificationReceived Math_random fuel (Helper.ERROR msg details) st
  = (st, error_effects msg, Normal tt).
Proof. reflexivity. Qed.

(** *** Random mode *)

(** A draw is an index of the list. *)
Lemma draw_in_range n length :
  (forall i, double (Math_random i) /\ 0 <= Math_random i /\ Math_random i < 1)%Q ->
  (0 < length)%Z ->
  (0 <= draw Math_random n length < length)%Z.
Proof.
  intros Hrange Hlen. unfold draw.
  destruct (Hrange n) as (Hd & H0 & H1).
  destruct (Number_mul_below Hd H0 H1 Hlen) as [Hlow Hhigh].
  split.
  - change 0%Z with (Qfloor 0). now apply Qfloor_resp_le.
  - rewrite Zlt_Qlt.
    apply Qle_lt_trans with (y := Number_mul (Math_random n) (inject_Z length));
      [apply Qfloor_le | exact Hhigh].
Qed.

(** The loop stops at the first draw that differs from the current
    index, when it is given that many iterations. *)
Lemma reroll_stops k :
  forall n st length,
    (1 < length)%Z ->
    (forall j, (j < k)%nat ->
               draw Math_random (randomCalls st + j) length = currentImageIndex st) ->
    draw Math_random (randomCalls st + k) length <> currentImageIndex st ->
    (k < n)%nat ->
    reroll Math_random n length st
    = (set_randomCalls (randomCalls st + k + 1) st, [],
       Normal (draw Math_random (randomCalls st + k) length)).
Proof.
  induction k as [|k IH]; intros n st length Hlen Hsame Hdiff Hfuel;
    (destruct n as [|n]; [lia|]); cbn [reroll]; open_handlers; run.
  - rewrite Nat.add_0_r in *. apply Z.ltb_lt in Hlen. rewrite Hlen.
    apply Z.eqb_neq in Hdiff. rewrite Hdiff. cbn [andb].
    now replace (randomCalls st + 1)%nat with (S (randomCalls st)) by lia.
  - pose proof (Hsame 0%nat ltac:(lia)) as H0. rewrite Nat.add_0_r in H0.
    pose proof Hlen as Hlen'. apply Z.ltb_lt in Hlen'. rewrite Hlen', H0, Z.eqb_refl.
    cbn [andb].
    rewrite (IH n (set_randomCalls (S (randomCalls st)) st) length Hlen).
    + cbn [randomCalls set_randomCalls].
      replace (S (randomCalls st) + k)%nat
        with (randomCalls st + S k)%nat by lia.
      reflexivity.
    + intros j Hj. cbn [randomCalls currentImageIndex set_randomCalls].
      replace (S (randomCalls st) + j)%nat with (randomCalls st + S j)%nat by lia.
      apply Hsame. lia.
    + cbn [randomCalls currentImageIndex set_randomCalls].
      now replace (S (randomCalls st) + k)%nat with (randomCalls st + S k)%nat by lia.
    + lia.
Qed.

(** On a list of one image the first draw is taken. *)
Lemma reroll_single n st :
  (0 < n)%nat ->
  reroll Math_random n 1 st
  = (set_randomCalls (S (randomCalls st)) st, [],
     Normal (draw Math_random (randomCalls st) 1)).
Proof.
  intros Hfuel. destruct n as [|n]; [lia|]. reflexivity.
Qed.

(** However many iterations are followed and whatever is drawn: the loop
    does not throw; what it returns is an index of the list other than the
    current one; and it is still running only if every draw so far gave
    the current index. *)
Lemma reroll_cases n :
  forall st length,
    (forall i, double (Math_random i) /\ 0 <= Math_random i /\ Math_random i < 1)%Q ->
    (1 < length)%Z ->
    match reroll Math_random n length st with
    | (st1, effs, Normal t) =>
        t <> currentImageIndex st /\ (0 <= t < length)%Z /\ effs = []
        /\ currentImageIndex st1 = currentImageIndex st
        /\ imageList st1 = imageList st
    | (_, _, Thrown _) => False
    | (_, _, Looping) =>
        forall j, (j < n)%nat ->
                  draw Math_random (randomCalls st + j) length = currentImageIndex st
    end.
Proof.
  induction n as [|n IH]; intros st length Hrange Hlen; cbn [reroll].
  - cbn. intros j Hj. lia.
  - open_handlers. run.
    pose proof Hlen as Hlen'. apply Z.ltb_lt in Hlen'. rewrite Hlen'. cbn [andb].
    destruct (draw Math_random (randomCalls st) length =? currentImageIndex st)%Z
      eqn:E.
    + apply Z.eqb_eq in E.
      specialize (IH (set_randomCalls (S (randomCalls st)) st) length Hrange Hlen).
      destruct (reroll Math_random n length _) as [[s1 e1] [t|e|]];
        cbn [randomCalls currentImageIndex imageList set_randomCalls] in IH.
      * destruct IH as (H1 & H2 & -> & H4 & H5). repeat split; auto; lia.
      * exact IH.
      * intros [|j] Hj; [now rewrite Nat.add_0_r|].
        replace (randomCalls st + S j)%nat with (S (randomCalls st) + j)%nat by lia.
        apply IH. lia.
    + apply Z.eqb_neq in E. repeat split; auto;
        apply draw_in_range; auto; lia.
Qed.

Lemma getNextImageFromList_random st direction st1 t :
  random (config st) = true ->
  imageList st <> [] ->
  reroll Math_random fuel (size st) st = (st1, [], Normal t) ->
  getNextImageFromList Math_random fuel direction st
  = (set_currentImageIndex t st1, [], Normal (Some (request (imageList st) t))).
Proof.
  intros Hrandom Hlist Hroll. unfold getNextImageFromList.
  unfold bindM at 1. cbn [get]. rewrite (is_nil_false Hlist), Hrandom.
  unfold bindM at 1. fold (size st). rewrite Hroll. reflexivity.
Qed.

(** C5.  In random mode, the draws being Numbers of [0, 1) and the index
    drawn the floor of the rounded product: on a list of more than
    one image, whatever the current index, the index is drawn again as
    long as it equals the current one, and when the draw number k is the
    first that differs the advance takes it - an index of the list other
    than the current one - provided the model follows the loop for more
    than k iterations; on a list of one image the first draw is taken,
    which is index 0 even when 0 is the current index.  And for any
    sequence of draws and any number of iterations followed, on a list of
    more than one image the advance never ends on the current index: it
    ends on another index of the list, or the loop is still running, all
    the draws so far having given the current index. *)
Theorem random_advance_differs :
  forall (st : State) (direction : Direction),
    (forall i, double (Math_random i) /\ 0 <= Math_random i /\ Math_random i < 1)%Q ->
    random (config st) = true ->
    (forall k,
       (1 < size st)%Z ->
       (forall j, (j < k)%nat ->
          draw Math_random (randomCalls st + j) (size st) = currentImageIndex st) ->
       draw Math_random (randomCalls st + k) (size st) <> currentImageIndex st ->
       (k < fuel)%nat ->
       let t := draw Math_random (randomCalls st + k) (size st) in
       getNextImageFromList Math_random fuel direction st
       = (set_currentImageIndex t (set_randomCalls (randomCalls st + k + 1) st), [],
          Normal (Some (request (imageList st) t)))
       /\ (0 <= t < size st)%Z
       /\ t <> currentImageIndex st)
    /\ (size st = 1%Z ->
        (0 < fuel)%nat ->
        getNextImageFromList Math_random fuel direction st
        = (set_currentImageIndex 0 (set_randomCalls (S (randomCalls st)) st), [],
           Normal (Some (request (imageList st) 0))))
    /\ ((1 < size st)%Z ->
        match getNextImageFromList Math_random fuel direction st with
        | (st1, _, Normal (Some r)) =>
            Helper.r_index r <> currentImageIndex st
            /\ (0 <= Helper.r_index r < size st)%Z
            /\ currentImageIndex st1 = Helper.r_index r
            /\ Helper.r_filename r = element (imageList st) (Helper.r_index r)
        | (_, _, Normal None) | (_, _, Thrown _) => False
        | (_, _, Looping) =>
            forall j, (j < fuel)%nat ->
              draw Math_random (randomCalls st + j) (size st) = currentImageIndex st
        end).
Proof.
  intros st direction Hrange Hrandom. split; [|split].
  3: { intros Hlen.
       assert (Hlist : imageList st <> []).
       { intros E. unfold size in Hlen. rewrite E in Hlen. cbn in Hlen. lia. }
       pose proof (reroll_cases fuel st Hrange Hlen) as Hroll.
       unfold getNextImageFromList. unfold bindM at 1. cbn [get].
       rewrite (is_nil_false Hlist), Hrandom. unfold bindM at 1.
       fold (size st).
       destruct (reroll Math_random fuel (size st) st) as [[s1 e1] [t|e|]];
         [|exact Hroll|exact Hroll].
       destruct Hroll as (H1 & H2 & _ & H4 & H5).
       open_handlers. run. cbn. repeat split; auto; lia. }
  - intros k Hlen Hsame Hdiff Hfuel t.
    assert (Hlist : imageList st <> []).
    { intros E. unfold size in Hlen. rewrite E in Hlen. cbn in Hlen. lia. }
    split; [|split].
    + apply getNextImageFromList_random; auto.
      now apply reroll_stops.
    + apply draw_in_range; [exact Hrange | lia].
    + exact Hdiff.
  - intros Hone Hfuel.
    assert (Hlist : imageList st <> []).
    { intros E. unfold size in Hone. rewrite E in Hone. discriminate. }
    assert (Hdraw : draw Math_random (randomCalls st) 1 = 0%Z).
    { pose proof (draw_in_range (randomCalls st) Hrange (length := 1) eq_refl). lia. }
    rewrite <- Hdraw. apply getNextImageFromList_random; auto.
    rewrite Hone. now apply reroll_single.
Qed.

(** The index is written before [getNextImageFromList] returns, in
    either mode. *)
Lemma getNextImageFromList_commits st direction st1 effs r :
  getNextImageFromList Math_random fuel direction st = (st1, effs, Normal (Some r)) ->
  currentImageIndex st1 = Helper.r_index r.
Proof.
  unfold getNextImageFromList. unfold bindM at 1. cbn [get].
  destruct (is_nil (imageList st)); [discriminate|].
  unfold bindM at 1.
  destruct (random (config st)).
  - destruct (reroll Math_random fuel _ st) as [[s1 e1] [t| |]];
      [|discriminate|discriminate].
    open_handlers. run. intros [= <- _ <-]. reflexivity.
  - open_handlers. run. intros [= <- _ <-]. reflexivity.
Qed.

(** C9.  An advance that is not dropped writes the new current index
    and then sends the request, which carries that index (in either mode,
    whenever the index is picked); in sequential mode the index is the
    neighbour of the old one.  An error from the helper - a failed fetch -
    is logged and shown and changes no field, so the current index stays
    that of the image that failed, and the following advance goes on from
    it. *)
Theorem index_committed_and_kept_after_failed_fetch :
  forall (st : State) (direction : Direction) (msg : jsstring)
         (details : option jsstring),
    animationInProgress st = false ->
    imageList st <> [] ->
    (forall st1 effs r,
       getNextImageFromList Math_random fuel direction st
       = (st1, effs, Normal (Some r)) ->
       loadNextImage Math_random fuel direction st
       = (st1, effs ++ loading r, Normal tt)
       /\ currentImageIndex st1 = Helper.r_index r
       /\ socketNotificationReceived Math_random fuel (Helper.ERROR msg details) st1
          = (st1, error_effects msg, Normal tt))
    /\ (random (config st) = false ->
        let t := sequential direction (currentImageIndex st) (size st) in
        let st1 := set_currentImageIndex t st in
        loadNextImage Math_random fuel direction st
        = (st1, loading (request (imageList st) t), Normal tt)
        /\ currentImageIndex st1 = t
        /\ socketNotificationReceived Math_random fuel (Helper.ERROR msg details) st1
           = (st1, error_effects msg, Normal tt)
        /\ forall direction',
             let t' := sequential direction' t (size st) in
             loadNextImage Math_random fuel direction' st1
             = (set_currentImageIndex t' st1, loading (request (imageList st) t'),
                Normal tt)).
Proof.
  intros st direction msg details Hanim Hlist. split.
  - intros st1 effs r Hget. split; [|split].
    + unfold loadNextImage. unfold bindM at 1. cbn [get].
      rewrite Hanim, (is_nil_false Hlist). unfold bindM at 1. rewrite Hget.
      reflexivity.
    + exact (getNextImageFromList_commits _ _ Hget).
    + apply error_keeps_the_state.
  - intros Hseq t st1. split; [|split; [|split]].
    + apply loadNextImage_sequential; assumption.
    + reflexivity.
    + apply error_keeps_the_state.
    + intros direction' t'.
      apply (loadNextImage_sequential st1 direction'); assumption.
Qed.

End Navigation.
(** *** The module on the example configuration *)

(** What the page and the timers report to the module. *)
Inductive Event :=
| Socket (n : Helper.Notification)
| Notify (n : ModuleNotification)
| ImageLoaded (imageData : Helper.ImagePayload) (mainImage : bool)
| ImageFailed
| TransitionDone (imageData : Helper.ImagePayload)
| UpdateTimer
| RefreshTimer.

Section Scenario.
Variable Math_random : nat -> Q.
Variable fuel : nat.

Definition handle (ev : Event) : F unit :=
  match ev with
  | Socket n => socketNotificationReceived Math_random fuel n
  | Notify n => notificationReceived Math_random fuel n
  | ImageLoaded d mainImage => tempImg_onload d mainImage
  | ImageFailed => tempImg_onerror
  | TransitionDone d => finishTransition d
  | UpdateTimer => updateTimer_fired Math_random fuel
  | RefreshTimer => refreshTimer_fired
  end.

(** The state after a sequence of events, and what was sent to the
    helper on the way. *)
Fixpoint play (evs : list Event) (st : State) : State * list Helper.Incoming :=
  match evs with
  | [] => (st, [])
  | ev :: evs' =>
      let '(st1, effs, _) := handle ev st in
      let '(st2, out) := play evs' st1 in
      (st2, sent effs ++ out)
  end.
End Scenario.

Definition abc : list jsstring := [js "a.jpg"; js "b.jpg"; js "c.jpg"].

Definition picture (f : string) : Helper.ImagePayload :=
  {| Helper.p_filename := Some (js f); Helper.p_encodedData := js "data:image/jpeg;base64,/9j/";
     Helper.p_exifData := Helper.null_exif; Helper.p_mimeType := js "image/jpeg";
     Helper.p_size := 3 |}.

(** Draws of 0.1, 0.1 and then 0.7: the Numbers these literals denote. *)
Definition dice (n : nat) : Q :=
  match n with
  | 0%nat | 1%nat => round_double (1 # 10)
  | _ => round_double (7 # 10)
  end.

Lemma dice_in_range :
  forall i, (double (dice i) /\ 0 <= dice i /\ dice i < 1)%Q.
Proof.
  intros [|[|i]]; (split; [|split; vm_compute; congruence]).
  - exists 3602879701896397%Z, (-55)%Z. vm_compute. intuition congruence.
  - exists 3602879701896397%Z, (-55)%Z. vm_compute. intuition congruence.
  - exists 6305039478318694%Z, (-53)%Z. vm_compute. intuition congruence.
Qed.

(** The Number nearest to a third. *)
Definition third : Q := round_double (1 # 3).

(** The rounding shows in the index drawn: three times the Number
    nearest to a third is rounded to 1, which the exact product stays
    below. *)
Example draw_of_a_third :
  draw (fun _ => third) 0 3 = 1%Z /\ Qfloor (third * 3) = 0%Z.
Proof. split; vm_compute; reflexivity. Qed.

(** The module with the list a.jpg, b.jpg, c.jpg and no current image,
    in sequential and in random mode. *)
Definition listed : State := set_imageList abc (fresh Sample.front_config).

Definition shuffled : State :=
  set_currentImageIndex 0
    (set_config
       {| animationSpeed := 500; updateInterval := 60; listRefreshInterval := 3600;
          repositoryConfig := Sample.repository; showWidth := 400;
          showHeight := 400; random := true; blurAmount := 1;
          startHidden := false; startPaused := false; showStatusIcon := true;
          statusIconPosition := js "top_right"; enableGeocoding := true |}
       listed).

(** The module while the first image is faded in: the list has arrived,
    which starts the slideshow, and the data of a.jpg after it. *)
Definition animating : State :=
  fst (play dice 8 [Socket (Helper.IMAGE_LIST_RECEIVED abc);
                    Socket (Helper.IMAGE_DATA_RECEIVED (picture "a.jpg"))]
            (fresh Sample.front_config)).

Lemma sequential_advance_wraps_around_witness :
  let first := {| Helper.r_filename := Some (js "a.jpg"); Helper.r_index := 0 |} in
  let second := {| Helper.r_filename := Some (js "b.jpg"); Helper.r_index := 1 |} in
  let last := {| Helper.r_filename := Some (js "c.jpg"); Helper.r_index := 2 |} in
  loadNextImage dice 8 next listed
  = (set_currentImageIndex 0 listed, loading first, Normal tt)
  /\ loadNextImage dice 8 next (set_currentImageIndex 0 listed)
     = (set_currentImageIndex 1 listed, loading second, Normal tt)
  /\ loadNextImage dice 8 previous (set_currentImageIndex 1 listed)
     = (set_currentImageIndex 0 listed, loading first, Normal tt)
  /\ loadNextImage dice 8 next (set_currentImageIndex 2 listed)
     = (set_currentImageIndex 0 listed, loading first, Normal tt)
  /\ loadNextImage dice 8 previous (set_currentImageIndex 0 listed)
     = (set_currentImageIndex 2 listed, loading last, Normal tt).
Proof.
  intros first second last.
  assert (Hne : forall i, imageList (set_currentImageIndex i listed) <> [])
    by (intros i; discriminate).
  destruct (@sequential_advance_wraps_around dice 8 listed
              eq_refl eq_refl (Hne (-1)%Z))
    as (_ & _ & Hwalk).
  destruct (Hwalk eq_refl eq_refl) as (H1 & H2 & H3).
  destruct (@sequential_advance_wraps_around dice 8
              (set_currentImageIndex 2 listed) eq_refl eq_refl (Hne 2%Z))
    as (Hlast & _ & _).
  destruct (@sequential_advance_wraps_around dice 8
              (set_currentImageIndex 0 listed) eq_refl eq_refl (Hne 0%Z))
    as (_ & Hfirst & _).
  split; [exact H1|]. split; [exact H2|]. split; [exact H3|].
  split; [exact (Hlast eq_refl) | exact (Hfirst eq_refl)].
Defined.

(** With a.jpg current and draws 0.1, 0.1, 0.7 on three images, the
    indices drawn are 0, 0 and 2: the third draw is taken. *)
Lemma random_advance_differs_witness :
  getNextImageFromList dice 8 next shuffled
  = (set_currentImageIndex 2 (set_randomCalls 3 shuffled), [],
     Normal (Some {| Helper.r_filename := Some (js "c.jpg"); Helper.r_index := 2 |}))
  /\ getNextImageFromList dice 8 next (set_imageList [js "a.jpg"] shuffled)
     = (set_currentImageIndex 0
          (set_randomCalls 1 (set_imageList [js "a.jpg"] shuffled)), [],
        Normal (Some {| Helper.r_filename := Some (js "a.jpg"); Helper.r_index := 0 |})).
Proof.
  split.
  - destruct (@random_advance_differs dice 8 shuffled next
                dice_in_range eq_refl) as (Hmany & _).
    refine (proj1 (Hmany 2%nat eq_refl _ _ _)).
    + intros [|[|j]] Hj; [vm_compute; reflexivity | vm_compute; reflexivity | lia].
    + vm_compute. discriminate.
    + lia.
  - destruct (@random_advance_differs dice 8
                (set_imageList [js "a.jpg"] shuffled) next
                dice_in_range eq_refl) as (_ & Hone).
    apply Hone; [reflexivity | lia].
Defined.

(** An advance requested while a.jpg is faded in. *)
Lemma advance_during_animation_is_dropped_witness :
  animationInProgress animating = true
  /\ currentImageIndex animating = 0%Z
  /\ loadNextImage dice 8 next animating = (animating, [skipped], Normal tt)
  /\ loadNextImage dice 8 previous animating = (animating, [skipped], Normal tt).
Proof.
  split; [reflexivity|]. split; [reflexivity|].
  split.
  - exact (proj1 (@advance_during_animation_is_dropped dice 8 animating next eq_refl)).
  - exact (proj1 (@advance_during_animation_is_dropped dice 8 animating previous eq_refl)).
Defined.

(** The fetch of b.jpg fails: the index stays 1 and the next advance
    requests c.jpg. *)
Lemma index_committed_and_kept_after_failed_fetch_witness :
  let st := set_currentImageIndex 0 listed in
  let st1 := set_currentImageIndex 1 listed in
  let msg := js "Failed to download image: b.jpg (HTTP 404)" in
  loadNextImage dice 8 next st
  = (st1, loading {| Helper.r_filename := Some (js "b.jpg"); Helper.r_index := 1 |},
     Normal tt)
  /\ socketNotificationReceived dice 8 (Helper.ERROR msg None) st1
     = (st1, error_effects msg, Normal tt)
  /\ loadNextImage dice 8 next st1
     = (set_currentImageIndex 2 listed,
        loading {| Helper.r_filename := Some (js "c.jpg"); Helper.r_index := 2 |},
        Normal tt).
Proof.
  intros st st1 msg.
  assert (Hne : imageList st <> []) by discriminate.
  destruct (@index_committed_and_kept_after_failed_fetch dice 8 st next
              msg None eq_refl Hne) as (_ & Hseq).
  destruct (Hseq eq_refl) as (Hload & _ & Herr & Hnext).
  split; [exact Hload|]. split; [exact Herr|]. exact (Hnext next).
Defined.

(** The slideshow on the three images, from the arrival of the list:
    a.jpg is requested at once; an advance during its animation is
    dropped; after the animation the next advance requests b.jpg; its
    fetch fails; the advance to the previous image requests a.jpg. *)
Example slideshow_trace :
  play dice 8
    [Socket (Helper.IMAGE_LIST_RECEIVED abc);
     Socket (Helper.IMAGE_DATA_RECEIVED (picture "a.jpg"));
     Notify NEXTCLOUD_NEXT;
     ImageLoaded (picture "a.jpg") true;
     TransitionDone (picture "a.jpg");
     Notify NEXTCLOUD_NEXT;
     Socket (Helper.ERROR (js "Failed to download image: b.jpg (HTTP 404)") None);
     Notify NEXTCLOUD_PREVIOUS]
    (fresh Sample.front_config)
  = ({| updateTimer := Some 3%nat; refreshTimer := Some 1%nat; imageList := abc;
        currentImageIndex := 0; running := true;
        currentImageUrl := Some (js "data:image/jpeg;base64,/9j/");
        animationInProgress := false; config := Sample.front_config;
        timers := 3; randomCalls := 0 |},
     [Helper.FETCH_IMAGE {| Helper.r_filename := Some (js "a.jpg"); Helper.r_index := 0 |};
      Helper.FETCH_IMAGE {| Helper.r_filename := Some (js "b.jpg"); Helper.r_index := 1 |};
      Helper.FETCH_IMAGE {| Helper.r_filename := Some (js "a.jpg"); Helper.r_index := 0 |}]).
Proof. vm_compute. reflexivity. Qed.

End FrontFacts.

(* ================================================================== *)
(** ** The node helper over its whole life *)
(* ================================================================== *)

Module HelperLife.
Import JS Handler Helper HelperFacts.
Local Open Scope handler_scope.

(** *** handleConfigInit *)

(** What [validateConfiguration] finds wrong, in the order it looks. *)
Definition validation_error (host : Host) (c : Config) : option jsstring :=
  match repositoryConfig c with
  | None => Some (js "No repository path configured")
  | Some r =>
      if is_empty (path r) then Some (js "No repository path configured")
      else if is_empty (username r) || is_empty (password r)
      then Some (js "No authentication credentials provided")
      else
        match URL_pathname host (path r) with
        | Ok _ => None
        | Throw _ => Some (js "Invalid repository URL: " ++ path r)
        end
  end.

Definition configured (st : State) (c : Config) : State :=
  {| config := Some c; imageCache := imageCache st; isInitialized := true;
     store := store st |}.

Section Life.
Variable host : Host.

Lemma validateConfiguration_run c st :
  config st = Some c ->
  validateConfiguration host st
  = (st, [],
     match validation_error host c with
     | None => Normal tt
     | Some msg => Thrown (new_Error msg)
     end).
Proof.
  intros Hc. unfold validateConfiguration, validation_error. open_handlers.
  rewrite Hc. run.
  destruct (repositoryConfig c) as [r|]; [|reflexivity].
  destruct (is_empty (path r)); [reflexivity|].
  destruct (is_empty (username r) || is_empty (password r)); [reflexivity|].
  destruct (URL_pathname host (path r)); reflexivity.
Qed.

Lemma handleConfigInit_run c st :
  handleConfigInit host c st
  = (configured st c,
     Log info (tagged (js "Configuration initialized successfully"))
     :: match validation_error host c with
        | None => []
        | Some msg =>
            [Log error (tagged (js "Failed to initialize configuration: " ++ msg));
             sendSocketNotification
               (ERROR (js "Configuration initialization failed") (Some msg))]
        end,
     Normal tt).
Proof.
  unfold handleConfigInit.
  unfold try_catch. unfold bindM at 1. cbn [get].
  unfold bindM at 1. cbn [put]. fold (configured st c).
  unfold bindM at 1. unfold log at 1. cbn [emit].
  rewrite (validateConfiguration_run (c := c) (configured st c) eq_refl).
  destruct (validation_error host c) as [msg|]; reflexivity.
Qed.

(** INIT_CONFIG never throws and always leaves the helper initialized
    with the configuration it was sent, the cache untouched - also when
    the validation fails: then one ERROR notification carries what was
    found wrong, and the helper is initialized all the same, so that a
    FETCH_IMAGE_LIST that follows is not stopped by the flag. *)
Theorem init_config_initializes_even_when_invalid :
  forall (c : Config) (st : State),
    exists effs,
      handleConfigInit host c st = (configured st c, effs, Normal tt)
      /\ sent effs
         = match validation_error host c with
           | None => []
           | Some msg =>
               [ERROR (js "Configuration initialization failed") (Some msg)]
           end
      /\ forall effs' c',
           fetchImageList host (configured st c) = (configured st c, effs', c') ->
           In (sendSocketNotification (FETCH_PROGRESS (js "Connecting to Nextcloud...")))
              effs'.
Proof.
  intros c st. rewrite handleConfigInit_run. eexists. split; [reflexivity|].
  split; [now destruct (validation_error host c)|].
  intros effs' c'. unfold fetchImageList. unfold bindM at 1. cbn [get].
  cbn [isInitialized configured negb].
  unfold bindM at 1. unfold log at 1. cbn [emit].
  unfold bindM at 1. unfold send at 1. cbn [emit].
  destruct (bindM _ _ (configured st c)) as [[s2 e2] r2].
  intros [= _ <- _]. right. left. reflexivity.
Qed.

(** *** Invariants over all events *)

(** The relation of a handler that leaves the configuration, the flag
    and the cache alone. *)
Definition fields_kept (st st' : State) (effs : list Effect) : Prop :=
  config st' = config st /\ isInitialized st' = isInitialized st
  /\ imageCache st' = imageCache st.

Lemma fields_kept_refl st : fields_kept st st [].
Proof. repeat split. Qed.

Lemma fields_kept_trans st1 st2 st3 e1 e2 :
  fields_kept st1 st2 e1 -> fields_kept st2 st3 e2 -> fields_kept st1 st3 (e1 ++ e2).
Proof.
  intros (H1 & H2 & H3) (H4 & H5 & H6). repeat split; congruence.
Qed.

Lemma Keeps_fields_emit e : Keeps fields_kept (emit e).
Proof.
  intros st. exists st, [e], (Normal tt). repeat split; discriminate.
Qed.

Ltac fields_step :=
  first
    [ apply (@Keeps_ret _ fields_kept_refl)
    | apply (@Keeps_throw _ fields_kept_refl)
    | apply Keeps_fields_emit
    | apply (@Keeps_lift _ fields_kept_refl)
    | apply (@Keeps_get _ fields_kept_refl)
    | apply (@Keeps_config_field _ fields_kept_refl fields_kept_trans)
    | apply (@Keeps_repository_field _ fields_kept_refl fields_kept_trans)
    | apply (@Keeps_bind _ fields_kept_trans); [|intros ?]
    | apply (@Keeps_try _ fields_kept_trans); [|intros ?]
    | match goal with
      | |- Keeps _ (if ?b then _ else _) => destruct b
      | |- Keeps _ (match ?x with _ => _ end) => destruct x
      end ].

Lemma Keeps_fields_listing responseBody :
  Keeps fields_kept (parseImageListFromResponse host responseBody).
Proof.
  intros st.
  destruct (parseImageListFromResponse_returns host responseBody st)
    as (logs & c & _ & _ & Hc).
  destruct c as [l|e|]; [| |contradiction];
    rewrite Hc; eexists _, _, _; repeat split; discriminate.
Qed.

Lemma Keeps_fields_settle r outcome : Keeps fields_kept (settle r outcome).
Proof.
  unfold settle, update_cell, log.
  apply (@Keeps_bind _ fields_kept_trans); [apply (@Keeps_get _ fields_kept_refl)|].
  intros st0. destruct (nth_error (store st0) r) as [[ex pr]|];
    [destruct pr|]; cbn [promise]; try apply (@Keeps_ret _ fields_kept_refl).
  destruct outcome;
    intros st; eexists _, _, _; (split; [reflexivity|]);
      (split; [repeat split | discriminate]).
Qed.

(** The flag is set exactly when there is a configuration. *)
Definition flag_matches (st : State) : Prop :=
  isInitialized st = match config st with Some _ => true | None => false end.

Lemma dispatch_flag_matches ev st :
  flag_matches st -> flag_matches (fst (fst (dispatch host ev st))).
Proof.
  intros Hst.
  assert (Hk : forall m : H unit,
             Keeps fields_kept m -> flag_matches (fst (fst (m st)))).
  { intros m Hm. destruct (Hm st) as (st' & effs & c & -> & (H1 & H2 & _) & _).
    unfold flag_matches in *. cbn [fst]. now rewrite H1, H2. }
  destruct ev as [ | | i | response | e | e | | response fn key | fn e | fn e | fn
                  | r body | r e | r ];
    cbn [dispatch]; try reflexivity; try exact Hst.
  - (* socketNotificationReceived *)
    destruct i.
    + unfold socketNotificationReceived. unfold bindM at 1. unfold log at 1.
      cbn [emit notification_name].
      rewrite handleConfigInit_run. reflexivity.
    + apply Hk. unfold socketNotificationReceived, fetchImageList,
        createAuthHeader, log, send. repeat fields_step.
    + apply Hk. unfold socketNotificationReceived, fetchImageData,
        createAuthHeader, log, send. repeat fields_step.
    + apply Hk. unfold socketNotificationReceived, log. repeat fields_step.
  - apply Hk. unfold handleImageListResponse, log, send.
    apply (@Keeps_try _ fields_kept_trans); [|intros e; repeat fields_step].
    apply (@Keeps_bind _ fields_kept_trans); [repeat fields_step|]. intros _.
    apply (@Keeps_bind _ fields_kept_trans); [apply Keeps_fields_listing|].
    intros l. repeat fields_step.
  - (* handleImageDataResponse *)
    destruct (i_statusCode response <? 400)%N eqn:Hstatus.
    + destruct (handleImageDataResponse_stores host response fn key
                  st Hstatus) as (st1 & effs1 & _ & Hcfg & Hinit & _ & Hrun).
      cbn zeta in Hrun. rewrite Hrun. unfold flag_matches in *.
      cbn [fst with_cache config isInitialized]. now rewrite Hcfg, Hinit.
    + unfold handleImageDataResponse. rewrite N.leb_antisym, Hstatus. exact Hst.
  - apply Hk. apply Keeps_fields_settle.
  - apply Hk. apply Keeps_fields_settle.
  - apply Hk. apply Keeps_fields_settle.
Qed.

Lemma after_flag_matches evs :
  forall st, flag_matches st -> flag_matches (after host evs st).
Proof.
  induction evs as [|ev evs IH]; intros st Hst; cbn [after]; [exact Hst|].
  apply IH. now apply dispatch_flag_matches.
Qed.

(** Whatever the events since the helper was created, [isInitialized]
    is set exactly when [config] is not null: past the guard of
    [fetchImageList] the configuration is there to be read. *)
Theorem flag_tracks_configuration :
  forall (evs : list Event),
    let st := after host evs initial in
    isInitialized st = true <-> config st <> None.
Proof.
  intros evs st.
  assert (Hflag : flag_matches st) by (apply after_flag_matches; reflexivity).
  unfold flag_matches in Hflag.
  rewrite Hflag. destruct (config st); split; congruence.
Qed.

(** Whatever the events since the helper was created, the cache holds at
    most 51 entries. *)
Theorem cache_never_exceeds_51 :
  forall (evs : list Event),
    (Map_size (imageCache (after host evs initial)) <= 51)%N.
Proof.
  intros evs. apply cache_bound_invariant. cbn. lia.
Qed.

(** *** One notification for each response *)

(** The test a name in the list has passed. *)
Definition acceptable (f : jsstring) : bool :=
  negb (is_empty f) && negb (endsWith_slash f) && image_extension f.

Definition listable (excludePatterns : list (jsstring -> bool)) (f : jsstring) : Prop :=
  acceptable f = true /\ excluded excludePatterns f = false.

Lemma href_entry_post basePath excludePatterns m st :
  match href_entry basePath excludePatterns m st with
  | (_, _, Normal (Some f)) => listable excludePatterns f
  | _ => True
  end.
Proof.
  unfold href_entry. cbv zeta.
  destruct (str_eqb _ basePath || str_eqb _ (basePath ++ js "/")); [exact I|].
  unfold bindM at 1.
  destruct (decodeURIComponent _) as [f|e]; cbn [lift]; [|exact I].
  unfold listable, acceptable, image_extension, excluded.
  destruct (is_empty f || endsWith_slash f) eqn:E1; [exact I|].
  destruct (includes imageExtensions (toLowerCase (extname f))) eqn:E2;
    cbn [negb]; [|exact I].
  destruct (existsb (fun pattern => pattern f) excludePatterns) eqn:E3;
    [exact I|].
  cbn. apply orb_false_iff in E1 as [-> ->]. auto.
Qed.

Lemma href_loop_post basePath excludePatterns hrefMatches :
  forall imageList st,
    Forall (listable excludePatterns) imageList ->
    match href_loop basePath excludePatterns hrefMatches imageList st with
    | (_, _, Normal l) => Forall (listable excludePatterns) l
    | _ => True
    end.
Proof.
  induction hrefMatches as [|m rest IH]; intros imageList st Hacc;
    cbn [href_loop]; [exact Hacc|].
  unfold bindM at 1.
  pose proof (href_entry_post basePath excludePatterns m st) as Hentry.
  destruct (href_entry basePath excludePatterns m st) as [[s1 e1] [[f|]| |]];
    try exact I.
  - specialize (IH (imageList ++ [f]) s1).
    destruct (href_loop _ _ rest (imageList ++ [f]) s1) as [[s2 e2] r].
    destruct r; try exact I. apply IH. apply Forall_app. auto.
  - specialize (IH imageList s1).
    destruct (href_loop _ _ rest imageList s1) as [[s2 e2] r].
    destruct r; try exact I. now apply IH.
Qed.

Lemma compile_patterns_member ps :
  forall rs p r,
    compile_patterns host ps = Ok rs ->
    In p ps -> RegExp_i host p = Ok r -> In r rs.
Proof.
  induction ps as [|q ps IH]; intros rs p r; cbn [compile_patterns];
    [intros _ []|].
  destruct (RegExp_i host q) as [rq|] eqn:Hq; cbn [bind]; [|discriminate].
  destruct (compile_patterns host ps) as [rs'|]; cbn [bind]; [|discriminate].
  intros [= <-] [-> | Hin] Hr.
  - left. congruence.
  - right. eapply IH; eauto.
Qed.

(** What holds of a list of names in a state: each name has passed the
    tests of the loop, and no pattern of the configuration matches one. *)
Definition images_only (st : State) (l : list jsstring) : Prop :=
  Forall (fun f => acceptable f = true) l
  /\ forall cfg rc ps p r,
       config st = Some cfg -> repositoryConfig cfg = Some rc ->
       exclude rc = Some ps -> In p ps -> RegExp_i host p = Ok r ->
       Forall (fun f => r f = false) l.

Lemma images_only_nil st : images_only st [].
Proof. split; [constructor | intros; constructor]. Qed.

(** The names the statements inside [try] return, whatever the body and
    the state, have passed the tests of the loop. *)
Lemma parse_hrefs_post responseBody st :
  match parse_hrefs host responseBody st with
  | (_, _, Normal l) => images_only st l
  | _ => True
  end.
Proof.
  unfold parse_hrefs.
  destruct (match_href_g responseBody 0) as [|m ms].
  { open_handlers. run. apply images_only_nil. }
  unfold repository_field, config_field. open_handlers. run.
  destruct (config st) as [cfg|] eqn:Hcfg; run; [|exact I].
  destruct (repositoryConfig cfg) as [rc|] eqn:Hrc; run; [|exact I].
  destruct (URL_pathname host (path rc)) as [basePath|e]; run; [|exact I].
  rewrite ?Hcfg; run. rewrite ?Hrc; run.
  destruct (compile_patterns host _) as [pats|e] eqn:Hpats; run; [|exact I].
  pose proof (@href_loop_post basePath pats (m :: ms) [] st (Forall_nil _)) as Hpost.
  destruct (href_loop basePath pats (m :: ms) [] st) as [[s2 e2] [l'|e|]];
    run; try exact I.
  split.
  - eapply Forall_impl; [|exact Hpost]. now intros f [Hf _].
  - intros cfg' rc' ps p r Hc' Hr' Hex Hin Hr.
    rewrite Hcfg in Hc'. injection Hc' as <-.
    rewrite Hrc in Hr'. injection Hr' as <-.
    rewrite Hex in Hpats.
    pose proof (compile_patterns_member _ _ Hpats Hin Hr) as Hmem.
    eapply Forall_impl; [|exact Hpost]. intros f [_ Hf].
    unfold excluded in Hf.
    destruct (r f) eqn:Hrf; [|reflexivity].
    assert (existsb (fun pattern => pattern f) pats = true)
      by (apply existsb_exists; eauto).
    congruence.
Qed.

(** Every listing response is answered by exactly one notification, and
    the helper's fields stay as they are.  IMAGE_LIST_RECEIVED is sent only
    on a status below 400 and never with an empty list; each of its names
    is not empty, does not end in a slash, has an image extension and is
    matched by no exclusion pattern of the configuration. *)
Theorem listing_answered_once_with_images_only :
  forall (response : ListResponse) (st : State),
    exists effs n,
      handleImageListResponse host response st = (st, effs, Normal tt)
      /\ sent effs = [n]
      /\ match n with
         | IMAGE_LIST_RECEIVED l =>
             (statusCode response < 400)%N /\ l <> [] /\ images_only st l
         | ERROR _ _ => True
         | _ => False
         end.
Proof.
  intros response st.
  destruct (statusCode response <? 400)%N eqn:Hstatus.
  - destruct (parseImageListFromResponse_returns host (body response) st)
      as (logs & c & Hhrefs & Hlogs & Hparse).
    pose proof (parse_hrefs_post (body response) st) as Hpost.
    rewrite Hhrefs in Hpost.
    assert (Hp : exists logs' l,
               parseImageListFromResponse host (body response) st
               = (st, logs', Normal l)
               /\ Forall is_log logs' /\ images_only st l).
    { destruct c as [l|e|]; [eauto | | contradiction].
      eexists _, _. split; [exact Hparse|]. split; [|apply images_only_nil].
      apply Forall_app. split; [assumption | repeat constructor]. }
    destruct Hp as (logs' & l & Hrun & Hlogs' & Himages).
    rewrite (handleImageListResponse_run host response Hstatus Hrun).
    destruct l as [|f l].
    + eexists _, _. split; [reflexivity|].
      rewrite sent_app, (sent_logs Hlogs'). split; [reflexivity | exact I].
    + eexists _, _. split; [reflexivity|].
      rewrite sent_app, (sent_logs Hlogs'). split; [reflexivity|].
      split; [now apply N.ltb_lt|]. split; [discriminate | assumption].
  - rewrite handleImageListResponse_http_error
      by (now rewrite N.leb_antisym, Hstatus).
    eexists _, _. split; [reflexivity|]. split; [reflexivity | exact I].
Qed.

(** Every image response is answered by exactly one notification.  On a
    status of 400 or more it is an ERROR and no field of the helper
    changes.  Otherwise it is IMAGE_DATA_RECEIVED for the file asked for,
    with the size of the body, the type of the content-type header or
    image/jpeg without one, and a null location - the geocoding has not
    answered yet -, and the entry is in the cache under the key. *)
Theorem image_response_answered_once :
  forall (response : ImageResponse) (filename : option jsstring)
         (cacheKey : jsstring) (st : State),
    exists st' effs n,
      handleImageDataResponse host response filename cacheKey st
      = (st', effs, Normal tt)
      /\ sent effs = [n]
      /\ if (400 <=? i_statusCode response)%N
         then st' = st /\ exists msg, n = ERROR msg None
         else exists p d,
             n = IMAGE_DATA_RECEIVED p
             /\ p_filename p = filename
             /\ p_size p = N.of_nat (List.length (i_body response))
             /\ p_mimeType p
                = match content_type response with
                  | Some (c :: m) => c :: m
                  | _ => js "image/jpeg"
                  end
             /\ location (p_exifData p) = None
             /\ Map_get cacheKey (imageCache st') = Some d
             /\ p = payload st' d.
Proof.
  intros response filename cacheKey st.
  destruct (400 <=? i_statusCode response)%N eqn:Hstatus.
  - unfold handleImageDataResponse. rewrite Hstatus.
    eexists _, _, _. split; [reflexivity|]. split; [reflexivity|].
    split; [reflexivity | eauto].
  - assert (Hlt : (i_statusCode response <? 400)%N = true).
    { rewrite N.ltb_antisym, Hstatus. reflexivity. }
    destruct (extractExifData_returns host (i_body response) st)
      as (st1 & effs1 & Hext & _ & _ & _ & Heff & Hloc & _).
    destruct (handleImageDataResponse_stores host response filename cacheKey st Hlt)
      as (st1' & effs1' & Hext' & _ & _ & _ & Hrun).
    rewrite Hext in Hext'. injection Hext' as <- <-.
    cbn zeta in Hrun. rewrite Hrun.
    eexists _, _, _. split; [reflexivity|]. split.
    { rewrite sent_app. cbn.
      replace (sent effs1) with (@nil Notification); [reflexivity|].
      symmetry. clear - Heff. induction Heff as [|e l He _ IH]; [reflexivity|].
      destruct e; cbn in *; tauto. }
    eexists _, _. split; [reflexivity|].
    split; [reflexivity|]. split; [reflexivity|].
    split.
    { cbn [payload p_mimeType mimeType entry]. unfold mime_of, truthy_string, or_empty.
      destruct (content_type response) as [[|c m]|]; reflexivity. }
    split.
    { cbn [payload p_exifData exifData entry]. unfold deref in *.
      cbn [store with_cache]. exact Hloc. }
    split; [apply Map_get_set_same | reflexivity].
Qed.

(** *** Listeners do not throw *)

Lemma settle_returns r outcome st : snd (settle r outcome st) = Normal tt.
Proof.
  unfold settle, update_cell. open_handlers. run.
  destruct (nth_error (store st) r) as [[ex pr]|]; [|reflexivity].
  destruct pr; cbn [promise]; try reflexivity.
  destruct outcome; reflexivity.
Qed.

Lemma handleImageListResponse_returns response st :
  snd (handleImageListResponse host response st) = Normal tt.
Proof.
  destruct (statusCode response <? 400)%N eqn:Hstatus.
  - destruct (parseImageListFromResponse_returns host (body response) st)
      as (logs & c & _ & _ & Hparse).
    destruct c as [l|e|]; [| |contradiction];
      now rewrite (handleImageListResponse_run host response Hstatus Hparse).
  - now rewrite handleImageListResponse_http_error
      by (now rewrite N.leb_antisym, Hstatus).
Qed.

Lemma handleImageDataResponse_returns response filename cacheKey st :
  snd (handleImageDataResponse host response filename cacheKey st) = Normal tt.
Proof.
  destruct (i_statusCode response <? 400)%N eqn:Hstatus.
  - destruct (handleImageDataResponse_stores host response filename cacheKey
                st Hstatus) as (st1 & effs1 & _ & _ & _ & _ & Hrun).
    cbn zeta in Hrun. now rewrite Hrun.
  - unfold handleImageDataResponse. now rewrite N.leb_antisym, Hstatus.
Qed.

(** The events whose handler reads the configuration outside a [try]. *)
Definition reads_configuration (ev : Event) : bool :=
  match ev with
  | Received FETCH_IMAGE_LIST | Received (FETCH_IMAGE _) => true
  | _ => false
  end.

(** No listener of a response, of a request or of a geocoding promise
    throws, whatever it is given and in whatever state, and neither do
    INIT_CONFIG and an unknown notification: an exception can leave the
    helper only from FETCH_IMAGE_LIST and FETCH_IMAGE. *)
Theorem only_fetch_notifications_throw :
  forall (ev : Event) (st : State),
    reads_configuration ev = false ->
    snd (dispatch host ev st) = Normal tt.
Proof.
  intros ev st Hev.
  destruct ev as [ | | i | response | e | e | | response fn key | fn e | fn e | fn
                  | r body | r e | r ];
    cbn [dispatch]; try reflexivity.
  - destruct i; try discriminate.
    + unfold socketNotificationReceived. unfold bindM at 1. unfold log at 1.
      cbn [emit]. now rewrite handleConfigInit_run.
    + reflexivity.
  - apply handleImageListResponse_returns.
  - apply handleImageDataResponse_returns.
  - apply settle_returns.
  - apply settle_returns.
  - apply settle_returns.
Qed.

(** *** The geocoding answer *)

(** [data.address || {}] *)
Definition address_of (data : json) : json :=
  match property (js "address") data with
  | Some a => if json_truthy a then a else JObject []
  | None => JObject []
  end.

(** [address.f] when it is truthy. *)
Definition named (address : json) (f : jsstring) : option json :=
  match property f address with
  | Some v => if json_truthy v then Some v else None
  | None => None
  end.

Lemma first_truthy_split address fields loc :
  first_truthy address fields = Some loc <->
  exists before f behind,
    fields = before ++ f :: behind
    /\ Forall (fun g => named address g = None) before
    /\ named address f = Some loc.
Proof.
  induction fields as [|g fields IH]; cbn [first_truthy].
  - split; [discriminate|]. intros (before & f & behind & Heq & _).
    now destruct before.
  - split.
    + intros Hfirst.
      destruct (named address g) as [v|] eqn:Hg.
      * exists [], g, fields. split; [reflexivity|]. split; [constructor|].
        unfold named in *.
        destruct (property g address) as [w|]; [|discriminate].
        destruct (json_truthy w); congruence.
      * assert (Hrest : first_truthy address fields = Some loc).
        { unfold named in Hg. destruct (property g address) as [w|]; [|exact Hfirst].
          destruct (json_truthy w); [discriminate | exact Hfirst]. }
        apply IH in Hrest as (before & f & behind & -> & Hbefore & Hf).
        exists (g :: before), f, behind. split; [reflexivity|].
        split; [constructor; assumption | assumption].
    + intros (before & f & behind & Heq & Hbefore & Hf).
      destruct before as [|g' before]; cbn [app] in Heq; injection Heq as <- ->.
      * unfold named in Hf. destruct (property g address) as [w|]; [|discriminate].
        destruct (json_truthy w); congruence.
      * inversion Hbefore as [|? ? Hg Hbefore']; subst.
        assert (Hrest : first_truthy address (before ++ f :: behind) = Some loc)
          by (apply IH; exists before, f, behind; repeat split; assumption).
        unfold named in Hg. destruct (property g address) as [w|]; [|exact Hrest].
        destruct (json_truthy w); [discriminate | exact Hrest].
Qed.

(** The place a body names: the body parses to a value other than null,
    and the place is the first truthy member of its address among city,
    town, village, hamlet, suburb, neighbourhood, county, state and
    country, in that order. *)
Definition names_place (body : jsstring) (loc : json) : Prop :=
  exists data before f behind,
    JSON_parse host body = Ok data
    /\ data <> JNull
    /\ address_fields = before ++ f :: behind
    /\ Forall (fun g => named (address_of data) g = None) before
    /\ named (address_of data) f = Some loc
    /\ json_truthy loc = true.

(** The "end" listener calls [resolve] exactly on the bodies that name a
    place, with that place. *)
Lemma reverseGeocode_onEnd_resolves :
  forall (body : jsstring) (loc : json),
    reverseGeocode_onEnd host body = Ok loc <-> names_place body loc.
Proof.
  intros body loc. unfold names_place, reverseGeocode_onEnd.
  destruct (JSON_parse host body) as [data|e]; cbn [bind].
  - assert (Hdata :
      data <> JNull ->
      (match first_truthy (address_of data) address_fields with
       | Some location => Ok location
       | None => Throw (new_Error (js "No location found"))
       end = Ok loc
       <-> exists data' before f behind,
           Ok data = Ok data' /\ data' <> JNull
           /\ address_fields = before ++ f :: behind
           /\ Forall (fun g => named (address_of data') g = None) before
           /\ named (address_of data') f = Some loc
           /\ json_truthy loc = true)).
    { intros Hnn. split.
      - destruct (first_truthy (address_of data) address_fields) as [l|] eqn:Hfirst;
          [|discriminate].
        intros [= ->].
        apply first_truthy_split in Hfirst as (before & f & behind & Heq & Hb & Hf).
        exists data, before, f, behind. repeat split; auto.
        unfold named in Hf. destruct (property f (address_of data)) as [w|];
          [|discriminate].
        destruct (json_truthy w) eqn:Hw; congruence.
      - intros (data' & before & f & behind & [= <-] & _ & Heq & Hb & Hf & _).
        assert (Hfirst : first_truthy (address_of data) address_fields = Some loc)
          by (apply first_truthy_split; exists before, f, behind;
              repeat split; assumption).
        now rewrite Hfirst. }
    destruct data; try (apply Hdata; discriminate).
    split; [discriminate|].
    intros (data' & ? & ? & ? & [= <-] & Hnn & _). congruence.
  - split; [discriminate|]. intros (data' & ? & ? & ? & Hp & _). discriminate.
Qed.

(** What the end of the response does to a pending promise. *)
Lemma reverseGeocode_response_pending r c body st :
  nth_error (store st) r = Some c ->
  promise c = Pending ->
  nth_error (store (fst (fst (reverseGeocode_response host r body st)))) r
  = Some match reverseGeocode_onEnd host body with
         | Ok loc => {| exif := set_location loc (exif c); promise := Fulfilled |}
         | Throw _ => {| exif := exif c; promise := Rejected |}
         end.
Proof.
  intros Hc Hp. unfold reverseGeocode_response, settle, update_cell, log.
  open_handlers. run. rewrite Hc, Hp.
  destruct (reverseGeocode_onEnd host body) as [loc|e]; run;
    cbn [store with_store];
    rewrite !nth_error_update_nth, Nat.eqb_refl, Hc; reflexivity.
Qed.

(** The promise of the geocoding request of a record settles once.  The
    end of the response resolves it exactly when it is still pending -
    no error and no timeout came first - and the body parses to a value
    other than null whose address has a truthy member among city, town,
    village, hamlet, suburb, neighbourhood, county, state and country;
    the location of the record is then the first of them in that order,
    so never an empty string.  A pending promise is rejected by a body
    that names no place, and the record stays as it was.  On a promise
    that is not pending the end of the response changes nothing,
    whatever the body names. *)
Theorem geocoding_resolves_with_first_named_place :
  forall (r : nat) (c : Cell) (body : jsstring) (st : State),
    nth_error (store st) r = Some c ->
    let result := reverseGeocode_response host r body st in
    let after_it := nth_error (store (fst (fst result))) r in
    (promise c = Pending ->
     (forall loc,
        after_it = Some {| exif := set_location loc (exif c); promise := Fulfilled |}
        <-> names_place body loc)
     /\ ((forall loc, ~ names_place body loc) ->
         after_it = Some {| exif := exif c; promise := Rejected |}))
    /\ (promise c <> Pending -> result = (st, [], Normal tt)).
Proof.
  intros r c body st Hc result after_it. split.
  - intros Hp. unfold after_it, result.
    rewrite (@reverseGeocode_response_pending r c body st Hc Hp).
    destruct (reverseGeocode_onEnd host body) as [loc0|e] eqn:Hend.
    + split.
      * intros loc. split.
        -- intros [= <-]. now apply reverseGeocode_onEnd_resolves.
        -- intros Hn. apply reverseGeocode_onEnd_resolves in Hn.
           congruence.
      * intros Hnone. exfalso. apply (Hnone loc0).
        now apply reverseGeocode_onEnd_resolves.
    + split.
      * intros loc. split; [discriminate|].
        intros Hn. apply reverseGeocode_onEnd_resolves in Hn. congruence.
      * reflexivity.
  - intros Hp. unfold result, reverseGeocode_response, settle. open_handlers. run.
    rewrite Hc. destruct (promise c); congruence.
Qed.

(** *** A location that arrives after the image was sent *)

Lemma settle_fulfilled r loc st c :
  nth_error (store st) r = Some c ->
  promise c = Pending ->
  exists st',
    settle r (Ok loc) st = (st', [], Normal tt)
    /\ config st' = config st
    /\ imageCache st' = imageCache st
    /\ isInitialized st' = isInitialized st
    /\ deref st' r = set_location loc (exif c)
    /\ forall r', r' <> r -> deref st' r' = deref st r'.
Proof.
  intros Hc Hp. unfold settle, update_cell. open_handlers. run.
  rewrite Hc, Hp. run.
  eexists. split; [reflexivity|].
  cbn [config imageCache isInitialized with_store].
  repeat split.
  - unfold deref. cbn [store with_store].
    rewrite !nth_error_update_nth, Nat.eqb_refl, Hc. reflexivity.
  - intros r' Hr'. unfold deref. cbn [store with_store].
    rewrite !nth_error_update_nth.
    destruct (Nat.eqb r r') eqn:E; [|reflexivity].
    apply Nat.eqb_eq in E. congruence.
Qed.

(** The record of a cached image is the one its geocoding promise
    writes to.  When the answer of the service arrives, nothing is sent;
    the next FETCH_IMAGE for the image is served from the cache with the
    location in its record, and the rest of the payload as it was. *)
Theorem location_reaches_the_next_cache_hit :
  forall (imageRequest : ImageRequest) (st : State) (cfg : Config)
         (d : ImageData) (c : Cell) (body : jsstring) (loc : json),
    config st = Some cfg ->
    Map_get (cache_key (r_filename imageRequest) (showWidth cfg) (showHeight cfg))
            (imageCache st) = Some d ->
    nth_error (store st) (exifData d) = Some c ->
    promise c = Pending ->
    reverseGeocode_onEnd host body = Ok loc ->
    exists st',
      reverseGeocode_response host (exifData d) body st = (st', [], Normal tt)
      /\ sent (snd (fst (fetchImageData host imageRequest st')))
         = [IMAGE_DATA_RECEIVED
              {| p_filename := filename d; p_encodedData := encodedData d;
                 p_exifData := set_location loc (exif c);
                 p_mimeType := mimeType d; p_size := size d |}]
      /\ fst (fst (fetchImageData host imageRequest st')) = st'.
Proof.
  intros imageRequest st cfg d c body loc Hcfg Hget Hc Hp Hloc.
  unfold reverseGeocode_response. rewrite Hloc.
  destruct (settle_fulfilled (exifData d) loc st Hc Hp)
    as (st' & Hrun & Hcfg' & Hcache' & _ & Hderef & _).
  exists st'. split; [exact Hrun|].
  rewrite <- Hcfg' in Hcfg. rewrite <- Hcache' in Hget.
  rewrite (fetchImageData_hit host imageRequest st' Hcfg Hget).
  cbn [fst snd sent]. unfold payload. rewrite Hderef.
  split; reflexivity.
Qed.

(** *** One record for each image *)

(** What a step of the extraction for the record [r] may do: the
    configuration, the flag and the cache stay, the store keeps its size,
    every other record its cell, and the record [r] its location. *)
Record touches (r : nat) (st st' : State) (effs : list Effect) : Prop := {
  touches_config : config st' = config st;
  touches_cache : imageCache st' = imageCache st;
  touches_init : isInitialized st' = isInitialized st;
  touches_size : List.length (store st') = List.length (store st);
  touches_others : forall r', r' <> r ->
                     nth_error (store st') r' = nth_error (store st) r';
  touches_location : location (deref st' r) = location (deref st r)
}.

Lemma touches_refl r st : touches r st st [].
Proof. constructor; auto. Qed.

Lemma touches_trans r st1 st2 st3 e1 e2 :
  touches r st1 st2 e1 -> touches r st2 st3 e2 -> touches r st1 st3 (e1 ++ e2).
Proof.
  intros [A1 A2 A3 A4 A5 A6] [B1 B2 B3 B4 B5 B6].
  constructor; try congruence.
  intros r' Hr'. rewrite B5, A5; auto.
Qed.

Lemma Keeps_touches_emit r e : Keeps (touches r) (emit e).
Proof.
  intros st. exists st, [e], (Normal tt).
  split; [reflexivity|]. split; [constructor; auto | discriminate].
Qed.

Lemma Keeps_touches_update r (f : Cell -> Cell) :
  (forall c, location (exif (f c)) = location (exif c)) ->
  Keeps (touches r) (update_cell r f).
Proof.
  intros Hf st. eexists _, _, _. split; [reflexivity|].
  split; [|discriminate]. constructor; cbn [config imageCache isInitialized
                                              store with_store]; auto.
  - apply update_nth_length.
  - intros r' Hr'. rewrite nth_error_update_nth.
    destruct (Nat.eqb r r') eqn:E; [|reflexivity].
    apply Nat.eqb_eq in E. congruence.
  - unfold deref. cbn [store with_store].
    rewrite nth_error_update_nth, Nat.eqb_refl.
    destruct (nth_error (store st) r); cbn; auto.
Qed.

Ltac touch_step :=
  first
    [ apply (@Keeps_ret _ (touches_refl _))
    | apply Keeps_touches_emit
    | apply (@Keeps_lift _ (touches_refl _))
    | apply (@Keeps_config_field _ (touches_refl _) (@touches_trans _))
    | apply Keeps_touches_update; intros; reflexivity
    | apply (@Keeps_bind _ (@touches_trans _)); [|intros ?]
    | match goal with
      | |- Keeps _ (if ?b then _ else _) => destruct b
      | |- Keeps _ (match ?x with _ => _ end) => destruct x
      end ].

Lemma Keeps_touches_extract r buffer :
  Keeps (touches r) (try_catch
                       (extract_tags host r buffer)
                       (fun e =>
                          log debug (js "EXIF extraction failed (this is normal for some images): "
                                     ++ message e))).
Proof.
  apply (@Keeps_try _ (@touches_trans _)).
  - unfold extract_tags, reverseGeocode, log. repeat touch_step.
  - intros e. apply Keeps_touches_emit.
Qed.

(** [extractExifData] adds one record, with no location, and leaves the
    others. *)
Lemma extractExifData_adds buffer st :
  exists st' effs,
    extractExifData host buffer st = (st', effs, Normal (List.length (store st)))
    /\ imageCache st' = imageCache st
    /\ List.length (store st') = S (List.length (store st))
    /\ (forall r, (r < List.length (store st))%nat ->
                  nth_error (store st') r = nth_error (store st) r)
    /\ location (deref st' (List.length (store st))) = None.
Proof.
  set (r := List.length (store st)).
  set (st0 := with_store st (store st ++ [{| exif := null_exif; promise := NoPromise |}])).
  set (handler := fun e : exn =>
         log debug (js "EXIF extraction failed (this is normal for some images): "
                    ++ message e)).
  destruct (Keeps_touches_extract r buffer st0) as (st' & effs & c & Hrun & Ht & Hc).
  fold handler in Hrun.
  assert (Hnormal : c = Normal tt).
  { revert Hrun Hc. unfold try_catch.
    destruct (extract_tags host r buffer st0) as [[s1 e1] [[]|e'|]]; cbn;
      intros [= <- <- <-]; congruence. }
  subst c. exists st', effs.
  destruct Ht as [_ Hcache _ Hsize Hothers Hloc].
  split.
  - unfold extractExifData, alloc.
    unfold bindM at 1. unfold bindM at 1. cbn [get]. unfold bindM at 1. cbn [put ret app].
    unfold bindM at 1. fold st0 r handler. rewrite Hrun. cbn.
    now rewrite app_nil_r.
  - split; [exact Hcache|]. split; [|split].
    + rewrite Hsize. unfold st0. cbn [store with_store].
      rewrite length_app. cbn. lia.
    + intros r' Hr'. rewrite Hothers by (unfold r; lia).
      unfold st0. cbn [store with_store]. now rewrite nth_error_app1.
    + rewrite Hloc. unfold deref, st0, r. cbn [store with_store].
      rewrite nth_error_app2, Nat.sub_diag by lia. reflexivity.
Qed.

(** The record of an entry of the cache. *)
Definition record_of (kv : jsstring * ImageData) : nat := exifData (snd kv).

(** What holds of the helper between the events: a record has a location
    only when its promise is fulfilled; the records of the cache are in
    the store, and no two entries have the same one. *)
Record tidy (st : State) : Prop := {
  tidy_cells : forall r c, nth_error (store st) r = Some c ->
                           location (exif c) <> None -> promise c = Fulfilled;
  tidy_refs : Forall (fun kv => (record_of kv < List.length (store st))%nat)
                     (imageCache st);
  tidy_own : NoDup (List.map record_of (imageCache st))
}.

Lemma Map_delete_incl (k : jsstring) (m : Map ImageData) :
  forall kv, In kv (Map_delete k m) -> In kv m.
Proof.
  induction m as [|[k' v'] m IH]; cbn [Map_delete]; [auto|].
  destruct (str_eqb k' k); intros kv Hin; [now right|].
  destruct Hin as [<- | Hin]; [now left | right; auto].
Qed.

Lemma Map_delete_own (k : jsstring) (m : Map ImageData) :
  NoDup (List.map record_of m) -> NoDup (List.map record_of (Map_delete k m)).
Proof.
  induction m as [|[k' v'] m IH]; cbn [Map_delete List.map]; [auto|].
  intros Hnd. inversion Hnd as [|? ? Hnotin Hrest]; subst.
  destruct (str_eqb k' k); [exact Hrest|]. cbn [List.map].
  constructor; [|auto].
  intros Hin. apply Hnotin. apply in_map_iff in Hin as (kv & Heq & Hin).
  apply in_map_iff. exists kv. split; [exact Heq|]. eapply Map_delete_incl; eauto.
Qed.

Lemma evicted_incl (m : Map ImageData) : forall kv, In kv (evicted m) -> In kv m.
Proof.
  unfold evicted. destruct (50 <? Map_size m)%N; [|auto].
  destruct (Map_first_key m); [apply Map_delete_incl | auto].
Qed.

Lemma evicted_own (m : Map ImageData) :
  NoDup (List.map record_of m) -> NoDup (List.map record_of (evicted m)).
Proof.
  unfold evicted. destruct (50 <? Map_size m)%N; [|auto].
  destruct (Map_first_key m); [apply Map_delete_own | auto].
Qed.

Lemma Map_set_incl (k : jsstring) (v : ImageData) (m : Map ImageData) :
  forall kv, In kv (Map_set k v m) -> In kv m \/ snd kv = v.
Proof.
  induction m as [|[k' v'] m IH]; cbn [Map_set].
  - intros kv [<- | []]. now right.
  - destruct (str_eqb k' k); intros kv [<- | Hin]; auto.
    + left. now right.
    + left. now left.
    + destruct (IH kv Hin); [left; now right | now right].
Qed.

Lemma Map_set_own (k : jsstring) (v : ImageData) (m : Map ImageData) :
  NoDup (List.map record_of m) ->
  ~ In (exifData v) (List.map record_of m) ->
  NoDup (List.map record_of (Map_set k v m)).
Proof.
  induction m as [|[k' v'] m IH]; cbn [Map_set List.map]; intros Hnd Hnew.
  - constructor; [intros [] | constructor].
  - inversion Hnd as [|? ? Hnotin Hrest]; subst.
    destruct (str_eqb k' k); cbn [List.map].
    + constructor; [|exact Hrest]. intros Hin. apply Hnew. now right.
    + constructor.
      * intros Hin. apply in_map_iff in Hin as (kv & Heq & Hin).
        destruct (Map_set_incl _ _ _ _ Hin) as [Hold | Hv].
        -- apply Hnotin. apply in_map_iff. eauto.
        -- apply Hnew. left. unfold record_of in *. cbn [snd] in *. congruence.
      * apply IH; [exact Hrest|]. intros Hin. apply Hnew. now right.
Qed.

(** A location, once written, stays. *)
Definition keeps_locations (st st' : State) : Prop :=
  forall r v, location (deref st r) = Some v -> location (deref st' r) = Some v.

Lemma tidy_same_store st st' :
  store st' = store st ->
  imageCache st' = imageCache st \/ imageCache st' = [] ->
  tidy st -> tidy st' /\ keeps_locations st st'.
Proof.
  intros Hstore Hcache [H1 H2 H3]. split.
  - constructor; rewrite ?Hstore; auto;
      destruct Hcache as [-> | ->]; auto; constructor.
  - intros r v. unfold deref. now rewrite Hstore.
Qed.

Lemma settle_tidy r outcome st :
  tidy st ->
  tidy (fst (fst (settle r outcome st)))
  /\ keeps_locations st (fst (fst (settle r outcome st)))
  /\ forall r', r' <> r ->
       deref (fst (fst (settle r outcome st))) r' = deref st r'.
Proof.
  intros Ht. unfold settle. open_handlers. run.
  assert (Hstay : tidy st /\ keeps_locations st st
                  /\ forall r', r' <> r -> deref st r' = deref st r').
  { split; [exact Ht|]. split; [intros ? ?; auto | auto]. }
  destruct (nth_error (store st) r) as [[ex pr]|] eqn:Hc; [|exact Hstay].
  destruct pr; cbn [promise]; try exact Hstay.
  assert (Hnone : location ex = None).
  { destruct (location ex) eqn:E; [|reflexivity].
    pose proof (tidy_cells Ht r Hc) as Hf. cbn [exif promise] in Hf.
    rewrite E in Hf. discriminate Hf. discriminate. }
  destruct Ht as [H1 H2 H3].
  destruct outcome as [loc|e]; unfold update_cell; open_handlers; run;
    cbn [fst]; (split; [|split]).
  - constructor; cbn [store imageCache with_store]; auto.
    + intros r0 c0. rewrite !nth_error_update_nth.
      destruct (Nat.eqb r r0) eqn:E.
      * apply Nat.eqb_eq in E. subst r0. rewrite Hc. cbn.
        intros [= <-] _. reflexivity.
      * apply H1.
    + now rewrite !update_nth_length.
  - intros r0 v. unfold deref. cbn [store with_store].
    rewrite !nth_error_update_nth.
    destruct (Nat.eqb r r0) eqn:E; [|auto].
    apply Nat.eqb_eq in E. subst r0. rewrite Hc. cbn. congruence.
  - intros r' Hr'. unfold deref. cbn [store with_store].
    rewrite !nth_error_update_nth.
    destruct (Nat.eqb r r') eqn:E; [|reflexivity].
    apply Nat.eqb_eq in E. congruence.
  - constructor; cbn [store imageCache with_store]; auto.
    + intros r0 c0. rewrite !nth_error_update_nth.
      destruct (Nat.eqb r r0) eqn:E.
      * apply Nat.eqb_eq in E. subst r0. rewrite Hc. cbn.
        intros [= <-]. cbn. congruence.
      * apply H1.
    + now rewrite !update_nth_length.
  - intros r0 v. unfold deref. cbn [store with_store].
    rewrite !nth_error_update_nth.
    destruct (Nat.eqb r r0) eqn:E; [|auto].
    apply Nat.eqb_eq in E. subst r0. rewrite Hc. cbn. congruence.
  - intros r' Hr'. unfold deref. cbn [store with_store].
    rewrite !nth_error_update_nth.
    destruct (Nat.eqb r r') eqn:E; [|reflexivity].
    apply Nat.eqb_eq in E. congruence.
Qed.

Lemma handleImageDataResponse_tidy response filename cacheKey st :
  tidy st ->
  tidy (fst (fst (handleImageDataResponse host response filename cacheKey st)))
  /\ keeps_locations st
       (fst (fst (handleImageDataResponse host response filename cacheKey st))).
Proof.
  intros Ht.
  destruct (i_statusCode response <? 400)%N eqn:Hstatus.
  2: { unfold handleImageDataResponse. rewrite N.leb_antisym, Hstatus. cbn.
       split; [exact Ht | intros ? ?; auto]. }
  destruct (handleImageDataResponse_stores host response filename cacheKey st Hstatus)
    as (st1 & effs1 & Hext & _ & _ & _ & Hrun).
  cbn zeta in Hrun. rewrite Hrun. cbn [fst].
  destruct (extractExifData_adds (i_body response) st)
    as (st1' & effs1' & Hext' & Hcache & Hsize & Hothers & Hloc).
  rewrite Hext in Hext'. injection Hext' as <- <-.
  destruct Ht as [H1 H2 H3]. split.
  - constructor; cbn [store imageCache with_cache].
    + intros r c Hc Hsome.
      destruct (Nat.lt_ge_cases r (List.length (store st))) as [Hlt | Hge].
      * rewrite Hothers in Hc by exact Hlt. eauto.
      * assert (Hr : r = List.length (store st)).
        { assert (Hin : nth_error (store st1) r <> None) by congruence.
          apply nth_error_Some in Hin. lia. }
        subst r. unfold deref in Hloc. rewrite Hc in Hloc. congruence.
    + rewrite Hsize. apply Forall_forall. intros kv Hin.
      destruct (Map_set_incl _ _ _ _ Hin) as [Hold | Hnew].
      * apply evicted_incl in Hold.
        pose proof (proj1 (Forall_forall _ _) H2 kv Hold). cbn beta in *. lia.
      * unfold record_of. rewrite Hnew. cbn [exifData entry]. lia.
    + apply Map_set_own; [now apply evicted_own|].
      cbn [exifData entry]. intros Hin.
      apply in_map_iff in Hin as (kv & Heq & Hin). apply evicted_incl in Hin.
      pose proof (proj1 (Forall_forall _ _) H2 kv Hin). cbn beta in *. lia.
  - intros r v Hv. unfold deref in *. cbn [store with_cache].
    destruct (nth_error (store st) r) as [c|] eqn:Hc; [|discriminate].
    assert (Hlt : (r < List.length (store st))%nat)
      by (apply nth_error_Some; congruence).
    now rewrite (Hothers r Hlt), Hc.
Qed.

(** Handlers that write no field. *)
Definition same (st st' : State) (effs : list Effect) : Prop := st' = st.

Lemma same_refl st : same st st [].
Proof. reflexivity. Qed.

Lemma same_trans st1 st2 st3 e1 e2 :
  same st1 st2 e1 -> same st2 st3 e2 -> same st1 st3 (e1 ++ e2).
Proof. unfold same. congruence. Qed.

Lemma Keeps_same_emit e : Keeps same (emit e).
Proof.
  intros st. exists st, [e], (Normal tt). repeat split; discriminate.
Qed.

Ltac same_step :=
  first
    [ apply (@Keeps_ret _ same_refl)
    | apply (@Keeps_throw _ same_refl)
    | apply Keeps_same_emit
    | apply (@Keeps_lift _ same_refl)
    | apply (@Keeps_get _ same_refl)
    | apply (@Keeps_config_field _ same_refl same_trans)
    | apply (@Keeps_repository_field _ same_refl same_trans)
    | apply (@Keeps_bind _ same_trans); [|intros ?]
    | match goal with
      | |- Keeps _ (if ?b then _ else _) => destruct b
      | |- Keeps _ (match ?x with _ => _ end) => destruct x
      end ].

Lemma handleImageListResponse_state response st :
  fst (fst (handleImageListResponse host response st)) = st.
Proof.
  destruct (statusCode response <? 400)%N eqn:Hstatus.
  - destruct (parseImageListFromResponse_returns host (body response) st)
      as (logs & c & _ & _ & Hparse).
    destruct c as [l|e|]; [| |contradiction];
      now rewrite (handleImageListResponse_run host response Hstatus Hparse).
  - now rewrite handleImageListResponse_http_error
      by (now rewrite N.leb_antisym, Hstatus).
Qed.

Lemma tidy_stays st : tidy st -> tidy st /\ keeps_locations st st.
Proof. intros Ht. split; [exact Ht | intros ? ?; auto]. Qed.

Lemma dispatch_tidy ev st :
  tidy st ->
  tidy (fst (fst (dispatch host ev st)))
  /\ keeps_locations st (fst (fst (dispatch host ev st))).
Proof.
  intros Ht.
  assert (Hk : forall m : H unit,
             Keeps same m ->
             tidy (fst (fst (m st))) /\ keeps_locations st (fst (fst (m st)))).
  { intros m Hm. destruct (Hm st) as (st' & effs & c & -> & -> & _).
    now apply tidy_stays. }
  destruct ev as [ | | i | response | e | e | | response fn key | fn e | fn e | fn
                  | r body | r e | r ];
    cbn [dispatch]; try (now apply tidy_stays).
  - apply tidy_same_store; [reflexivity | now right | exact Ht].
  - apply tidy_same_store; [reflexivity | now right | exact Ht].
  - destruct i.
    + assert (Hst : fst (fst (socketNotificationReceived host (INIT_CONFIG c) st))
                    = configured st c).
      { unfold socketNotificationReceived. unfold bindM at 1. unfold log at 1.
        cbn [emit notification_name]. now rewrite handleConfigInit_run. }
      rewrite Hst.
      apply tidy_same_store; [reflexivity | now left | exact Ht].
    + apply Hk. unfold socketNotificationReceived, fetchImageList,
        createAuthHeader, log, send. repeat same_step.
    + apply Hk. unfold socketNotificationReceived, fetchImageData,
        createAuthHeader, log, send. repeat same_step.
    + apply Hk. unfold socketNotificationReceived, log. repeat same_step.
  - rewrite handleImageListResponse_state. now apply tidy_stays.
  - now apply handleImageDataResponse_tidy.
  - destruct (settle_tidy r (reverseGeocode_onEnd host body) Ht) as (H1 & H2 & _).
    now split.
  - destruct (settle_tidy r (Throw e) Ht) as (H1 & H2 & _). now split.
  - destruct (settle_tidy r (Throw (new_Error (js "Geocoding request timeout"))) Ht)
      as (H1 & H2 & _). now split.
Qed.

Lemma after_tidy evs :
  forall st, tidy st ->
             tidy (after host evs st) /\ keeps_locations st (after host evs st).
Proof.
  induction evs as [|ev evs IH]; intros st Ht; cbn [after];
    [now apply tidy_stays|].
  destruct (dispatch_tidy ev Ht) as [Ht1 Hk1].
  destruct (IH _ Ht1) as [Ht2 Hk2].
  split; [exact Ht2|]. intros r v Hv. apply Hk2, Hk1, Hv.
Qed.

Lemma tidy_initial : tidy initial.
Proof.
  constructor; cbn; [|constructor|constructor].
  intros [|r] c; discriminate.
Qed.

(** Whatever the events since the helper was created, the location of
    a record, once it is there, is never taken away or replaced: not by
    another answer of the geocoding service, by an error or a timeout
    for the same record, nor by any other event. *)
Theorem location_is_written_once :
  forall (evs evs' : list Event) (r : nat) (v : json),
    let st := after host evs initial in
    location (deref st r) = Some v ->
    location (deref (after host evs' st) r) = Some v.
Proof.
  intros evs evs' r v st Hv.
  destruct (after_tidy evs tidy_initial) as [Ht _]. fold st in Ht.
  destruct (after_tidy evs' Ht) as [_ Hk]. now apply Hk.
Qed.

Lemma Map_get_In (k : jsstring) (m : Map ImageData) d :
  Map_get k m = Some d -> In (k, d) m.
Proof.
  induction m as [|[k' v'] m IH]; cbn [Map_get]; [discriminate|].
  destruct (str_eqb k' k) eqn:E.
  - intros [= <-]. apply str_eqb_eq in E. subst. now left.
  - intros Hget. right. auto.
Qed.

Lemma own_record (m : Map ImageData) :
  NoDup (List.map record_of m) ->
  forall kv kv', In kv m -> In kv' m -> record_of kv = record_of kv' -> kv = kv'.
Proof.
  induction m as [|x m IH]; cbn [List.map]; intros Hnd kv kv' Hin Hin' Heq;
    [contradiction|].
  inversion Hnd as [|? ? Hnotin Hrest]; subst.
  destruct Hin as [<- | Hin], Hin' as [<- | Hin']; auto.
  - exfalso. apply Hnotin. rewrite Heq. now apply in_map.
  - exfalso. apply Hnotin. rewrite <- Heq. now apply in_map.
Qed.

(** Whatever the events since the helper was created, no two entries of
    the cache share a record: when a geocoding promise is settled - with
    an answer, an error or a timeout - and what is sent for a cached image
    differs from before, what is sent for the image of any other key is
    as before. *)
Theorem geocoding_answer_reaches_one_image :
  forall (evs : list Event) (r : nat) (outcome : result json)
         (k1 k2 : jsstring) (d1 d2 : ImageData),
    let st := after host evs initial in
    let st' := fst (fst (settle r outcome st)) in
    Map_get k1 (imageCache st) = Some d1 ->
    Map_get k2 (imageCache st) = Some d2 ->
    k1 <> k2 ->
    payload st' d1 <> payload st d1 ->
    payload st' d2 = payload st d2.
Proof.
  intros evs r outcome k1 k2 d1 d2 st st' Hget1 Hget2 Hkeys Hd1.
  destruct (after_tidy evs tidy_initial) as [Ht _]. fold st in Ht.
  destruct (settle_tidy r outcome Ht) as (_ & _ & Hothers). fold st' in Hothers.
  assert (Hr1 : exifData d1 = r).
  { destruct (Nat.eq_dec (exifData d1) r) as [E | E]; [exact E|].
    exfalso. apply Hd1. unfold payload. now rewrite (Hothers _ E). }
  destruct (Nat.eq_dec (exifData d2) r) as [Hr2 | Hr2].
  - exfalso. apply Hkeys.
    pose proof (Map_get_In _ _ Hget1) as Hin1.
    pose proof (Map_get_In _ _ Hget2) as Hin2.
    assert (Heq : (k1, d1) = (k2, d2)).
    { apply (@own_record _ (tidy_own Ht) _ _ Hin1 Hin2).
      unfold record_of. cbn [snd]. congruence. }
    congruence.
  - unfold payload. now rewrite (Hothers _ Hr2).
Qed.

End Life.

(** **** On the example host *)

(** A response that is not an image, handled before any configuration
    arrived. *)
Lemma only_fetch_notifications_throw_witness :
  snd (dispatch Sample.host
         (ImageResponded {| i_statusCode := 200; content_type := None;
                            i_body := [60; 104; 49; 62]%N |} None [])
         initial)
  = Normal tt.
Proof.
  apply only_fetch_notifications_throw. reflexivity.
Defined.

(** An image with GPS tags, and the helper after its response was
    handled: the geocoding request is on its way. *)
Definition paris_response : ImageResponse :=
  {| i_statusCode := 200; content_type := Some (js "image/jpeg");
     i_body := Sample.tagged_jpeg |}.

Definition paris_request : ImageRequest :=
  {| r_filename := Some (js "paris.jpg"); r_index := 0 |}.

Definition paris_fetched : State :=
  fst (fst (handleImageDataResponse Sample.host paris_response
              (r_filename paris_request)
              (cache_key (r_filename paris_request) 400 400) Sample.ready)).

Lemma location_reaches_the_next_cache_hit_witness :
  exists st' p,
    reverseGeocode_response Sample.host 0 Sample.paris_body paris_fetched
    = (st', [], Normal tt)
    /\ sent (snd (fst (fetchImageData Sample.host paris_request st')))
       = [IMAGE_DATA_RECEIVED p]
    /\ location (p_exifData p) = Some (JString (js "Paris"))
    /\ coordinates (p_exifData p)
       = Some (TNumber (4885 # 100), TNumber (235 # 100)).
Proof.
  edestruct (@location_reaches_the_next_cache_hit Sample.host paris_request
               paris_fetched Sample.helper_config)
    as (st' & Hrun & Hsent & _).
  - reflexivity.
  - vm_compute. reflexivity.
  - vm_compute. reflexivity.
  - reflexivity.
  - instantiate (2 := Sample.paris_body). vm_compute. reflexivity.
  - eexists st', _. split; [exact Hrun|]. split; [exact Hsent|].
    split; reflexivity.
Defined.

(** The answer that names Paris resolves the pending promise of the
    record of paris.jpg with Paris; when the request has timed out
    first, the same answer changes nothing. *)
Lemma geocoding_resolves_with_first_named_place_witness :
  nth_error
    (store (fst (fst (reverseGeocode_response Sample.host 0 Sample.paris_body
                        paris_fetched)))) 0
  = Some {| exif := set_location (JString (js "Paris")) (deref paris_fetched 0);
            promise := Fulfilled |}
  /\ (let timed_out := fst (fst (reverseGeocode_timeout 0 paris_fetched)) in
      nth_error (store timed_out) 0
      = Some {| exif := deref paris_fetched 0; promise := Rejected |}
      /\ reverseGeocode_response Sample.host 0 Sample.paris_body timed_out
         = (timed_out, [], Normal tt)).
Proof.
  split.
  - destruct (@geocoding_resolves_with_first_named_place Sample.host 0
                {| exif := deref paris_fetched 0; promise := Pending |}
                Sample.paris_body paris_fetched)
      as [Hpending _]; [vm_compute; reflexivity|].
    destruct (Hpending eq_refl) as [Hresolved _]. apply Hresolved.
    eexists _, [], (js "city"), _.
    split; [vm_compute; reflexivity|].
    split; [discriminate|].
    split; [reflexivity|].
    split; [constructor|].
    split; vm_compute; reflexivity.
  - intros timed_out. split; [vm_compute; reflexivity|].
    destruct (@geocoding_resolves_with_first_named_place Sample.host 0
                {| exif := deref paris_fetched 0; promise := Rejected |}
                Sample.paris_body timed_out)
      as [_ Hsettled]; [vm_compute; reflexivity|].
    apply Hsettled. discriminate.
Defined.

(** The helper after fifty-one images, and the fifty-second: the first
    one leaves and the others keep their order. *)
Lemma cache_of_51_drops_oldest_witness :
  let st := Sample.fetched 51 in
  Map_size (imageCache st) = 51%N
  /\ Map_get (Sample.image_key 51) (imageCache st) = None
  /\ Map_keys
       (imageCache (fst (fst (handleImageDataResponse Sample.host
                                Sample.plain_response (Sample.image_name 51)
                                (Sample.image_key 51) st))))
     = tl (Map_keys (imageCache st)) ++ [Sample.image_key 51].
Proof.
  intros st.
  assert (H51 : Map_size (imageCache st) = 51%N) by (vm_compute; reflexivity).
  assert (Hfresh : Map_get (Sample.image_key 51) (imageCache st) = None)
    by (vm_compute; reflexivity).
  split; [exact H51|]. split; [exact Hfresh|].
  exact (@cache_of_51_drops_oldest Sample.host Sample.plain_response
           (Sample.image_name 51) (Sample.image_key 51) st eq_refl H51 Hfresh).
Defined.

(** A name in a folder, with the extension in capitals. *)
Lemma image_extension_of_suffix_witness :
  image_extension (js "holiday/IMG_000" ++ 49%N :: js ".JPG") = true.
Proof.
  apply image_extension_of_suffix; [discriminate | reflexivity].
Defined.

(** Two images with GPS tags are fetched; then the service answers for
    the first. *)
Definition rome_request : ImageRequest :=
  {| r_filename := Some (js "rome.jpg"); r_index := 1 |}.

Definition two_fetched : list Event :=
  [Received (INIT_CONFIG Sample.helper_config);
   ImageResponded paris_response (r_filename paris_request)
     (cache_key (r_filename paris_request) 400 400);
   ImageResponded paris_response (r_filename rome_request)
     (cache_key (r_filename rome_request) 400 400)].

Lemma location_is_written_once_witness :
  location
    (deref (after Sample.host
              [GeocodingEnded 0 Sample.unknown_body; GeocodingTimeout 0;
               GeocodingEnded 1 Sample.paris_body]
              (after Sample.host
                 (two_fetched ++ [GeocodingEnded 0 Sample.paris_body]) initial))
           0)
  = Some (JString (js "Paris")).
Proof.
  apply (@location_is_written_once Sample.host
           (two_fetched ++ [GeocodingEnded 0 Sample.paris_body])).
  vm_compute. reflexivity.
Defined.

Lemma geocoding_answer_reaches_one_image_witness :
  let st := after Sample.host two_fetched initial in
  let st' := fst (fst (settle 0 (Ok (JString (js "Paris"))) st)) in
  exists d1 d2,
    Map_get (cache_key (r_filename paris_request) 400 400) (imageCache st) = Some d1
    /\ Map_get (cache_key (r_filename rome_request) 400 400) (imageCache st) = Some d2
    /\ location (p_exifData (payload st' d1)) = Some (JString (js "Paris"))
    /\ payload st' d2 = payload st d2.
Proof.
  intros st st'. eexists. eexists.
  split; [vm_compute; reflexivity|]. split; [vm_compute; reflexivity|].
  split; [vm_compute; reflexivity|].
  eapply (@geocoding_answer_reaches_one_image Sample.host two_fetched 0
            (Ok (JString (js "Paris")))
            (cache_key (r_filename paris_request) 400 400)
            (cache_key (r_filename rome_request) 400 400)).
  - vm_compute. reflexivity.
  - vm_compute. reflexivity.
  - vm_compute. discriminate.
  - vm_compute. discriminate.
Defined.

End HelperLife.

(* ================================================================== *)
(** ** The URL of an image *)

Module UriFacts.
Import JS Handler Helper HelperFacts.
Local Open Scope N_scope.

(** A UTF-16 code unit. *)
Definition code_unit (c : N) : Prop := c < 65536.

(** What [encodeURIComponent] writes: an unreserved character or the
    percent sign of an escape. *)
Definition escaped (c : N) : bool := uri_unreserved c || (c =? 37).

Ltac divmod := zify; Z.to_euclidean_division_equations; lia.

Ltac compare_all :=
  repeat match goal with
         | |- context [(?a <=? ?b)%N] => destruct (N.leb_spec a b)
         | |- context [(?a <? ?b)%N] => destruct (N.ltb_spec a b)
         | |- context [(?a =? ?b)%N] => destruct (N.eqb_spec a b)
         end.

Lemma land_low k v : N.land v (N.ones k) = v mod 2 ^ k.
Proof. apply N.land_ones. Qed.

Lemma land_15 v : N.land v 15 = v mod 16.
Proof. apply (land_low 4). Qed.

Lemma land_63 v : N.land v 63 = v mod 64.
Proof. apply (land_low 6). Qed.

Lemma land_31 v : N.land v 31 = v mod 32.
Proof. apply (land_low 5). Qed.

Lemma land_7 v : N.land v 7 = v mod 8.
Proof. apply (land_low 3). Qed.

Lemma land_1023 v : N.land v 1023 = v mod 1024.
Proof. apply (land_low 10). Qed.

Lemma shiftr_4 v : N.shiftr v 4 = v / 16.
Proof. now rewrite N.shiftr_div_pow2. Qed.

Lemma shiftr_6 v : N.shiftr v 6 = v / 64.
Proof. now rewrite N.shiftr_div_pow2. Qed.

Lemma shiftr_10 v : N.shiftr v 10 = v / 1024.
Proof. now rewrite N.shiftr_div_pow2. Qed.

Lemma shiftr_12 v : N.shiftr v 12 = v / 4096.
Proof. now rewrite N.shiftr_div_pow2. Qed.

Lemma shiftr_18 v : N.shiftr v 18 = v / 262144.
Proof. now rewrite N.shiftr_div_pow2. Qed.

Ltac to_arith :=
  rewrite ?land_15, ?land_63, ?land_31, ?land_7, ?land_1023,
    ?shiftr_4, ?shiftr_6, ?shiftr_10, ?shiftr_12, ?shiftr_18 in *.

Lemma hex_value_hex_digit n : n < 16 -> hex_value (hex_digit n) = Some n.
Proof.
  intros Hn. unfold hex_value, hex_digit.
  compare_all; cbn [andb]; try lia; f_equal; lia.
Qed.

Lemma hex_digit_unreserved n : n < 16 -> uri_unreserved (hex_digit n) = true.
Proof.
  intros Hn.
  assert (Hall : forallb (fun d => uri_unreserved (hex_digit d))
                   (List.map N.of_nat (seq 0 16)) = true) by reflexivity.
  rewrite forallb_forall in Hall. apply Hall.
  rewrite <- (N2Nat.id n). apply in_map, in_seq. lia.
Qed.

Lemma unreserved_not_percent c : uri_unreserved c = true -> (c =? 37) = false.
Proof.
  unfold uri_unreserved. intros Hc. destruct (N.eqb_spec c 37); [|reflexivity].
  subst c. discriminate.
Qed.

(** An escape is read back as the octet it was written for. *)
Lemma uri_tokens_percent b rest :
  b < 256 ->
  uri_tokens (percent b ++ rest) = fmap (cons (Octet b)) (uri_tokens rest).
Proof.
  intros Hb. unfold percent. cbn [app uri_tokens]. cbn [N.eqb Pos.eqb].
  to_arith.
  rewrite !hex_value_hex_digit by divmod.
  replace (16 * (b / 16) + b mod 16) with b by divmod. reflexivity.
Qed.

Lemma fmap_fmap {A B C} (f : A -> B) (g : B -> C) (r : result A) :
  fmap g (fmap f r) = fmap (fun a => g (f a)) r.
Proof. now destruct r. Qed.

Lemma uri_tokens_escapes bs rest :
  Forall (fun b => b < 256) bs ->
  uri_tokens (flat_map percent bs ++ rest)
  = fmap (app (List.map Octet bs)) (uri_tokens rest).
Proof.
  induction 1 as [|b bs Hb _ IH]; cbn [flat_map List.map].
  - cbn [app]. destruct (uri_tokens rest); reflexivity.
  - rewrite <- app_assoc, uri_tokens_percent, IH by assumption.
    destruct (uri_tokens rest); reflexivity.
Qed.

Lemma escapes_escaped bs :
  Forall (fun b => b < 256) bs ->
  Forall (fun c => escaped c = true) (flat_map percent bs).
Proof.
  induction 1 as [|b bs Hb _ IH]; cbn [flat_map]; [constructor|].
  unfold percent. cbn [app]. to_arith.
  constructor; [reflexivity|].
  constructor; [unfold escaped; now rewrite hex_digit_unreserved by divmod|].
  constructor; [unfold escaped; now rewrite hex_digit_unreserved by divmod|].
  exact IH.
Qed.

(** A code point that UTF-8 encodes: not above U+10FFFF, no surrogate. *)
Definition scalar (v : N) : Prop :=
  v <= 1114111 /\ ~ (55296 <= v <= 57343).

Lemma utf8_octets_octets v :
  v <= 1114111 -> Forall (fun b => b < 256) (utf8_octets v).
Proof.
  intros Hv. unfold utf8_octets. to_arith.
  compare_all; repeat constructor; divmod.
Qed.

(** The code point of a surrogate pair. *)
Definition pair_value (c c2 : N) : N := 65536 + (c - 55296) * 1024 + (c2 - 56320).

Lemma utf16_encode_unit v : v < 65536 -> utf16_encode v = [v].
Proof. intros Hv. unfold utf16_encode. now destruct (N.ltb_spec v 65536); [|lia]. Qed.

Lemma utf16_encode_pair c c2 :
  is_lead c = true -> is_trail c2 = true ->
  utf16_encode (65536 + (c - 55296) * 1024 + (c2 - 56320)) = [c; c2].
Proof.
  unfold is_lead, is_trail, utf16_encode. intros Hc Hc2.
  apply andb_true_iff in Hc as [Hc Hc']. apply andb_true_iff in Hc2 as [Hc2 Hc2'].
  apply N.leb_le in Hc, Hc', Hc2, Hc2'.
  destruct (N.ltb_spec (65536 + (c - 55296) * 1024 + (c2 - 56320)) 65536); [lia|].
  to_arith. f_equal; [divmod|]. f_equal. divmod.
Qed.

Lemma pair_scalar c c2 :
  is_lead c = true -> is_trail c2 = true ->
  65536 <= 65536 + (c - 55296) * 1024 + (c2 - 56320) <= 1114111.
Proof.
  unfold is_lead, is_trail. intros Hc Hc2.
  apply andb_true_iff in Hc as [Hc Hc']. apply andb_true_iff in Hc2 as [Hc2 Hc2'].
  apply N.leb_le in Hc, Hc', Hc2, Hc2'. lia.
Qed.

Lemma leading_ones_0 b : b < 128 -> leading_ones b = 0%nat.
Proof. intros Hb. unfold leading_ones. now destruct (N.ltb_spec b 128); [|lia]. Qed.

Lemma leading_ones_2 x : x < 32 -> leading_ones (192 + x) = 2%nat.
Proof.
  intros Hx. unfold leading_ones.
  destruct (N.ltb_spec (192 + x) 128); [lia|].
  destruct (N.ltb_spec (192 + x) 192); [lia|].
  now destruct (N.ltb_spec (192 + x) 224); [|lia].
Qed.

Lemma leading_ones_3 x : x < 16 -> leading_ones (224 + x) = 3%nat.
Proof.
  intros Hx. unfold leading_ones.
  destruct (N.ltb_spec (224 + x) 128); [lia|].
  destruct (N.ltb_spec (224 + x) 192); [lia|].
  destruct (N.ltb_spec (224 + x) 224); [lia|].
  now destruct (N.ltb_spec (224 + x) 240); [|lia].
Qed.

Lemma leading_ones_4 x : x < 8 -> leading_ones (240 + x) = 4%nat.
Proof.
  intros Hx. unfold leading_ones.
  destruct (N.ltb_spec (240 + x) 128); [lia|].
  destruct (N.ltb_spec (240 + x) 192); [lia|].
  destruct (N.ltb_spec (240 + x) 224); [lia|].
  destruct (N.ltb_spec (240 + x) 240); [lia|].
  now destruct (N.ltb_spec (240 + x) 248); [|lia].
Qed.

Lemma is_cont_low m : m < 64 -> is_cont (128 + m) = true.
Proof.
  intros Hm. unfold is_cont.
  destruct (N.leb_spec 128 (128 + m)); [|lia].
  now destruct (N.ltb_spec (128 + m) 192); [|lia].
Qed.

Lemma low_6 v : v mod 64 < 64.
Proof. now apply N.mod_lt. Qed.

Lemma leb_true a b : a <= b -> (a <=? b) = true.
Proof. apply N.leb_le. Qed.

(** The octets of a code point are read back as the code point. *)
Lemma decode_tokens_octets v ts :
  scalar v ->
  decode_tokens (List.map Octet (utf8_octets v) ++ ts) None
  = fmap (app (utf16_encode v)) (decode_tokens ts None).
Proof.
  intros [Hmax Hsur]. unfold utf8_octets. to_arith.
  destruct (N.ltb_spec v 128) as [H1|H1].
  { cbn [List.map app decode_tokens]. rewrite leading_ones_0 by assumption.
    rewrite utf16_encode_unit by lia. destruct (decode_tokens ts None); reflexivity. }
  destruct (N.ltb_spec v 2048) as [H2|H2].
  { cbn [List.map app decode_tokens].
    rewrite leading_ones_2 by divmod. cbn [decode_tokens app].
    assert (Hpoint : utf8_code_point [192 + v / 64; 128 + v mod 64] = Some v).
    { unfold utf8_code_point. cbv zeta. to_arith.
      replace ((192 + v / 64) mod 32 * 64 + (128 + v mod 64) mod 64) with v by divmod.
      now rewrite (is_cont_low (low_6 v)), leb_true by assumption. }
    rewrite Hpoint, utf16_encode_unit by lia. reflexivity. }
  destruct (N.ltb_spec v 65536) as [H3|H3].
  { cbn [List.map app decode_tokens].
    rewrite leading_ones_3 by divmod. cbn [decode_tokens app].
    assert (Hpoint : utf8_code_point
                       [224 + v / 4096; 128 + (v / 64) mod 64; 128 + v mod 64]
                     = Some v).
    { unfold utf8_code_point. cbv zeta. to_arith.
      replace ((224 + v / 4096) mod 16 * 4096
               + (128 + (v / 64) mod 64) mod 64 * 64
               + (128 + v mod 64) mod 64) with v by divmod.
      rewrite (is_cont_low (low_6 v)), (is_cont_low (low_6 (v / 64))),
        leb_true by assumption.
      cbn [andb].
      destruct (N.leb_spec 55296 v); [|reflexivity].
      destruct (N.leb_spec v 57343); [lia | reflexivity]. }
    rewrite Hpoint, utf16_encode_unit by lia. reflexivity. }
  cbn [List.map app decode_tokens].
  rewrite leading_ones_4 by divmod. cbn [decode_tokens app].
  assert (Hpoint : utf8_code_point
                     [240 + v / 262144; 128 + (v / 4096) mod 64;
                      128 + (v / 64) mod 64; 128 + v mod 64]
                   = Some v).
  { unfold utf8_code_point. cbv zeta. to_arith.
    replace ((240 + v / 262144) mod 8 * 262144
             + (128 + (v / 4096) mod 64) mod 64 * 4096
             + (128 + (v / 64) mod 64) mod 64 * 64
             + (128 + v mod 64) mod 64) with v by divmod.
    now rewrite (is_cont_low (low_6 v)), (is_cont_low (low_6 (v / 64))),
      (is_cont_low (low_6 (v / 4096))), !leb_true by assumption. }
  rewrite Hpoint. reflexivity.
Qed.

Lemma not_surrogate c :
  is_lead c = false -> is_trail c = false -> ~ (55296 <= c <= 57343).
Proof.
  unfold is_lead, is_trail. rewrite !andb_false_iff, !N.leb_gt. lia.
Qed.

(** What [encodeURIComponent] returns holds escaped characters only, and
    [decodeURIComponent] reads it back as the string. *)
Lemma encodeURIComponent_read_back n :
  forall s e,
    (List.length s <= n)%nat ->
    Forall code_unit s ->
    encodeURIComponent s = Ok e ->
    Forall (fun c => escaped c = true) e
    /\ exists ts, uri_tokens e = Ok ts /\ decode_tokens ts None = Ok s.
Proof.
  induction n as [|n IH]; intros s e Hlen Hs Henc.
  { destruct s; [|cbn in Hlen; lia]. injection Henc as <-.
    split; [constructor|]. now exists []. }
  destruct s as [|c rest].
  { injection Henc as <-. split; [constructor|]. now exists []. }
  pose proof (Forall_inv Hs) as Hc. pose proof (Forall_inv_tail Hs) as Hrest.
  unfold code_unit in Hc.
  cbn [encodeURIComponent] in Henc. cbn [List.length] in Hlen.
  destruct (uri_unreserved c) eqn:Hun.
  { destruct (encodeURIComponent rest) as [e'|] eqn:He'; [|discriminate].
    injection Henc as <-.
    destruct (IH rest e') as (Hesc & ts & Hts & Hdec); [lia|assumption|exact He'|].
    split; [constructor; [unfold escaped; now rewrite Hun | exact Hesc]|].
    exists (Lit c :: ts). cbn [uri_tokens decode_tokens].
    now rewrite (unreserved_not_percent _ Hun), Hts, Hdec. }
  destruct (is_trail c) eqn:Htrail; [discriminate|].
  destruct (is_lead c) eqn:Hlead.
  - destruct rest as [|c2 rest']; [discriminate|].
    destruct (is_trail c2) eqn:Htrail2; [|discriminate].
    destruct (encodeURIComponent rest') as [e'|] eqn:He'; [|discriminate].
    cbv zeta in Henc. fold (pair_value c c2) in Henc.
    cbn [fmap] in Henc. injection Henc as <-.
    apply Forall_inv_tail in Hrest.
    destruct (IH rest' e') as (Hesc & ts & Hts & Hdec);
      [cbn [List.length] in Hlen; lia|assumption|exact He'|].
    pose proof (@pair_scalar c c2 Hlead Htrail2) as [Hlow Hhigh].
    pose proof (@utf16_encode_pair c c2 Hlead Htrail2) as Hpair.
    fold (pair_value c c2) in Hlow, Hhigh, Hpair.
    generalize dependent (pair_value c c2). intros v Hlow Hhigh Hpair.
    split.
    { apply Forall_app. split; [|exact Hesc].
      apply escapes_escaped, utf8_octets_octets, Hhigh. }
    exists (List.map Octet (utf8_octets v) ++ ts). split.
    + rewrite uri_tokens_escapes by (apply utf8_octets_octets, Hhigh).
      now rewrite Hts.
    + rewrite decode_tokens_octets by (split; lia).
      rewrite Hdec, Hpair. reflexivity.
  - destruct (encodeURIComponent rest) as [e'|] eqn:He'; [|discriminate].
    injection Henc as <-.
    destruct (IH rest e') as (Hesc & ts & Hts & Hdec); [lia|assumption|exact He'|].
    pose proof (@not_surrogate c Hlead Htrail) as Hsur.
    split.
    { apply Forall_app. split; [|exact Hesc].
      apply escapes_escaped, utf8_octets_octets. lia. }
    exists (List.map Octet (utf8_octets c) ++ ts). split.
    + rewrite uri_tokens_escapes by (apply utf8_octets_octets; lia).
      now rewrite Hts.
    + rewrite decode_tokens_octets by (split; [lia | exact Hsur]).
      rewrite Hdec, utf16_encode_unit by assumption. reflexivity.
Qed.

(** What [encodeURIComponent] writes is no delimiter of a URL. *)
Lemma escaped_no_delimiter c :
  escaped c = true -> c <> 47 /\ c <> 63 /\ c <> 35.
Proof.
  intros Hc. repeat split; intros ->; discriminate.
Qed.

(** The URLs of the requests among the effects. *)
Fixpoint request_urls (effs : list Effect) : list jsstring :=
  match effs with
  | [] => []
  | https_request _ url _ _ :: effs' => url :: request_urls effs'
  | _ :: effs' => request_urls effs'
  end.

Section Url.
Variable host : Host.

(** The image of a name that is not in the cache is asked for with one
    request.  Its URL is the path of the repository, a slash and one more
    segment: the segment holds no slash, question mark or number sign,
    whatever the name, and [decodeURIComponent] reads it back as the name -
    the inverse of the step that made the name from an href of the
    listing. *)
Theorem image_url_names_the_file :
  forall (imageRequest : ImageRequest) (st : State) (cfg : Config)
         (rc : RepositoryConfig) (enc : jsstring),
    let file := template (r_filename imageRequest) in
    Forall code_unit file ->
    config st = Some cfg ->
    repositoryConfig cfg = Some rc ->
    Map_get (cache_key (r_filename imageRequest) (showWidth cfg) (showHeight cfg))
            (imageCache st) = None ->
    encodeURIComponent file = Ok enc ->
    https_url_check host (path rc ++ js "/" ++ enc) = Ok tt ->
    request_urls (snd (fst (fetchImageData host imageRequest st)))
    = [path rc ++ js "/" ++ enc]
    /\ Forall (fun c => c <> 47 /\ c <> 63 /\ c <> 35) enc
    /\ decodeURIComponent enc = Ok file.
Proof.
  intros imageRequest st cfg rc enc file Hfile Hcfg Hrc Hget Henc Hurl.
  rewrite (fetchImageData_miss host imageRequest st Hcfg Hrc Hget Henc Hurl).
  split; [reflexivity|].
  destruct (encodeURIComponent_read_back (s := file) (e := enc) (le_n _) Hfile Henc)
    as (Hesc & ts & Hts & Hdec).
  split.
  - eapply Forall_impl; [|exact Hesc]. intros c. apply escaped_no_delimiter.
  - unfold decodeURIComponent. now rewrite Hts.
Qed.

End Url.

(** A name with a letter outside ASCII and a space, asked of the example
    repository. *)
Definition cafe : jsstring := js "caf" ++ [233] ++ js " 1.jpg".

Lemma image_url_names_the_file_witness :
  request_urls (snd (fst (fetchImageData Sample.host
                         {| r_filename := Some cafe; r_index := 0 |}
                         Sample.ready)))
  = [Sample.repo_url ++ js "/caf%C3%A9%201.jpg"]
  /\ decodeURIComponent (js "caf%C3%A9%201.jpg") = Ok cafe.
Proof.
  destruct (@image_url_names_the_file Sample.host
              {| r_filename := Some cafe; r_index := 0 |} Sample.ready
              Sample.helper_config Sample.repository (js "caf%C3%A9%201.jpg"))
    as (Hurl & _ & Hback).
  - repeat constructor.
  - reflexivity.
  - reflexivity.
  - reflexivity.
  - vm_compute. reflexivity.
  - vm_compute. reflexivity.
  - split; [exact Hurl | exact Hback].
Defined.

End UriFacts.

(* ================================================================== *)
(** ** The life of the module: timers, the index, pausing *)

Module FrontLife.
Import JS Handler Front FrontFacts.
Local Open Scope handler_scope.

(** *** The timers that are pending

    The handles of the pending timeouts that call [loadNextImage] and of
    the pending intervals, as the effects of the module leave them. *)
Record Timers := { timeouts : list nat; intervals : list nat }.

Definition no_timers : Timers := {| timeouts := []; intervals := [] |}.

Definition drop (h : nat) (l : list nat) : list nat :=
  filter (fun x => negb (Nat.eqb x h)) l.

Definition track (p : Timers) (e : Effect) : Timers :=
  match e with
  | setTimeout h cb_loadNextImage _ =>
      {| timeouts := timeouts p ++ [h]; intervals := intervals p |}
  | clearTimeout h =>
      {| timeouts := drop h (timeouts p); intervals := intervals p |}
  | setInterval h _ =>
      {| timeouts := timeouts p; intervals := intervals p ++ [h] |}
  | clearInterval h =>
      {| timeouts := timeouts p; intervals := drop h (intervals p) |}
  | _ => p
  end.

Definition tracks (effs : list Effect) (p : Timers) : Timers :=
  fold_left track effs p.

(** A request that names an image. *)
Definition names_image (e : Effect) : Prop :=
  match e with
  | sendSocketNotification (Helper.FETCH_IMAGE r) =>
      exists f, Helper.r_filename r = Some f /\ (0 <= Helper.r_index r)%Z
  | _ => True
  end.

(** What the page, the timers, the helper and the other modules make
    happen, once [start] has run. *)
Inductive Occurrence :=
| FromHelper (n : Helper.Notification)
| FromModules (n : ModuleNotification)
| Loaded (imageData : Helper.ImagePayload) (mainImage : bool)
| LoadFailed
| FadedOut (imageData : Helper.ImagePayload)
| UpdateDue (h : nat)
| RefreshDue (h : nat)
| Suspend
| Resume.

(** A timer fires only while it is pending; a timeout is no longer
    pending once it has fired, an interval is. *)
Definition fire (o : Occurrence) (p : Timers) : option Timers :=
  match o with
  | UpdateDue h =>
      if existsb (Nat.eqb h) (timeouts p)
      then Some {| timeouts := drop h (timeouts p); intervals := intervals p |}
      else None
  | RefreshDue h =>
      if existsb (Nat.eqb h) (intervals p) then Some p else None
  | _ => Some p
  end.

Section Life.
Variable Math_random : nat -> Q.
Variable fuel : nat.

(** Every draw is a Number at least 0 and below 1. *)
Definition in_range : Prop :=
  forall i, (double (Math_random i) /\ 0 <= Math_random i /\ Math_random i < 1)%Q.

Definition handle (o : Occurrence) : F unit :=
  match o with
  | FromHelper n => socketNotificationReceived Math_random fuel n
  | FromModules n => notificationReceived Math_random fuel n
  | Loaded d mainImage => tempImg_onload d mainImage
  | LoadFailed => tempImg_onerror
  | FadedOut d => finishTransition d
  | UpdateDue _ => updateTimer_fired Math_random fuel
  | RefreshDue _ => refreshTimer_fired
  | Suspend => suspend
  | Resume => resume Math_random fuel
  end.

(** The module, its pending timers and the effects so far after a
    sequence of occurrences; a timer that is not pending does not fire. *)
Fixpoint run_all (os : list Occurrence) (st : State) (p : Timers)
  : State * Timers * list Effect :=
  match os with
  | [] => (st, p, [])
  | o :: os' =>
      match fire o p with
      | None => run_all os' st p
      | Some p1 =>
          let '(st1, effs, _) := handle o st in
          let '(st2, p2, out) := run_all os' st1 (tracks effs p1) in
          (st2, p2, effs ++ out)
      end
  end.

(** Methods that keep a relation between the fields before and after
    and the effects, whichever way they end: the relation holds of a step
    that does nothing and composes along a sequence of steps. *)
Section Keeping.
Variable R : State -> State -> list Effect -> Prop.
Hypothesis R_refl : forall st, R st st [].
Hypothesis R_trans :
  forall st1 st2 st3 e1 e2, R st1 st2 e1 -> R st2 st3 e2 -> R st1 st3 (e1 ++ e2).

Definition Keeping {A} (m : F A) : Prop :=
  forall st, R st (fst (fst (m st))) (snd (fst (m st))).

Lemma Keeping_ret {A} (a : A) : Keeping (ret a).
Proof. intros st. apply R_refl. Qed.

Lemma Keeping_get : Keeping (@get State Effect).
Proof. intros st. apply R_refl. Qed.

Lemma Keeping_bind {A B} (m : F A) (k : A -> F B) :
  Keeping m -> (forall a, Keeping (k a)) -> Keeping (bindM m k).
Proof.
  intros Hm Hk st. specialize (Hm st). unfold bindM.
  destruct (m st) as [[s1 e1] [a|e|]]; cbn [fst snd] in *; try exact Hm.
  specialize (Hk a s1). destruct (k a s1) as [[s2 e2] r]. cbn [fst snd] in *.
  eapply R_trans; eassumption.
Qed.

(** Two statements taken as one step. *)
Lemma Keeping_pair {A B C} (m1 : F A) (m2 : F B) (k : B -> F C) :
  Keeping (bindM m1 (fun _ => m2)) -> (forall b, Keeping (k b)) ->
  Keeping (bindM m1 (fun _ => bindM m2 k)).
Proof.
  intros H12 Hk st. specialize (H12 st). unfold bindM in *.
  destruct (m1 st) as [[s1 e1] [a|e|]]; cbn [fst snd] in *; try exact H12.
  destruct (m2 s1) as [[s2 e2] [b|e|]]; cbn [fst snd] in *; try exact H12.
  specialize (Hk b s2). destruct (k b s2) as [[s3 e3] r]. cbn [fst snd] in *.
  rewrite app_assoc. eapply R_trans; eassumption.
Qed.

(** A statement that reads the fields, taken as one step. *)
Lemma Keeping_reading {B C} (m : State -> F B) (k : State -> B -> F C) :
  Keeping (bindM get m) -> (forall st b, Keeping (k st b)) ->
  Keeping (bindM get (fun st => bindM (m st) (k st))).
Proof.
  intros Hm Hk st. specialize (Hm st). unfold bindM, get in *.
  cbn [fst snd app] in *.
  destruct (m st st) as [[s1 e1] [b|e|]]; cbn [fst snd] in *; try exact Hm.
  specialize (Hk st b s1). destruct (k st b s1) as [[s2 e2] r]. cbn [fst snd] in *.
  eapply R_trans; eassumption.
Qed.

Lemma Keeping_intro {A} (m : F A) :
  (forall st st' effs c, m st = (st', effs, c) -> R st st' effs) -> Keeping m.
Proof.
  intros Hm st. destruct (m st) as [[s e] c] eqn:Hrun. exact (Hm _ _ _ _ Hrun).
Qed.

Lemma Keeping_run {A} (m : F A) st st' effs c :
  Keeping m -> m st = (st', effs, c) -> R st st' effs.
Proof. intros Hm Hrun. specialize (Hm st). now rewrite Hrun in Hm. Qed.
End Keeping.

(** What holds between the calls: the index is -1 or an index of the
    list (when the draws are Numbers of [0, 1)), the only pending timeout is the
    one in [updateTimer], the only pending interval the one in
    [refreshTimer]. *)
Record Inv (st : State) (p : Timers) : Prop := {
  inv_index : in_range -> (-1 <= currentImageIndex st < size st)%Z;
  inv_timeouts : match timeouts p with
                 | [] => True
                 | [h] => updateTimer st = Some h
                 | _ => False
                 end;
  inv_intervals : intervals p = match refreshTimer st with
                                | Some h => [h]
                                | None => []
                                end
}.

Definition safe (st st' : State) (effs : list Effect) : Prop :=
  forall p, Inv st p ->
            Inv st' (tracks effs p) /\ (in_range -> Forall names_image effs).

Lemma tracks_app e1 e2 p : tracks (e1 ++ e2) p = tracks e2 (tracks e1 p).
Proof. apply fold_left_app. Qed.

Lemma safe_refl st : safe st st [].
Proof. intros p Hp. split; [exact Hp | constructor]. Qed.

Lemma safe_trans st1 st2 st3 e1 e2 :
  safe st1 st2 e1 -> safe st2 st3 e2 -> safe st1 st3 (e1 ++ e2).
Proof.
  intros H1 H2 p Hp. destruct (H1 p Hp) as [Hp1 Hn1].
  destruct (H2 _ Hp1) as [Hp2 Hn2]. rewrite tracks_app.
  split; [exact Hp2|]. intros Hr. apply Forall_app. auto.
Qed.

Definition Safe {A} (m : F A) : Prop := Keeping safe m.

Lemma Safe_ret {A} (a : A) : Safe (ret a).
Proof. apply Keeping_ret, safe_refl. Qed.

Lemma Safe_get : Safe (@get State Effect).
Proof. apply Keeping_get, safe_refl. Qed.

Lemma Safe_bind {A B} (m : F A) (k : A -> F B) :
  Safe m -> (forall a, Safe (k a)) -> Safe (bindM m k).
Proof. apply Keeping_bind, safe_trans. Qed.

Lemma Safe_pair {A B C} (m1 : F A) (m2 : F B) (k : B -> F C) :
  Safe (bindM m1 (fun _ => m2)) -> (forall b, Safe (k b)) ->
  Safe (bindM m1 (fun _ => bindM m2 k)).
Proof. apply Keeping_pair, safe_trans. Qed.

(** An effect that is no timer call and no request for an image. *)
Definition plain (e : Effect) : bool :=
  match e with
  | Log _ _ | Dom _ | setTimeout _ (cb_finishTransition _) _ => true
  | sendSocketNotification (Helper.FETCH_IMAGE _) => false
  | sendSocketNotification _ => true
  | _ => false
  end.

Lemma Safe_emit e : plain e = true -> Safe (emit e).
Proof.
  intros He st p Hp. cbn.
  assert (Htrack : track p e = p).
  { destruct e as [| | h [] | | | |]; try discriminate; reflexivity. }
  rewrite Htrack. split; [exact Hp|]. intros _. constructor; [|constructor].
  destruct e as [|[]| | | | |]; try discriminate; exact I.
Qed.

Lemma Safe_log l msg : Safe (log l msg).
Proof. now apply Safe_emit. Qed.

(** A field update that leaves the timers, the list and the index. *)
Definition steady (f : State -> State) : Prop :=
  forall st, updateTimer (f st) = updateTimer st
             /\ refreshTimer (f st) = refreshTimer st
             /\ imageList (f st) = imageList st
             /\ currentImageIndex (f st) = currentImageIndex st.

Lemma Inv_steady f st p : steady f -> Inv st p -> Inv (f st) p.
Proof.
  intros Hf [H1 H2 H3]. destruct (Hf st) as (E1 & E2 & E3 & E4).
  constructor; unfold size in *; rewrite ?E1, ?E2, ?E3, ?E4; assumption.
Qed.

Lemma Safe_modify f : steady f -> Safe (modify f).
Proof.
  intros Hf st p Hp. cbn. split; [now apply Inv_steady | constructor].
Qed.

Lemma Safe_statusIcon d : Safe (statusIcon d).
Proof.
  unfold statusIcon. apply Safe_bind; [apply Safe_get|]. intros st.
  destruct (showStatusIcon (config st)); [now apply Safe_emit | apply Safe_ret].
Qed.

Lemma Safe_reading {B C} (m : State -> F B) (k : State -> B -> F C) :
  Safe (bindM get m) -> (forall st b, Safe (k st b)) ->
  Safe (bindM get (fun st => bindM (m st) (k st))).
Proof. apply Keeping_reading, safe_trans. Qed.

Lemma drop_pending st p h :
  Inv st p -> updateTimer st = Some h -> drop h (timeouts p) = [].
Proof.
  intros [_ H2 _] Hu. destruct (timeouts p) as [|h1 [|h2 l]];
    [reflexivity | | contradiction].
  rewrite Hu in H2. injection H2 as <-. cbn. now rewrite Nat.eqb_refl.
Qed.

Lemma none_pending st p :
  Inv st p -> updateTimer st = None -> timeouts p = [].
Proof.
  intros [_ H2 _] Hu. destruct (timeouts p) as [|h1 [|h2 l]];
    [reflexivity | congruence | contradiction].
Qed.

Ltac fields := unfold size in *; cbn [tracks fold_left track timeouts intervals
  updateTimer refreshTimer imageList currentImageIndex
  set_updateTimer set_refreshTimer set_timers set_running set_imageList
  set_currentImageIndex set_randomCalls set_animationInProgress
  set_currentImageUrl set_config app] in *.

Lemma Safe_scheduleNextUpdate : Safe scheduleNextUpdate.
Proof.
  intros st p Hp. unfold scheduleNextUpdate. open_handlers. run.
  destruct (running st); cbn [negb]; [|cbn; split; [exact Hp | constructor]].
  destruct (updateTimer st) as [h0|] eqn:Hu; run;
    (split; [|intros _; repeat constructor]).
  - pose proof (drop_pending Hp Hu) as Hdrop. destruct Hp as [H1 H2 H3].
    constructor; fields; [exact H1 | now rewrite Hdrop | exact H3].
  - pose proof (none_pending Hp Hu) as Hnone. destruct Hp as [H1 H2 H3].
    constructor; fields; [exact H1 | now rewrite Hnone | exact H3].
Qed.

Lemma Safe_clear_updateTimer : Safe clear_updateTimer.
Proof.
  intros st p Hp. unfold clear_updateTimer. open_handlers. run.
  destruct (updateTimer st) as [h0|] eqn:Hu; run;
    [|split; [exact Hp | constructor]].
  split; [|intros _; repeat constructor].
  pose proof (drop_pending Hp Hu) as Hdrop. destruct Hp as [H1 H2 H3].
  constructor; fields; [exact H1 | now rewrite Hdrop | exact H3].
Qed.

Lemma Safe_pauseImageLoading : Safe pauseImageLoading.
Proof.
  unfold pauseImageLoading.
  apply Safe_reading.
  - intros st p Hp. open_handlers. run.
    destruct (updateTimer st) as [h0|] eqn:Hu; run;
      [|split; [exact Hp | constructor]].
    split; [|intros _; repeat constructor].
    pose proof (drop_pending Hp Hu) as Hdrop. destruct Hp as [H1 H2 H3].
    constructor; fields; [exact H1 | now rewrite Hdrop | exact H3].
  - intros _ _. apply Safe_bind; [now apply Safe_modify|]. intros _.
    apply Safe_bind; [apply Safe_statusIcon|]. intros _. apply Safe_log.
Qed.

Lemma Safe_setupRefreshTimer : Safe setupRefreshTimer.
Proof.
  intros st p Hp. unfold setupRefreshTimer. open_handlers. run.
  destruct Hp as [H1 H2 H3].
  destruct (refreshTimer st) as [h0|] eqn:Hr; run;
    (split; [|intros _; repeat constructor]);
    constructor; fields; try assumption; rewrite H3; cbn;
    now rewrite ?Nat.eqb_refl.
Qed.

Lemma Safe_new_handle : Safe new_handle.
Proof.
  intros st p Hp. cbn. split; [now apply Inv_steady | constructor].
Qed.

(** *** The advance *)

Lemma set_randomCalls_id st : set_randomCalls (randomCalls st) st = st.
Proof. now destruct st. Qed.

Lemma set_randomCalls_twice k k' st :
  set_randomCalls k (set_randomCalls k' st) = set_randomCalls k st.
Proof. reflexivity. Qed.

(** The loop writes nothing but the count of the draws; what it returns
    is an index of the list when the draws are Numbers of [0, 1). *)
Lemma reroll_post n :
  forall st length,
    exists k,
      fst (fst (reroll Math_random n length st)) = set_randomCalls k st
      /\ snd (fst (reroll Math_random n length st)) = []
      /\ match snd (reroll Math_random n length st) with
         | Normal t => in_range -> (0 < length)%Z -> (0 <= t < length)%Z
         | Thrown _ => False
         | Looping => True
         end.
Proof.
  induction n as [|n IH]; intros st length; cbn [reroll].
  - exists (randomCalls st). cbn. now rewrite set_randomCalls_id.
  - open_handlers. run.
    destruct ((1 <? length)%Z
              && (draw Math_random (randomCalls st) length =? currentImageIndex st)%Z).
    + destruct (IH (set_randomCalls (S (randomCalls st)) st) length)
        as (k & Hst & Heffs & Hc).
      destruct (reroll Math_random n length _) as [[s1 e1] c].
      cbn [fst snd] in *. subst. exists k.
      split; [reflexivity|]. split; [reflexivity | exact Hc].
    + exists (S (randomCalls st)). cbn [fst snd].
      split; [reflexivity|]. split; [reflexivity|].
      intros Hrange Hlen. now apply draw_in_range.
Qed.

Lemma sequential_in_range direction current length :
  (-1 <= current < length)%Z -> (0 < length)%Z ->
  (0 <= sequential direction current length < length)%Z.
Proof.
  intros Hc Hl. unfold sequential. destruct direction.
  - destruct (Z.leb_spec length (current + 1)); lia.
  - destruct (Z.ltb_spec (current - 1) 0); lia.
Qed.

Lemma element_in_range l i :
  (0 <= i < Z.of_nat (List.length l))%Z -> exists f, element l i = Some f.
Proof.
  intros Hi. unfold element. destruct (Z.ltb_spec i 0); [lia|].
  destruct (nth_error l (Z.to_nat i)) as [f|] eqn:E; [eauto|].
  apply nth_error_None in E. lia.
Qed.

(** What [getNextImageFromList] leaves and returns. *)
Lemma getNextImageFromList_post direction st :
  match getNextImageFromList Math_random fuel direction st with
  | (st1, effs, Normal None) => st1 = st /\ effs = []
  | (st1, effs, Normal (Some r)) =>
      effs = []
      /\ (exists k, st1 = set_currentImageIndex (Helper.r_index r)
                            (set_randomCalls k st))
      /\ (in_range -> (-1 <= currentImageIndex st < size st)%Z ->
          (0 <= Helper.r_index r < size st)%Z
          /\ exists f, Helper.r_filename r = Some f)
  | (_, _, Thrown _) => False
  | (st1, effs, Looping) => effs = [] /\ exists k, st1 = set_randomCalls k st
  end.
Proof.
  unfold getNextImageFromList. unfold bindM at 1. cbn [get].
  destruct (imageList st) as [|f0 l] eqn:Hlist; cbn [is_nil]; [now split|].
  assert (Hlen : (0 < size st)%Z) by (unfold size; rewrite Hlist; cbn; lia).
  unfold bindM at 1.
  destruct (random (config st)).
  - destruct (reroll_post fuel st (Z.of_nat (List.length (f0 :: l))))
      as (k & Hst & Heffs & Hc).
    destruct (reroll Math_random fuel _ st) as [[s1 e1] [t|e|]];
      cbn [fst snd] in *; subst; [|contradiction|split; eauto].
    open_handlers. run. split; [reflexivity|]. split; [now exists k|].
    cbn [Helper.r_index Helper.r_filename]. intros Hrange _.
    unfold size in *. rewrite Hlist in *.
    specialize (Hc Hrange Hlen). split; [exact Hc|].
    now apply element_in_range.
  - open_handlers. run. split; [reflexivity|].
    split; [exists (randomCalls st); now rewrite set_randomCalls_id|].
    cbn [Helper.r_index Helper.r_filename]. intros _ Hidx.
    unfold size in *. rewrite Hlist in *.
    pose proof (sequential_in_range direction Hidx Hlen) as Hseq.
    split; [exact Hseq | now apply element_in_range].
Qed.

Lemma steady_randomCalls k : steady (set_randomCalls k).
Proof. intros st. repeat split. Qed.

Lemma Safe_intro {A} (m : F A) :
  (forall st st' effs c, m st = (st', effs, c) -> safe st st' effs) -> Safe m.
Proof. apply Keeping_intro. Qed.

Lemma Safe_run {A} (m : F A) st st' effs c :
  Safe m -> m st = (st', effs, c) -> safe st st' effs.
Proof. apply Keeping_run. Qed.

Lemma Safe_loadNextImage direction : Safe (loadNextImage Math_random fuel direction).
Proof.
  unfold loadNextImage. apply Safe_bind; [apply Safe_get|]. intros st0.
  destruct (animationInProgress st0); [apply Safe_log|].
  destruct (is_nil (imageList st0)).
  { apply Safe_bind; [apply Safe_log|]. intros _. apply Safe_scheduleNextUpdate. }
  clear st0. apply Safe_intro. intros st st' effs c Hrun p Hp.
  unfold bindM at 1 in Hrun.
  pose proof (getNextImageFromList_post direction st) as Hpost.
  destruct (getNextImageFromList Math_random fuel direction st)
    as [[s1 e1] [[r|]|e|]].
  - destruct Hpost as (-> & (k & ->) & Hr). revert Hrun. open_handlers. run.
    intros [= <- <- _].
    pose proof (Inv_steady (steady_randomCalls k) Hp) as [H1 H2 H3].
    split.
    + constructor; fields; try assumption.
      intros Hrange. destruct (Hr Hrange (inv_index Hp Hrange)) as [Hidx _]. lia.
    + intros Hrange. destruct (Hr Hrange (inv_index Hp Hrange)) as [Hidx Hf].
      constructor; [exact I|]. constructor; [|constructor].
      cbn. destruct Hf as (f & Hf). exists f. split; [exact Hf | lia].
  - destruct Hpost as (-> & ->).
    assert (Hrest : Safe (log error (js "Failed to get image from list") ;;
                           scheduleNextUpdate)).
    { apply Safe_bind; [apply Safe_log|]. intros _. apply Safe_scheduleNextUpdate. }
    destruct (bindM _ _ st) as [[s2 e2] c2] eqn:Hrun2.
    injection Hrun as <- <- _. cbn [app].
    exact (Safe_run Hrest Hrun2 Hp).
  - contradiction.
  - destruct Hpost as (-> & (k & ->)). injection Hrun as <- <- _.
    split; [exact (Inv_steady (steady_randomCalls k) Hp) | constructor].
Qed.

(** *** Every handler *)

Lemma Safe_new_list payload :
  Safe (modify (set_imageList payload) ;; modify (set_currentImageIndex (-1))).
Proof.
  intros st p [H1 H2 H3]. cbn. split; [|constructor].
  constructor; fields; try assumption. intros _. lia.
Qed.

Lemma Safe_clear_refreshTimer :
  Safe (st <- get ;;
         match refreshTimer st with
         | Some h => emit (clearInterval h) ;; modify (set_refreshTimer None)
         | None => ret tt
         end).
Proof.
  intros st p Hp. open_handlers. run.
  destruct (refreshTimer st) as [h0|] eqn:Hr; run;
    [|split; [exact Hp | constructor]].
  split; [|intros _; repeat constructor].
  destruct Hp as [H1 H2 H3].
  constructor; fields; try assumption. rewrite H3, Hr. cbn.
  now rewrite Nat.eqb_refl.
Qed.

Ltac keep_step :=
  first
    [ apply Safe_ret
    | apply Safe_log
    | apply Safe_get
    | apply Safe_statusIcon
    | apply Safe_scheduleNextUpdate
    | apply Safe_clear_updateTimer
    | apply Safe_pauseImageLoading
    | apply Safe_setupRefreshTimer
    | apply Safe_new_handle
    | apply Safe_loadNextImage
    | apply Safe_clear_refreshTimer
    | solve [apply Safe_modify; intros ?; repeat split]
    | solve [apply Safe_emit; reflexivity]
    | apply Safe_pair; [apply Safe_new_list | intros ?]
    | apply Safe_bind; [|intros ?]
    | match goal with
      | |- Safe (if ?b then _ else _) => destruct b
      | |- Safe (match ?x with _ => _ end) => destruct x
      end ].

Lemma Safe_resumeImageLoading respectPausedState :
  Safe (resumeImageLoading Math_random fuel respectPausedState).
Proof. unfold resumeImageLoading. repeat keep_step. Qed.

Lemma Safe_handle o : Safe (handle o).
Proof.
  destruct o as [n|n|d mainImage| |d|h|h| |]; cbn [handle].
  - destruct n; unfold socketNotificationReceived, displayImage, send;
      repeat first [apply Safe_resumeImageLoading | keep_step].
  - unfold notificationReceived. apply Safe_bind; [apply Safe_get|]. intros st.
    destruct n; unfold requestImageList, send;
      repeat first [apply Safe_resumeImageLoading | keep_step].
  - unfold tempImg_onload, performImageTransition. repeat keep_step.
  - unfold tempImg_onerror. repeat keep_step.
  - unfold finishTransition. repeat keep_step.
  - unfold updateTimer_fired. keep_step.
  - unfold refreshTimer_fired, requestImageList, send. repeat keep_step.
  - unfold suspend. repeat keep_step.
  - unfold resume. repeat first [apply Safe_resumeImageLoading | keep_step].
Qed.

Lemma fire_keeps o st p p1 : fire o p = Some p1 -> Inv st p -> Inv st p1.
Proof.
  destruct o; cbn [fire]; try (now intros [= <-]).
  - destruct (existsb _ _); [|discriminate]. intros [= <-] [H1 H2 H3].
    constructor; cbn [timeouts intervals]; try assumption.
    destruct (timeouts p) as [|h1 [|h2 l]]; [exact I | | contradiction].
    cbn. destruct (Nat.eqb h1 h); cbn; auto.
  - destruct (existsb _ _); [|discriminate]. now intros [= <-].
Qed.

Lemma run_all_keeps os :
  forall st p,
    Inv st p ->
    Inv (fst (fst (run_all os st p))) (snd (fst (run_all os st p)))
    /\ (in_range -> Forall names_image (snd (run_all os st p))).
Proof.
  induction os as [|o os IH]; intros st p Hp; cbn [run_all].
  - split; [exact Hp | constructor].
  - destruct (fire o p) as [p1|] eqn:Hfire; [|now apply IH].
    pose proof (fire_keeps o Hfire Hp) as Hp1.
    pose proof (Safe_handle o) as Hk. unfold Safe, safe in Hk.
    specialize (Hk st p1 Hp1). destruct Hk as [Hp2 Hn].
    destruct (handle o st) as [[st1 effs] c]. cbn [fst snd] in *.
    specialize (IH st1 (tracks effs p1) Hp2).
    destruct (run_all os st1 (tracks effs p1)) as [[st2 p2] out].
    cbn [fst snd] in *. destruct IH as [Hp3 Hn3].
    split; [exact Hp3|]. intros Hr. apply Forall_app. auto.
Qed.

(** *** start *)

Ltac split_ifs :=
  repeat match goal with
         | |- context [if ?b then _ else _] => destruct b eqn:?
         end.

(** The repository path and both credentials are there. *)
Definition complete (c : Config) : bool :=
  negb (Helper.is_empty (Helper.path (repositoryConfig c)))
  && negb (Helper.is_empty (Helper.username (repositoryConfig c))
           || Helper.is_empty (Helper.password (repositoryConfig c))).

Ltac expose :=
  run; cbn [config set_config blurAmount with_statusIconPosition
            with_updateInterval with_listRefreshInterval negb andb].

(** [start] returns with the fields reset and no timer asked for. *)
Lemma start_resets st :
  let st' := fst (fst (start st)) in
  snd (start st) = Normal tt
  /\ updateTimer st' = None /\ refreshTimer st' = None
  /\ imageList st' = [] /\ currentImageIndex st' = (-1)%Z
  /\ running st' = false /\ animationInProgress st' = false
  /\ currentImageUrl st' = None
  /\ tracks (snd (fst (start st))) no_timers = no_timers.
Proof.
  unfold start, validateConfig, modify_config, requestImageList.
  open_handlers. expose.
  destruct (Helper.is_empty (Helper.path (repositoryConfig (config st)))); expose.
  { destruct (10 <? blurAmount (config st))%N; expose; cbn; repeat split. }
  destruct (Helper.is_empty (Helper.username (repositoryConfig (config st)))
            || Helper.is_empty (Helper.password (repositoryConfig (config st))));
    expose.
  { destruct (10 <? blurAmount (config st))%N; expose; cbn; repeat split. }
  destruct (includes validPositions (statusIconPosition (config st))); expose;
    destruct (updateInterval (config st) <? 10)%N; expose;
    destruct (listRefreshInterval (config st) <? 300)%N; expose;
    destruct (10 <? blurAmount (config st))%N; expose;
    cbn; repeat split.
Qed.

Lemma Inv_start st : Inv (fst (fst (start st))) no_timers.
Proof.
  destruct (start_resets st) as (_ & H1 & H2 & H3 & H4 & _).
  constructor; unfold size; rewrite ?H1, ?H2, ?H3, ?H4; cbn; auto. intros _. lia.
Qed.

(** Whatever happens after [start] - notifications of the helper and of
    other modules, images loaded or not, timers that fire, the module
    suspended and resumed, in any order -, at most one timeout that calls
    [loadNextImage] is pending and at most one refresh interval, and
    they are the ones whose handles are in [updateTimer] and
    [refreshTimer]: no timer is left behind running. *)
Theorem at_most_one_timer_of_each_kind :
  forall (st0 : State) (os : list Occurrence),
    let result := run_all os (fst (fst (start st0))) no_timers in
    let st := fst (fst result) in
    let p := snd (fst result) in
    (List.length (timeouts p) <= 1)%nat
    /\ (List.length (intervals p) <= 1)%nat
    /\ (forall h, In h (timeouts p) -> updateTimer st = Some h)
    /\ (forall h, In h (intervals p) -> refreshTimer st = Some h).
Proof.
  intros st0 os result st p.
  destruct (run_all_keeps os (Inv_start st0)) as [[_ H2 H3] _].
  fold result in H2, H3. fold st in H2, H3. fold p in H2, H3.
  destruct (timeouts p) as [|h1 [|h2 l]]; [| |contradiction];
    rewrite H3; destruct (refreshTimer st) as [h0|]; cbn;
    repeat split; try lia; try tauto;
    intros h [<- | []]; congruence.
Qed.

(** The draws being Numbers of [0, 1), and an index drawn the floor of
    the rounded product: whatever happens after [start], every
    FETCH_IMAGE the module sends carries a file name - never undefined -
    and an index that is not negative, and the current index is -1 or an
    index of the list. *)
Theorem requests_always_name_an_image :
  in_range ->
  forall (st0 : State) (os : list Occurrence),
    let result := run_all os (fst (fst (start st0))) no_timers in
    Forall names_image (snd result)
    /\ (-1 <= currentImageIndex (fst (fst result)) < size (fst (fst result)))%Z.
Proof.
  intros Hrange st0 os result.
  destruct (run_all_keeps os (Inv_start st0)) as [[H1 _ _] Hn].
  split; [exact (Hn Hrange) | exact (H1 Hrange)].
Qed.

(** *** Paused *)

(** A timeout that calls [loadNextImage]. *)
Definition arms (e : Effect) : bool :=
  match e with
  | setTimeout _ cb_loadNextImage _ => true
  | _ => false
  end.

(** What restarts a paused slideshow: NEXTCLOUD_RESUME and
    NEXTCLOUD_TOGGLE; and, unless [startPaused] is set, what starts it as
    well: a list from the helper, MODULE_DOM_CREATED and the module's
    [resume]. *)
Definition restarts (o : Occurrence) : bool :=
  match o with
  | FromModules NEXTCLOUD_RESUME | FromModules NEXTCLOUD_TOGGLE => true
  | _ => false
  end.

Definition starts (o : Occurrence) : bool :=
  match o with
  | FromHelper (Helper.IMAGE_LIST_RECEIVED _) | FromModules MODULE_DOM_CREATED
  | Resume => true
  | _ => false
  end.

Definition resumes (c : Config) (o : Occurrence) : bool :=
  restarts o || (starts o && negb (startPaused c)).

Section Paused.
(** What is known of the configuration. *)
Variable P : Config -> Prop.

(** What a step may do while the slideshow is paused: it stays paused,
    with the configuration it has, and no update timer is set. *)
Definition quiet (st st' : State) (effs : list Effect) : Prop :=
  running st = false -> P (config st) ->
  running st' = false /\ config st' = config st
  /\ Forall (fun e => arms e = false) effs.

Lemma quiet_refl st : quiet st st [].
Proof. intros Hst HP. repeat split; auto. Qed.

Lemma quiet_trans st1 st2 st3 e1 e2 :
  quiet st1 st2 e1 -> quiet st2 st3 e2 -> quiet st1 st3 (e1 ++ e2).
Proof.
  intros H1 H2 Hst HP. destruct (H1 Hst HP) as (Hr1 & Hc1 & He1).
  rewrite <- Hc1 in HP.
  destruct (H2 Hr1 HP) as (Hr2 & Hc2 & He2).
  split; [exact Hr2|]. split; [congruence | now apply Forall_app].
Qed.

Definition Quiet {A} (m : F A) : Prop := Keeping quiet m.

Lemma Quiet_emit e : arms e = false -> Quiet (emit e).
Proof. intros He st Hst HP. cbn. repeat split; auto. Qed.

Lemma Quiet_modify f :
  (forall st, running st = false ->
              running (f st) = false /\ config (f st) = config st) ->
  Quiet (modify f).
Proof. intros Hf st Hst HP. cbn. destruct (Hf st Hst). repeat split; auto. Qed.

Lemma Quiet_scheduleNextUpdate : Quiet scheduleNextUpdate.
Proof.
  intros st Hst HP. unfold scheduleNextUpdate. open_handlers. run.
  rewrite Hst. cbn. repeat split; auto.
Qed.

Lemma Quiet_loadNextImage direction : Quiet (loadNextImage Math_random fuel direction).
Proof.
  unfold loadNextImage.
  apply (Keeping_bind quiet_trans); [apply (Keeping_get _ quiet_refl)|]. intros st0.
  destruct (animationInProgress st0); [now apply Quiet_emit|].
  destruct (is_nil (imageList st0)).
  { apply (Keeping_bind quiet_trans); [now apply Quiet_emit|]. intros _.
    apply Quiet_scheduleNextUpdate. }
  clear st0. apply Keeping_intro. intros st st' effs c Hrun Hst HP.
  unfold bindM at 1 in Hrun.
  pose proof (getNextImageFromList_post direction st) as Hpost.
  destruct (getNextImageFromList Math_random fuel direction st)
    as [[s1 e1] [[r|]|e|]].
  - destruct Hpost as (-> & (k & ->) & _). revert Hrun. open_handlers. run.
    intros [= <- <- _]. repeat split; auto.
  - destruct Hpost as (-> & ->). revert Hrun.
    unfold scheduleNextUpdate. open_handlers. run. rewrite Hst. cbn.
    intros [= <- <- _]. repeat split; auto.
  - contradiction.
  - destruct Hpost as (-> & (k & ->)). injection Hrun as <- <- _.
    repeat split; auto.
Qed.

Lemma Quiet_new_handle : Quiet new_handle.
Proof. intros st Hst HP. cbn. repeat split; auto. Qed.

Ltac quiet_step :=
  first
    [ apply (Keeping_ret _ quiet_refl)
    | apply (Keeping_get _ quiet_refl)
    | apply Quiet_scheduleNextUpdate
    | apply Quiet_loadNextImage
    | apply Quiet_new_handle
    | solve [apply Quiet_emit; reflexivity]
    | solve [apply Quiet_modify; intros ? ?; split; [assumption || reflexivity | reflexivity]]
    | apply (Keeping_bind quiet_trans); [|intros ?]
    | match goal with
      | |- Keeping _ (if ?b then _ else _) => destruct b eqn:?
      | |- Keeping _ (match ?x with _ => _ end) => destruct x eqn:?
      end
    | progress unfold Quiet ].

Lemma Quiet_pauseImageLoading : Quiet pauseImageLoading.
Proof. unfold pauseImageLoading, statusIcon, log. repeat quiet_step. Qed.

Lemma Quiet_setupRefreshTimer : Quiet setupRefreshTimer.
Proof. unfold setupRefreshTimer. repeat quiet_step. Qed.

(** The occurrences that never call [resumeImageLoading]. *)
Lemma Quiet_handle o :
  restarts o = false -> starts o = false -> Quiet (handle o).
Proof.
  destruct o as [n|n|d mainImage| |d|h|h| |]; cbn [handle restarts starts];
    try discriminate; intros Ho Ho'.
  - destruct n; try discriminate;
      unfold socketNotificationReceived, displayImage, send, log; repeat quiet_step.
  - unfold notificationReceived.
    apply (Keeping_bind quiet_trans); [apply (Keeping_get _ quiet_refl)|]. intros st.
    destruct n; try discriminate;
      unfold requestImageList, clear_updateTimer, statusIcon, send, log;
      repeat first [apply Quiet_pauseImageLoading | quiet_step].
  - unfold tempImg_onload, performImageTransition, log. repeat quiet_step.
  - unfold tempImg_onerror, log. repeat quiet_step.
  - unfold finishTransition. repeat quiet_step.
  - unfold updateTimer_fired. quiet_step.
  - unfold refreshTimer_fired, requestImageList, send, log. repeat quiet_step.
  - unfold suspend, log. repeat first [apply Quiet_pauseImageLoading | quiet_step].
Qed.

(** [resumeImageLoading(true)] with [startPaused] set. *)
Hypothesis P_startPaused : forall c, P c -> startPaused c = true.

Lemma Quiet_resume : Quiet (resumeImageLoading Math_random fuel true).
Proof.
  intros st Hst HP. unfold resumeImageLoading. open_handlers. run.
  rewrite Hst, (P_startPaused HP). cbn. repeat split; auto.
Qed.

Lemma Quiet_handle_startPaused o : starts o = true -> Quiet (handle o).
Proof.
  destruct o as [n|n|d mainImage| |d|h|h| |]; cbn [handle starts]; try discriminate.
  - destruct n; try discriminate. intros _.
    unfold socketNotificationReceived, log.
    repeat first [apply Quiet_resume | apply Quiet_setupRefreshTimer | quiet_step].
  - destruct n; try discriminate. intros _.
    unfold notificationReceived.
    apply (Keeping_bind quiet_trans); [apply (Keeping_get _ quiet_refl)|]. intros st.
    repeat first [apply Quiet_resume | quiet_step].
  - intros _. unfold resume, log.
    repeat first [apply Quiet_resume | apply Quiet_setupRefreshTimer | quiet_step].
Qed.
End Paused.

Lemma handle_quiet o st :
  running st = false ->
  resumes (config st) o = false ->
  running (fst (fst (handle o st))) = false
  /\ config (fst (fst (handle o st))) = config st
  /\ Forall (fun e => arms e = false) (snd (fst (handle o st))).
Proof.
  intros Hst Ho. unfold resumes in Ho.
  apply orb_false_iff in Ho as [Hrestarts Hstarts].
  destruct (starts o) eqn:Hs.
  - assert (Hsp : startPaused (config st) = true)
      by (now destruct (startPaused (config st))).
    exact (@Quiet_handle_startPaused (fun c => startPaused c = true)
             (fun c H => H) o Hs st Hst Hsp).
  - exact (@Quiet_handle (fun _ => True) o Hrestarts Hs st Hst I).
Qed.

Lemma tracks_no_arms effs :
  forall p,
    Forall (fun e => arms e = false) effs ->
    timeouts p = [] -> timeouts (tracks effs p) = [].
Proof.
  induction effs as [|e effs IH]; intros p Harms Hp; [exact Hp|].
  inversion Harms as [|? ? He Hrest]; subst. cbn [tracks fold_left].
  apply IH; [exact Hrest|].
  destruct e as [| |h [|d] q|h|h ms|h|]; cbn [track timeouts]; try exact Hp.
  - discriminate.
  - now rewrite Hp.
Qed.

(** *** A paused slideshow has no update timer pending *)

Lemma bind_emit {A} e (k : unit -> F A) st :
  bindM (emit e) k st = let '(s2, e2, r) := k tt st in (s2, e :: e2, r).
Proof. reflexivity. Qed.

Lemma bind_modify {A} f (k : unit -> F A) st :
  bindM (modify f) k st = k tt (f st).
Proof. cbn. now destruct (k tt (f st)) as [[s2 e2] r]. Qed.

Lemma bind_get {A} (k : State -> F A) st : bindM get k st = k st st.
Proof. cbn. now destruct (k st st) as [[s2 e2] r]. Qed.

Lemma bind_run {A B} (m : F A) (k : A -> F B) st s1 e1 a :
  m st = (s1, e1, Normal a) ->
  bindM m k st = let '(s2, e2, r) := k a s1 in (s2, e1 ++ e2, r).
Proof. intros Hm. unfold bindM. now rewrite Hm. Qed.

(** A step that leaves the slideshow running, or that leaves [running]
    as it was and sets no update timer. *)
Definition tame (st st' : State) (effs : list Effect) : Prop :=
  running st' = true
  \/ (running st' = running st /\ Forall (fun e => arms e = false) effs).

Lemma tame_refl st : tame st st [].
Proof. right. split; [reflexivity | constructor]. Qed.

Lemma tame_trans st1 st2 st3 e1 e2 :
  tame st1 st2 e1 -> tame st2 st3 e2 -> tame st1 st3 (e1 ++ e2).
Proof.
  intros [H1|[H1 A1]] [H2|[H2 A2]]; try (now left).
  - left. congruence.
  - right. split; [congruence | now apply Forall_app].
Qed.

Definition Tame {A} (m : F A) : Prop := Keeping tame m.

Lemma Tame_emit e : arms e = false -> Tame (emit e).
Proof.
  intros He st. right. cbn. split; [reflexivity | repeat constructor; exact He].
Qed.

Lemma Tame_modify f :
  (forall st, running (f st) = true \/ running (f st) = running st) ->
  Tame (modify f).
Proof.
  intros Hf st. cbn. destruct (Hf st) as [H|H]; [left; exact H|].
  right. split; [exact H | constructor].
Qed.

Lemma Tame_new_handle : Tame new_handle.
Proof. intros st. cbn. right. split; [reflexivity | constructor]. Qed.

Lemma Tame_scheduleNextUpdate : Tame scheduleNextUpdate.
Proof.
  intros st. unfold scheduleNextUpdate. open_handlers. run.
  destruct (running st) eqn:Hst; cbn [negb]; [|apply tame_refl].
  left. destruct (updateTimer st); run; exact Hst.
Qed.

Lemma Tame_loadNextImage direction : Tame (loadNextImage Math_random fuel direction).
Proof.
  unfold loadNextImage.
  apply (Keeping_bind tame_trans); [apply (Keeping_get _ tame_refl)|]. intros st0.
  destruct (animationInProgress st0); [now apply Tame_emit|].
  destruct (is_nil (imageList st0)).
  { apply (Keeping_bind tame_trans); [now apply Tame_emit|]. intros _.
    apply Tame_scheduleNextUpdate. }
  clear st0. apply Keeping_intro. intros st st' effs c Hrun.
  unfold bindM at 1 in Hrun.
  pose proof (getNextImageFromList_post direction st) as Hpost.
  destruct (getNextImageFromList Math_random fuel direction st)
    as [[s1 e1] [[r|]|e|]].
  - destruct Hpost as (-> & (k & ->) & _). revert Hrun. open_handlers. run.
    intros [= <- <- _]. right. split; [reflexivity | repeat constructor].
  - destruct Hpost as (-> & ->).
    assert (Hrest : Tame (log error (js "Failed to get image from list") ;;
                           scheduleNextUpdate)).
    { apply (Keeping_bind tame_trans); [now apply Tame_emit|]. intros _.
      apply Tame_scheduleNextUpdate. }
    destruct (bindM _ _ st) as [[s2 e2] c2] eqn:Hrun2.
    injection Hrun as <- <- _. cbn [app].
    exact (@Keeping_run tame _ _ _ _ _ _ Hrest Hrun2).
  - contradiction.
  - destruct Hpost as (-> & (k & ->)). injection Hrun as <- <- _.
    right. split; [reflexivity | constructor].
Qed.

Ltac tame_step :=
  first
    [ apply (Keeping_ret _ tame_refl)
    | apply (Keeping_get _ tame_refl)
    | apply Tame_scheduleNextUpdate
    | apply Tame_loadNextImage
    | apply Tame_new_handle
    | solve [apply Tame_emit; reflexivity]
    | solve [apply Tame_modify; intros ?; first [left; reflexivity | right; reflexivity]]
    | apply (Keeping_bind tame_trans); [|intros ?]
    | match goal with
      | |- Keeping _ (if ?b then _ else _) => destruct b eqn:?
      | |- Keeping _ (match ?x with _ => _ end) => destruct x eqn:?
      end
    | progress unfold Tame ].

(** [resumeImageLoading] writes false to [running] only where it is
    false already. *)
Lemma Tame_resumeImageLoading respectPausedState :
  Tame (resumeImageLoading Math_random fuel respectPausedState).
Proof.
  assert (Hbody : Tame (modify (set_running true) ;;
                        loadNextImage Math_random fuel next ;;
                        statusIcon None ;;
                        log info (js "Image loading resumed"))).
  { unfold statusIcon, log. repeat tame_step. }
  intros st. unfold resumeImageLoading. rewrite bind_get.
  destruct (running st) eqn:Hst; destruct respectPausedState; cbn [negb orb andb].
  - apply tame_refl.
  - apply Hbody.
  - destruct (startPaused (config st)); [|apply Hbody].
    right. cbn. split; [now rewrite Hst | constructor].
  - apply Hbody.
Qed.

(** What calls [pauseImageLoading]. *)
Definition pauses (o : Occurrence) : bool :=
  match o with
  | FromModules NEXTCLOUD_PAUSE | FromModules NEXTCLOUD_TOGGLE | Suspend => true
  | _ => false
  end.

Lemma Tame_handle o : pauses o = false -> Tame (handle o).
Proof.
  destruct o as [n|n|d mainImage| |d|h|h| |]; cbn [handle pauses];
    try discriminate; intros Ho.
  - destruct n;
      unfold socketNotificationReceived, displayImage, setupRefreshTimer, send, log;
      repeat first [apply Tame_resumeImageLoading | tame_step].
  - unfold notificationReceived.
    apply (Keeping_bind tame_trans); [apply (Keeping_get _ tame_refl)|]. intros st.
    destruct n; try discriminate;
      unfold requestImageList, clear_updateTimer, statusIcon, send, log;
      repeat first [apply Tame_resumeImageLoading | tame_step].
  - unfold tempImg_onload, performImageTransition, log. repeat tame_step.
  - unfold tempImg_onerror, log. repeat tame_step.
  - unfold finishTransition. repeat tame_step.
  - unfold updateTimer_fired. tame_step.
  - unfold refreshTimer_fired, requestImageList, send, log. repeat tame_step.
  - unfold resume, setupRefreshTimer, log.
    repeat first [apply Tame_resumeImageLoading | tame_step].
Qed.

(** What holds between the calls, with the timers: while [running] is
    false no update timer is pending. *)
Definition settled (st : State) (p : Timers) : Prop :=
  Inv st p /\ (running st = false -> timeouts p = []).

Definition resting (st st' : State) (effs : list Effect) : Prop :=
  forall p, settled st p -> settled st' (tracks effs p).

Lemma resting_refl st : resting st st [].
Proof. intros p Hp. exact Hp. Qed.

Lemma resting_trans st1 st2 st3 e1 e2 :
  resting st1 st2 e1 -> resting st2 st3 e2 -> resting st1 st3 (e1 ++ e2).
Proof. intros H1 H2 p Hp. rewrite tracks_app. auto. Qed.

Lemma resting_tame st st' effs :
  safe st st' effs -> tame st st' effs -> resting st st' effs.
Proof.
  intros Hs Ht p [Hinv Hrest]. split; [exact (proj1 (Hs p Hinv))|].
  intros Hst'. destruct Ht as [Ht|[Ht Harms]]; [congruence|].
  apply tracks_no_arms; [exact Harms|]. apply Hrest. congruence.
Qed.

Lemma Resting_tame {A} (m : F A) : Safe m -> Tame m -> Keeping resting m.
Proof. intros Hs Ht st. apply resting_tame; [apply Hs | apply Ht]. Qed.

(** [pauseImageLoading] clears the timer in [updateTimer], which is the
    only one that can be pending. *)
Lemma Resting_pauseImageLoading : Keeping resting pauseImageLoading.
Proof.
  intros st p [Hinv Hrest].
  pose proof Safe_pauseImageLoading as Hs. unfold Safe, Keeping, safe in Hs.
  split; [exact (proj1 (Hs st p Hinv))|]. intros _. clear Hs.
  unfold pauseImageLoading, statusIcon, log. open_handlers. run.
  destruct (updateTimer st) as [h|] eqn:Hu; run;
    cbn [config set_running set_updateTimer];
    destruct (showStatusIcon (config st)); run; fields.
  - exact (drop_pending Hinv Hu).
  - exact (drop_pending Hinv Hu).
  - exact (none_pending Hinv Hu).
  - exact (none_pending Hinv Hu).
Qed.

Lemma Resting_handle o : Keeping resting (handle o).
Proof.
  destruct (pauses o) eqn:Hp;
    [|apply Resting_tame; [apply Safe_handle | now apply Tame_handle]].
  destruct o as [n|n|d mainImage| |d|h|h| |]; try discriminate; cbn [handle].
  - destruct n; try discriminate; unfold notificationReceived; intros st;
      rewrite bind_get.
    + destruct (running st); [apply Resting_pauseImageLoading|].
      apply resting_tame;
        [apply Safe_resumeImageLoading | apply Tame_resumeImageLoading].
    + apply Resting_pauseImageLoading.
  - unfold suspend.
    apply (Keeping_bind resting_trans).
    { apply Resting_tame; [apply Safe_log | now apply Tame_emit]. }
    intros _.
    apply (Keeping_bind resting_trans); [apply Resting_pauseImageLoading|].
    intros _.
    apply Resting_tame; [apply Safe_clear_refreshTimer | repeat tame_step].
Qed.

Lemma fire_settled o st p p1 : fire o p = Some p1 -> settled st p -> settled st p1.
Proof.
  intros Hfire [Hinv Hrest]. split; [exact (fire_keeps o Hfire Hinv)|].
  intros Hst. specialize (Hrest Hst).
  destruct o; cbn [fire] in Hfire; try (injection Hfire as <-; exact Hrest).
  - rewrite Hrest in Hfire. discriminate.
  - destruct (existsb _ _); [|discriminate]. injection Hfire as <-. exact Hrest.
Qed.

Lemma run_all_settled os :
  forall st p,
    settled st p ->
    settled (fst (fst (run_all os st p))) (snd (fst (run_all os st p))).
Proof.
  induction os as [|o os IH]; intros st p Hp; cbn [run_all]; [exact Hp|].
  destruct (fire o p) as [p1|] eqn:Hfire; [|now apply IH].
  pose proof (fire_settled o Hfire Hp) as Hp1.
  pose proof (Resting_handle o) as Hk. unfold Keeping, resting in Hk.
  specialize (Hk st p1 Hp1).
  destruct (handle o st) as [[st1 effs] c]. cbn [fst snd] in *.
  specialize (IH st1 (tracks effs p1) Hk).
  destruct (run_all os st1 (tracks effs p1)) as [[st2 p2] out].
  exact IH.
Qed.

Lemma settled_start st : settled (fst (fst (start st))) no_timers.
Proof. split; [apply Inv_start | reflexivity]. Qed.

(** From a paused slideshow with no update timer pending. *)
Lemma run_all_paused os :
  forall (st : State) (p : Timers),
    running st = false ->
    timeouts p = [] ->
    forallb (fun o => negb (resumes (config st) o)) os = true ->
    running (fst (fst (run_all os st p))) = false
    /\ config (fst (fst (run_all os st p))) = config st
    /\ timeouts (snd (fst (run_all os st p))) = []
    /\ Forall (fun e => arms e = false) (snd (run_all os st p)).
Proof.
  induction os as [|o os IH]; intros st p Hst Hp Hos; cbn [run_all].
  - repeat split; auto.
  - cbn [forallb] in Hos. apply andb_true_iff in Hos as [Ho Hos].
    apply negb_true_iff in Ho.
    destruct (fire o p) as [p1|] eqn:Hfire; [|now apply IH].
    assert (Hp1 : timeouts p1 = []).
    { destruct o; cbn [fire] in Hfire; try (injection Hfire as <-; exact Hp).
      - rewrite Hp in Hfire. discriminate.
      - destruct (existsb _ _); [|discriminate]. injection Hfire as <-. exact Hp. }
    destruct (handle_quiet o st Hst Ho) as (Hr & Hc & Harms).
    destruct (handle o st) as [[st1 effs] c]. cbn [fst snd] in *.
    rewrite <- Hc in Hos.
    specialize (IH st1 (tracks effs p1) Hr (@tracks_no_arms effs p1 Harms Hp1) Hos).
    destruct (run_all os st1 (tracks effs p1)) as [[st2 p2] out].
    cbn [fst snd] in *. destruct IH as (H1 & H2 & H3 & H4).
    split; [exact H1|]. split; [congruence|].
    split; [exact H3 | now apply Forall_app].
Qed.

(** Whenever the slideshow is paused after [start] - not yet started,
    paused by the user, or suspended - no update timer is pending; and
    from then on it stays paused, the configuration is not changed, and
    no update timer is set or pending, whatever happens - images asked
    for with NEXTCLOUD_NEXT and shown, failures, timers that fire, the
    module suspended - until NEXTCLOUD_RESUME or NEXTCLOUD_TOGGLE; with
    [startPaused] set, a list from the helper, MODULE_DOM_CREATED and the
    module's [resume] leave it paused as well. *)
Theorem paused_until_resumed :
  forall (st0 : State) (before os : list Occurrence),
    let reached := run_all before (fst (fst (start st0))) no_timers in
    let st := fst (fst reached) in
    let p := snd (fst reached) in
    running st = false ->
    forallb (fun o => negb (resumes (config st) o)) os = true ->
    let result := run_all os st p in
    timeouts p = []
    /\ running (fst (fst result)) = false
    /\ config (fst (fst result)) = config st
    /\ timeouts (snd (fst result)) = []
    /\ Forall (fun e => arms e = false) (snd result).
Proof.
  intros st0 before os reached st p Hst Hos result.
  destruct (run_all_settled before (settled_start st0)) as [_ Hrest].
  fold reached in Hrest. fold st in Hrest. fold p in Hrest.
  specialize (Hrest Hst).
  split; [exact Hrest|]. exact (run_all_paused os st p Hst Hrest Hos).
Qed.

(** *** A list from the helper *)

Definition icon (st : State) : list Effect :=
  if showStatusIcon (config st) then [Dom (updateStatusIcon None)] else [].

Lemma statusIcon_run st : statusIcon None st = (st, icon st, Normal tt).
Proof.
  unfold statusIcon, icon. rewrite bind_get.
  destruct (showStatusIcon (config st)); reflexivity.
Qed.

Definition resumed : Effect := Log info (tagged (js "Image loading resumed")).

(** [resumeImageLoading(true)] on a running slideshow does nothing. *)
Lemma resumeImageLoading_running st :
  running st = true ->
  resumeImageLoading Math_random fuel true st = (st, [], Normal tt).
Proof.
  intros Hrun. unfold resumeImageLoading. rewrite bind_get, Hrun. reflexivity.
Qed.

(** [resumeImageLoading] where it starts the slideshow, in sequential
    mode. *)
Lemma resumeImageLoading_starts st respectPausedState :
  running st = false \/ respectPausedState = false ->
  respectPausedState = false \/ startPaused (config st) = false ->
  animationInProgress st = false ->
  random (config st) = false ->
  imageList st <> [] ->
  let t := sequential next (currentImageIndex st) (size st) in
  resumeImageLoading Math_random fuel respectPausedState st
  = (set_currentImageIndex t (set_running true st),
     loading (request (imageList st) t) ++ icon st ++ [resumed],
     Normal tt).
Proof.
  intros Hgo Hsp Hanim Hseq Hlist t.
  unfold resumeImageLoading. rewrite bind_get.
  assert (Hc1 : negb (running st) || negb respectPausedState = true)
    by (destruct Hgo as [-> | ->]; [reflexivity | apply orb_true_r]).
  assert (Hc2 : respectPausedState && startPaused (config st) = false)
    by (destruct Hsp as [-> | ->]; [reflexivity | apply andb_false_r]).
  rewrite Hc1, Hc2, bind_modify.
  pose proof (loadNextImage_sequential Math_random fuel
                (set_running true st) next Hanim Hseq Hlist) as Hload.
  cbv zeta in Hload. rewrite (@bind_run _ _ _ _ _ _ _ _ Hload).
  rewrite (@bind_run _ _ _ _ _ _ _ _ (statusIcon_run _)).
  reflexivity.
Qed.

Lemma setupRefreshTimer_run st :
  setupRefreshTimer st
  = (set_refreshTimer (Some (S (timers st))) (set_timers (S (timers st)) st),
     match refreshTimer st with
     | Some h => [clearInterval h]
     | None => []
     end ++ [setInterval (S (timers st)) (listRefreshInterval (config st) * 1000)],
     Normal tt).
Proof.
  unfold setupRefreshTimer. rewrite bind_get.
  destruct (refreshTimer st); reflexivity.
Qed.

(** In sequential mode, shown and not set to start paused, the module
    takes a list that is not empty as a new beginning: the list replaces
    the old one, the index is reset, the refresh interval is set anew.  A
    slideshow that was not running - not yet started, or paused by the user -
    is started with a request for the first image of the list; one that
    was running gets no request and goes on when its update timer fires,
    then with the first image. *)
Theorem new_list_starts_over :
  forall (st : State) (payload : list jsstring),
    startHidden (config st) = false ->
    startPaused (config st) = false ->
    random (config st) = false ->
    animationInProgress st = false ->
    payload <> [] ->
    let result :=
      socketNotificationReceived Math_random fuel
        (Helper.IMAGE_LIST_RECEIVED payload) st in
    let st' := fst (fst result) in
    let effs := snd (fst result) in
    snd result = Normal tt
    /\ imageList st' = payload
    /\ running st' = true
    /\ requested effs = (if running st then [] else [request payload 0])
    /\ currentImageIndex st' = (if running st then -1 else 0)%Z
    /\ refreshTimer st' = Some (S (timers st))
    /\ In (setInterval (S (timers st)) (listRefreshInterval (config st) * 1000)) effs
    /\ updateTimer st' = updateTimer st.
Proof.
  intros st payload Hhidden Hpaused Hseq Hanim Hpayload result st' effs.
  subst effs st' result. unfold socketNotificationReceived, log.
  rewrite bind_emit, bind_modify, bind_modify, bind_get.
  cbn [config set_currentImageIndex set_imageList imageList].
  rewrite Hhidden, (is_nil_false Hpayload). cbn [negb andb].
  set (st1 := set_currentImageIndex (-1) (set_imageList payload st)).
  destruct (running st) eqn:Hrun.
  - rewrite (@bind_run _ _ _ _ _ _ _ _ (@resumeImageLoading_running st1 Hrun)).
    rewrite setupRefreshTimer_run. cbn. repeat split; auto.
    + destruct (refreshTimer st); reflexivity.
    + destruct (refreshTimer st); cbn; auto.
  - pose proof (@resumeImageLoading_starts st1 true (or_introl Hrun)
                  (or_intror Hpaused) Hanim Hseq Hpayload) as Hstart.
    cbv zeta in Hstart.
    assert (Ht : sequential next (currentImageIndex st1) (size st1) = 0%Z).
    { unfold sequential, st1. cbn [currentImageIndex set_currentImageIndex Z.add].
      now destruct (_ <=? _)%Z. }
    rewrite Ht in Hstart. rewrite (@bind_run _ _ _ _ _ _ _ _ Hstart).
    rewrite setupRefreshTimer_run. unfold icon, resumed, loading, st1.
    cbn [config set_currentImageIndex set_imageList set_running imageList
         refreshTimer timers].
    destruct (showStatusIcon (config st)), (refreshTimer st); cbn;
      repeat split; auto; solve [repeat (first [left; reflexivity | right])].
Qed.

(** *** Forwards and back *)

Lemma set_currentImageIndex_back st i :
  set_currentImageIndex (currentImageIndex st) (set_currentImageIndex i st) = st.
Proof. now destruct st. Qed.

(** In sequential mode, from an image of the list, the advance to the
    next image and then the advance to the previous one ask for the image
    that was current and leave the module as it was, and so the other way
    round.  From no current image (index -1) the way back does not lead
    there again: the next image is the first, the one before it the
    last. *)
Theorem previous_undoes_next :
  forall (st : State) (direction : Direction),
    animationInProgress st = false ->
    random (config st) = false ->
    imageList st <> [] ->
    let back := match direction with next => previous | previous => next end in
    let st1 := fst (fst (loadNextImage Math_random fuel direction st)) in
    let result := loadNextImage Math_random fuel back st1 in
    ((0 <= currentImageIndex st < size st)%Z ->
     fst (fst result) = st
     /\ requested (snd (fst result))
        = [request (imageList st) (currentImageIndex st)])
    /\ (currentImageIndex st = (-1)%Z -> direction = next ->
        currentImageIndex st1 = 0%Z
        /\ currentImageIndex (fst (fst result)) = (size st - 1)%Z).
Proof.
  intros st direction Hanim Hseq Hlist back st1 result.
  assert (Hlen : (0 < size st)%Z).
  { unfold size. destruct (imageList st); [congruence | cbn; lia]. }
  subst result st1.
  rewrite (loadNextImage_sequential Math_random fuel st direction Hanim Hseq Hlist).
  cbn [fst snd].
  set (t := sequential direction (currentImageIndex st) (size st)).
  rewrite (loadNextImage_sequential Math_random fuel
             (set_currentImageIndex t st) back Hanim Hseq Hlist).
  cbn [fst snd currentImageIndex set_currentImageIndex imageList].
  change (size (set_currentImageIndex t st)) with (size st).
  split.
  - intros Hidx.
    assert (Hback : sequential back t (size st) = currentImageIndex st).
    { subst t back. unfold sequential. destruct direction.
      - destruct (Z.leb_spec (size st) (currentImageIndex st + 1));
          [destruct (Z.ltb_spec (0 - 1) 0) | destruct (Z.ltb_spec (currentImageIndex st + 1 - 1) 0)];
          lia.
      - destruct (Z.ltb_spec (currentImageIndex st - 1) 0);
          [destruct (Z.leb_spec (size st) (size st - 1 + 1))
          | destruct (Z.leb_spec (size st) (currentImageIndex st - 1 + 1))];
          lia. }
    rewrite Hback. split; [|reflexivity].
    apply set_currentImageIndex_back.
  - intros Hnone ->. subst t back. rewrite Hnone. unfold sequential.
    change (-1 + 1)%Z with 0%Z. destruct (Z.leb_spec (size st) 0); [lia|].
    split; reflexivity.
Qed.

(** *** What start sends *)

(** [start] sends INIT_CONFIG and then FETCH_IMAGE_LIST, whatever the
    configuration.  The helper is sent the repository, the sizes and the
    geocoding switch as configured.  The blur is capped at 10.  With a
    path and both credentials the intervals are raised to 10 and 300
    seconds and a position that is none of the four becomes top_right;
    without them [validateConfig] returns early and leaves all three as
    configured. *)
Theorem start_sends_configuration_then_asks_for_list :
  forall (st : State),
    let st' := fst (fst (start st)) in
    let c := config st in
    let c' := config st' in
    sent (snd (fst (start st)))
    = [Helper.INIT_CONFIG (helper_config c'); Helper.FETCH_IMAGE_LIST]
    /\ helper_config c' = helper_config c
    /\ blurAmount c' = N.min 10 (blurAmount c)
    /\ if complete c
       then updateInterval c' = N.max 10 (updateInterval c)
            /\ listRefreshInterval c' = N.max 300 (listRefreshInterval c)
            /\ statusIconPosition c'
               = (if includes validPositions (statusIconPosition c)
                  then statusIconPosition c else js "top_right")
       else updateInterval c' = updateInterval c
            /\ listRefreshInterval c' = listRefreshInterval c
            /\ statusIconPosition c' = statusIconPosition c.
Proof.
  intros st. cbv zeta. unfold complete.
  unfold start, validateConfig, modify_config, requestImageList.
  open_handlers.
  expose.
  destruct (Helper.is_empty (Helper.path (repositoryConfig (config st)))); expose.
  { destruct (10 <? blurAmount (config st))%N eqn:Hblur; expose;
      (apply N.ltb_lt in Hblur || apply N.ltb_ge in Hblur);
      cbn; repeat split; auto; lia. }
  destruct (Helper.is_empty (Helper.username (repositoryConfig (config st)))
            || Helper.is_empty (Helper.password (repositoryConfig (config st))));
    expose.
  { destruct (10 <? blurAmount (config st))%N eqn:Hblur; expose;
      (apply N.ltb_lt in Hblur || apply N.ltb_ge in Hblur);
      cbn; repeat split; auto; lia. }
  destruct (includes validPositions (statusIconPosition (config st))); expose;
    destruct (updateInterval (config st) <? 10)%N eqn:Hupdate; expose;
    destruct (listRefreshInterval (config st) <? 300)%N eqn:Hrefresh; expose;
    destruct (10 <? blurAmount (config st))%N eqn:Hblur; expose;
    (apply N.ltb_lt in Hupdate || apply N.ltb_ge in Hupdate);
    (apply N.ltb_lt in Hrefresh || apply N.ltb_ge in Hrefresh);
    (apply N.ltb_lt in Hblur || apply N.ltb_ge in Hblur);
    cbn; repeat split; auto; lia.
Qed.

(** *** From the data to the picture *)

(** The operations on the page among the effects. *)
Fixpoint shown (effs : list Effect) : list DomOp :=
  match effs with
  | [] => []
  | Dom op :: effs' => op :: shown effs'
  | _ :: effs' => shown effs'
  end.

(** The data of an image that arrives while no animation is in progress
    is preloaded; the main image is faded out and, half the animation
    speed later, the new one is shown; then the next advance is set on a
    timer, [updateInterval] seconds later, when the slideshow is running.  From the arrival until the image is
    shown an animation is in progress, and data that arrives meanwhile is
    dropped: nothing is done to the page and no field changes. *)
Theorem received_image_is_shown_then_the_next_is_due :
  forall (st : State) (d d' : Helper.ImagePayload),
    animationInProgress st = false ->
    running st = true ->
    let arrived := socketNotificationReceived Math_random fuel
                     (Helper.IMAGE_DATA_RECEIVED d) st in
    let loaded := tempImg_onload d true (fst (fst arrived)) in
    let faded := finishTransition d (fst (fst loaded)) in
    let st' := fst (fst faded) in
    shown (snd (fst arrived) ++ snd (fst loaded) ++ snd (fst faded))
    = [preload d; fadeOut d; showImage d]
    /\ In (setTimeout (S (timers st)) (cb_finishTransition d)
             (inject_Z (Z.of_N (animationSpeed (config st))) / 2))
          (snd (fst loaded))
    /\ In (setTimeout (S (S (timers st))) cb_loadNextImage
             (inject_Z (Z.of_N (updateInterval (config st) * 1000))))
          (snd (fst faded))
    /\ updateTimer st' = Some (S (S (timers st)))
    /\ currentImageUrl st' = Some (Helper.p_encodedData d)
    /\ animationInProgress st' = false
    /\ (forall s, s = fst (fst arrived) \/ s = fst (fst loaded) ->
          animationInProgress s = true
          /\ fst (fst (socketNotificationReceived Math_random fuel
                         (Helper.IMAGE_DATA_RECEIVED d') s)) = s
          /\ shown (snd (fst (socketNotificationReceived Math_random fuel
                                (Helper.IMAGE_DATA_RECEIVED d') s))) = []).
Proof.
  intros st d d' Hanim Hrun arrived loaded faded st'.
  assert (Harrived : arrived
                     = (set_animationInProgress true st,
                        [Log debug (tagged (js "Received image data"));
                         Dom (preload d)], Normal tt)).
  { subst arrived. unfold socketNotificationReceived, displayImage, log.
    rewrite bind_emit, bind_get, Hanim, bind_modify. reflexivity. }
  assert (Hloaded : loaded
                    = (set_timers (S (timers st)) (set_animationInProgress true st),
                       [Dom (fadeOut d);
                        setTimeout (S (timers st)) (cb_finishTransition d)
                          (inject_Z (Z.of_N (animationSpeed (config st))) / 2)],
                       Normal tt)).
  { subst loaded. rewrite Harrived. reflexivity. }
  assert (Hfaded : faded
                   = (set_updateTimer (Some (S (S (timers st))))
                        (set_timers (S (S (timers st)))
                           (set_animationInProgress false
                              (set_currentImageUrl (Some (Helper.p_encodedData d))
                                 (set_timers (S (timers st))
                                    (set_animationInProgress true st))))),
                      Dom (showImage d)
                      :: match updateTimer st with
                         | Some h => [clearTimeout h]
                         | None => []
                         end
                      ++ [setTimeout (S (S (timers st))) cb_loadNextImage
                            (inject_Z (Z.of_N (updateInterval (config st) * 1000)))],
                      Normal tt)).
  { subst faded. rewrite Hloaded. cbn [fst]. unfold finishTransition.
    rewrite bind_emit, bind_modify, bind_modify.
    unfold scheduleNextUpdate. rewrite bind_get.
    cbn [running updateTimer set_animationInProgress set_currentImageUrl set_timers].
    rewrite Hrun. cbn [negb].
    destruct (updateTimer st); reflexivity. }
  subst st'. rewrite Hfaded, Hloaded, Harrived. cbn [fst snd].
  split; [destruct (updateTimer st); reflexivity|].
  split; [right; left; reflexivity|].
  split; [right; apply in_or_app; right; left; reflexivity|].
  split; [reflexivity|]. split; [reflexivity|]. split; [reflexivity|].
  intros s [-> | ->]; (split; [reflexivity|]);
    unfold socketNotificationReceived, displayImage, log;
    rewrite bind_emit, bind_get; cbn [animationInProgress set_animationInProgress
                                       set_timers]; split; reflexivity.
Qed.

End Life.

(** **** On the example configuration *)

(** The first image from the list to the page, then the timer, a step
    forwards and the module suspended and resumed. *)
Definition first_minutes : list Occurrence :=
  [FromHelper (Helper.IMAGE_LIST_RECEIVED abc);
   FromHelper (Helper.IMAGE_DATA_RECEIVED (picture "a.jpg"));
   Loaded (picture "a.jpg") true;
   FadedOut (picture "a.jpg");
   UpdateDue 3;
   FromHelper (Helper.IMAGE_DATA_RECEIVED (picture "b.jpg"));
   LoadFailed;
   FromModules NEXTCLOUD_NEXT;
   Suspend;
   Resume].

(** In random mode, with the draws 0.1, 0.1 and 0.7. *)
Lemma requests_always_name_an_image_witness :
  let result :=
    run_all dice 8 first_minutes (fst (fst (start (fresh (config shuffled)))))
      no_timers in
  Forall names_image (snd result)
  /\ (-1 <= currentImageIndex (fst (fst result)) < size (fst (fst result)))%Z.
Proof.
  exact (@requests_always_name_an_image dice 8 dice_in_range
           (fresh (config shuffled)) first_minutes).
Defined.

(** The slideshow is started by the list, shows a.jpg, sets its update
    timer and is paused by the user. *)
Definition until_paused : list Occurrence :=
  [FromHelper (Helper.IMAGE_LIST_RECEIVED abc);
   FromHelper (Helper.IMAGE_DATA_RECEIVED (picture "a.jpg"));
   Loaded (picture "a.jpg") true;
   FadedOut (picture "a.jpg");
   FromModules NEXTCLOUD_PAUSE].

(** While it is paused: a step forwards, the image shown, a failure, the
    timer that was cleared, the module suspended. *)
Definition while_paused : list Occurrence :=
  [FromModules NEXTCLOUD_NEXT;
   FromHelper (Helper.IMAGE_DATA_RECEIVED (picture "b.jpg"));
   Loaded (picture "b.jpg") true;
   FadedOut (picture "b.jpg");
   LoadFailed;
   FromModules NEXTCLOUD_PAUSE;
   UpdateDue 3;
   Suspend].

Lemma paused_until_resumed_witness :
  let reached :=
    run_all dice 8 until_paused (fst (fst (start (fresh Sample.front_config))))
      no_timers in
  let result :=
    run_all dice 8 while_paused (fst (fst reached)) (snd (fst reached)) in
  updateTimer (fst (fst reached)) = None
  /\ timeouts (snd (fst reached)) = []
  /\ running (fst (fst result)) = false
  /\ config (fst (fst result)) = config (fst (fst reached))
  /\ timeouts (snd (fst result)) = []
  /\ Forall (fun e => arms e = false) (snd result).
Proof.
  split; [vm_compute; reflexivity|].
  apply (@paused_until_resumed dice 8 (fresh Sample.front_config)
           until_paused while_paused); vm_compute; reflexivity.
Defined.

Lemma new_list_starts_over_witness :
  let result :=
    socketNotificationReceived dice 8 (Helper.IMAGE_LIST_RECEIVED abc)
      (fresh Sample.front_config) in
  running (fst (fst result)) = true
  /\ requested (snd (fst result)) = [request abc 0]
  /\ refreshTimer (fst (fst result)) = Some 1%nat.
Proof.
  destruct (@new_list_starts_over dice 8 (fresh Sample.front_config) abc
              eq_refl eq_refl eq_refl eq_refl ltac:(discriminate))
    as (_ & _ & Hrunning & Hrequested & _ & Hrefresh & _).
  split; [exact Hrunning|]. split; [exact Hrequested | exact Hrefresh].
Defined.

Lemma previous_undoes_next_witness :
  let st := set_currentImageIndex 2 listed in
  let st1 := fst (fst (loadNextImage dice 8 next st)) in
  currentImageIndex st1 = 0%Z
  /\ fst (fst (loadNextImage dice 8 previous st1)) = st
  /\ requested (snd (fst (loadNextImage dice 8 previous st1)))
     = [request abc 2].
Proof.
  destruct (@previous_undoes_next dice 8 (set_currentImageIndex 2 listed) next
              eq_refl eq_refl ltac:(discriminate)) as [Hback _].
  destruct (Hback ltac:(cbn; lia)) as [Hstate Hrequest].
  split; [reflexivity|]. split; [exact Hstate | exact Hrequest].
Defined.

Lemma received_image_is_shown_then_the_next_is_due_witness :
  let st := set_running true listed in
  let arrived := socketNotificationReceived dice 8
                   (Helper.IMAGE_DATA_RECEIVED (picture "a.jpg")) st in
  let loaded := tempImg_onload (picture "a.jpg") true (fst (fst arrived)) in
  let faded := finishTransition (picture "a.jpg") (fst (fst loaded)) in
  shown (snd (fst arrived) ++ snd (fst loaded) ++ snd (fst faded))
  = [preload (picture "a.jpg"); fadeOut (picture "a.jpg");
     showImage (picture "a.jpg")]
  /\ updateTimer (fst (fst faded)) = Some 2%nat.
Proof.
  destruct (@received_image_is_shown_then_the_next_is_due dice 8
              (set_running true listed) (picture "a.jpg") (picture "b.jpg")
              eq_refl eq_refl)
    as (Hshown & _ & _ & Htimer & _).
  split; [exact Hshown | exact Htimer].
Defined.

End FrontLife.
